(** * cios: the request pipeline of [ApiClient], its cancel token,
      its interceptor chains and its fan-out combinator

    A shallow embedding of [src/client/ApiClient.ts], [src/error/ApiError.ts],
    [src/request/CancelToken.ts], [src/utils/fetch.ts], [src/utils/url.ts] and
    [src/utils/xhr.ts].

    Conventions of the embedding.
    - A JavaScript object literal built with spread keeps, for every key,
      whether the key is missing, present with value [undefined], or present
      with a value ([OwnProp]).  [{...a, ...b}] is [spread] field by field.
    - An [async] function is a computation that emits events (interceptor
      calls, transport dispatches, back-off sleeps) and either returns or
      throws ([M]).  The platform ([fetch], [XMLHttpRequest], [JSON.parse],
      the user's interceptors) is a [World] the pipeline is run against.
    - The retry budget is a natural number and the base delay an integer;
      delays are rationals, because the back-off exponent of the source can
      be negative.  [is_double] says when such a rational is the double the
      source computes.
    - One logical request is run sequentially: the interceptor lists and the
      cancel token it reads do not change while it runs.  Concurrent
      mutation of an interceptor list is modelled on its own, with the
      array objects and their aliasing made explicit ([Chain]).
    - The platform's [Request] constructor and [URL] parser throw where the
      [World] says so, and for a GET or HEAD request with a body; the
      per-host spacing of GET requests only delays a request and leaves no
      event.
    - A custom [paramsSerializer], [JSON.stringify] and the calls on the
      [XMLHttpRequest] object are followed where they return: a run in
      which one of them throws rejects before, or outside, the [try] block
      of [request] and is not among the runs of the embedding.  The
      statements that need it say so in their hypotheses ([params] absent)
      or in their text. *)

From Stdlib Require Import ZArith QArith Qpower String Ascii List DecimalString Lia Bool.
From stdpp Require Import base option list strings gmap.

Local Open Scope Z_scope.
Local Open Scope string_scope.
Local Open Scope list_scope.

(** ** JavaScript values and thrown values *)

Module Js.

(* [Value] nests lists of itself; no induction over it is needed. *)
#[local] Unset Elimination Schemes.
Inductive Value :=
| VUndefined
| VNull
| VBool (b : bool)
| VNum (n : Z)
| VStr (s : string)
| VArr (items : list Value)
| VObj (props : list (string * Value))
| VBinary (bytes : string)
| VForm (entries : list (string * string)).
#[local] Set Elimination Schemes.

(** What a [catch] clause can receive.  [Raw] is a thrown value that is not
    an [Error]; it carries [String(value)]. *)
Inductive Thrown :=
| Error_ (message : string)
| TypeError (message : string)
| SyntaxError (message : string)
| DOMException (name message : string)
| ApiError (message : string) (statusCode : option Z) (responseData : Value)
| Raw (repr : string).

Inductive Completion (A : Type) :=
| Normal (a : A)
| Throw (e : Thrown).
Arguments Normal {A} a.
Arguments Throw {A} e.

Definition instanceof_Error (e : Thrown) : bool :=
  match e with Raw _ => false | _ => true end.

Definition instanceof_TypeError (e : Thrown) : bool :=
  match e with TypeError _ => true | _ => false end.

(** [e instanceof Error ? e.message : String(e)] *)
Definition message_or_String (e : Thrown) : string :=
  match e with
  | Error_ m | TypeError m | SyntaxError m | DOMException _ m | ApiError m _ _ => m
  | Raw s => s
  end.

(** [e instanceof Error ? e : new Error(String(e))] *)
Definition as_Error (e : Thrown) : Thrown :=
  match e with Raw s => Error_ s | _ => e end.

(** [String(n)] for an integer. *)
Definition String_of (n : Z) : string := NilZero.string_of_int (Z.to_int n).

(** [hay.includes(needle)] *)
Fixpoint includes (hay needle : string) : bool :=
  String.prefix needle hay
  || match hay with
     | EmptyString => false
     | String _ rest => includes rest needle
     end.

(** Truthiness of the values the source tests with [if], [||] and [&&]. *)
Definition truthy_string (s : string) : bool :=
  match s with EmptyString => false | _ => true end.

Definition truthy_number (n : Z) : bool := negb (Z.eqb n 0).

End Js.
Import Js.

(** ** src/error/ApiError.ts *)

Module ApiErrorMethods.

Definition isNetworkError (message : string) : bool :=
  includes message "network" || includes message "fetch".

Definition isTimeoutError (message : string) : bool :=
  includes message "timeout" || includes message "timed out".

Definition isCancellationError (message : string) : bool :=
  includes message "cancel" || includes message "abort".

End ApiErrorMethods.
Import ApiErrorMethods.

(** ** src/request/CancelToken.ts *)

Module CancelToken.

(** A registered callback is known by its identity; calling it is recorded
    as a [Notification] carrying the reason it was called with.  The
    callbacks of this module return and leave the token alone, as the ones
    the pipeline registers do; [Observers] below has callbacks that
    throw. *)
Definition Callback := nat.
Definition Notification := (Callback * option string)%type.

Record t := mk {
  _reason : option string;
  _callbacks : list Callback
}.

Definition create : t := {| _reason := None; _callbacks := [] |}.

Definition reason (tok : t) : option string := _reason tok.

(** [if (this._reason)] *)
Definition requested (tok : t) : bool :=
  match _reason tok with Some r => truthy_string r | None => false end.

Definition throwIfRequested (tok : t) : Completion unit :=
  match _reason tok with
  | Some r =>
      if truthy_string r
      then Throw (ApiError ("Request canceled: " +:+ r) None (VStr r))
      else Normal tt
  | None => Normal tt
  end.

(** [reason || "Operation canceled by user"] *)
Definition reason_or_default (reason : option string) : string :=
  match reason with
  | Some r => if truthy_string r then r else "Operation canceled by user"
  | None => "Operation canceled by user"
  end.

Definition cancel (reason : option string) (tok : t) : t * list Notification :=
  let r := reason_or_default reason in
  ({| _reason := Some r; _callbacks := [] |},
   map (fun callback => (callback, Some r)) (_callbacks tok)).

Definition register (callback : Callback) (tok : t) : t * list Notification :=
  if requested tok
  then (tok, [(callback, _reason tok)])
  else ({| _reason := _reason tok; _callbacks := _callbacks tok ++ [callback] |}, []).

(** A history of calls on one token, and the notifications it produces. *)
Inductive Call :=
| Cancel (reason : option string)
| Register (callback : Callback).

Definition call (c : Call) (tok : t) : t * list Notification :=
  match c with
  | Cancel r => cancel r tok
  | Register cb => register cb tok
  end.

Fixpoint calls (cs : list Call) (tok : t) : t * list Notification :=
  match cs with
  | [] => (tok, [])
  | c :: rest =>
      let '(tok1, ns1) := call c tok in
      let '(tok2, ns2) := calls rest tok1 in
      (tok2, ns1 ++ ns2)
  end.

(** The state every cancelled token is in: a truthy reason and no callback
    left. *)
Definition settled (tok : t) : Prop :=
  requested tok = true /\ _callbacks tok = [].

End CancelToken.

(** ** src/request/CancelToken.ts: callbacks that throw

    [CancelToken.cancel] and [CancelToken.register] above follow callbacks
    that return and leave the token alone, as the ones the pipeline
    registers do.  Here a callback returns, throws, or calls the token
    again; [cancel] runs the callbacks before it empties the list, so a
    callback that throws leaves the list in place.  A call in which a
    callback calls the token again is not followed ([None]). *)

Module Observers.

Import CancelToken.

Inductive Behaviour :=
| Returns
| Throws (e : Thrown)
| CallsTheToken.

(** [callbacks.forEach(callback => callback(reason))]: the calls made, in
    order, and how the loop ends. *)
Fixpoint forEach (behaviour : Callback -> Behaviour) (reason : string)
    (callbacks : list Callback) : option (list Notification * Completion unit) :=
  match callbacks with
  | [] => Some ([], Normal tt)
  | callback :: rest =>
      match behaviour callback with
      | Returns =>
          match forEach behaviour reason rest with
          | Some (ns, c) => Some ((callback, Some reason) :: ns, c)
          | None => None
          end
      | Throws e => Some ([(callback, Some reason)], Throw e)
      | CallsTheToken => None
      end
  end.

(** What a call of a method leaves behind: the token, the callbacks it
    called, and whether it returned or threw. *)
Record Result := {
  token_after : t;
  notified : list Notification;
  ended : Completion unit
}.

Definition cancel (behaviour : Callback -> Behaviour) (reason : option string) (tok : t)
  : option Result :=
  let r := reason_or_default reason in
  match forEach behaviour r (_callbacks tok) with
  | Some (ns, Normal _) =>
      Some {| token_after := {| _reason := Some r; _callbacks := [] |};
              notified := ns; ended := Normal tt |}
  | Some (ns, Throw e) =>
      Some {| token_after := {| _reason := Some r; _callbacks := _callbacks tok |};
              notified := ns; ended := Throw e |}
  | None => None
  end.

Definition register (behaviour : Callback -> Behaviour) (callback : Callback) (tok : t)
  : option Result :=
  if requested tok
  then match behaviour callback with
       | Returns =>
           Some {| token_after := tok; notified := [(callback, _reason tok)];
                   ended := Normal tt |}
       | Throws e =>
           Some {| token_after := tok; notified := [(callback, _reason tok)];
                   ended := Throw e |}
       | CallsTheToken => None
       end
  else Some {| token_after :=
                 {| _reason := _reason tok; _callbacks := _callbacks tok ++ [callback] |};
               notified := []; ended := Normal tt |}.

Definition call (behaviour : Callback -> Behaviour) (c : Call) (tok : t) : option Result :=
  match c with
  | Cancel r => cancel behaviour r tok
  | Register cb => register behaviour cb tok
  end.

(** A history of calls by a caller that goes on after a call that threw. *)
Fixpoint calls (behaviour : Callback -> Behaviour) (cs : list Call) (tok : t)
  : option (t * list Notification) :=
  match cs with
  | [] => Some (tok, [])
  | c :: rest =>
      match call behaviour c tok with
      | Some r =>
          match calls behaviour rest (token_after r) with
          | Some (tok2, ns2) => Some (tok2, notified r ++ ns2)
          | None => None
          end
      | None => None
      end
  end.

End Observers.

(** ** src/request/types.ts *)

Module Options.

(** An own property of an object literal: the key is missing, or present
    and [undefined], or present with a value. *)
Inductive OwnProp (A : Type) :=
| Missing
| Undef
| Has (a : A).
Arguments Missing {A}.
Arguments Undef {A}.
Arguments Has {A} a.

(** The key of [{...a, ...b}]: [b]'s when [b] has the key, else [a]'s. *)
Definition spread {A} (a b : OwnProp A) : OwnProp A :=
  match b with Missing => a | _ => b end.

(** Reading [o.key]: [None] is [undefined]. *)
Definition read {A} (p : OwnProp A) : option A :=
  match p with Has a => Some a | _ => None end.

Inductive ResponseType := json | text | blob | arrayBuffer | formData.

Inductive Body :=
| BodyText (s : string)
| BodyForm (entries : list (string * string)).

Record RequestOptions := {
  method : OwnProp string;
  body : OwnProp Body;
  headers : OwnProp (gmap string string);
  baseUrl : OwnProp string;
  timeout : OwnProp Z;
  retries : OwnProp nat;
  retryDelay : OwnProp Z;
  retryStatusCodes : OwnProp (list Z);
  params : OwnProp (list (string * Value));
  paramsSerializer : OwnProp (list (string * Value) -> string);
  responseType : OwnProp ResponseType;
  validateStatus : OwnProp (Z -> bool);
  cancelToken : OwnProp CancelToken.t;
  useXMLHttpRequest : OwnProp bool;
  onUploadProgress : OwnProp nat;
  onDownloadProgress : OwnProp nat;
  withCredentials : OwnProp bool
}.

(** [{}] *)
Definition empty : RequestOptions :=
  {| method := Missing; body := Missing; headers := Missing; baseUrl := Missing;
     timeout := Missing; retries := Missing; retryDelay := Missing;
     retryStatusCodes := Missing; params := Missing; paramsSerializer := Missing;
     responseType := Missing; validateStatus := Missing; cancelToken := Missing;
     useXMLHttpRequest := Missing; onUploadProgress := Missing;
     onDownloadProgress := Missing; withCredentials := Missing |}.

(** [{...a, ...b}] *)
Definition spreadOptions (a b : RequestOptions) : RequestOptions :=
  {| method := spread (method a) (method b);
     body := spread (body a) (body b);
     headers := spread (headers a) (headers b);
     baseUrl := spread (baseUrl a) (baseUrl b);
     timeout := spread (timeout a) (timeout b);
     retries := spread (retries a) (retries b);
     retryDelay := spread (retryDelay a) (retryDelay b);
     retryStatusCodes := spread (retryStatusCodes a) (retryStatusCodes b);
     params := spread (params a) (params b);
     paramsSerializer := spread (paramsSerializer a) (paramsSerializer b);
     responseType := spread (responseType a) (responseType b);
     validateStatus := spread (validateStatus a) (validateStatus b);
     cancelToken := spread (cancelToken a) (cancelToken b);
     useXMLHttpRequest := spread (useXMLHttpRequest a) (useXMLHttpRequest b);
     onUploadProgress := spread (onUploadProgress a) (onUploadProgress b);
     onDownloadProgress := spread (onDownloadProgress a) (onDownloadProgress b);
     withCredentials := spread (withCredentials a) (withCredentials b) |}.

(** Object literals with one key written out. *)
Definition with_method (m : OwnProp string) (o : RequestOptions) : RequestOptions :=
  {| method := m; body := body o; headers := headers o; baseUrl := baseUrl o;
     timeout := timeout o; retries := retries o; retryDelay := retryDelay o;
     retryStatusCodes := retryStatusCodes o; params := params o;
     paramsSerializer := paramsSerializer o; responseType := responseType o;
     validateStatus := validateStatus o; cancelToken := cancelToken o;
     useXMLHttpRequest := useXMLHttpRequest o; onUploadProgress := onUploadProgress o;
     onDownloadProgress := onDownloadProgress o; withCredentials := withCredentials o |}.

Definition with_body (b : OwnProp Body) (o : RequestOptions) : RequestOptions :=
  {| method := method o; body := b; headers := headers o; baseUrl := baseUrl o;
     timeout := timeout o; retries := retries o; retryDelay := retryDelay o;
     retryStatusCodes := retryStatusCodes o; params := params o;
     paramsSerializer := paramsSerializer o; responseType := responseType o;
     validateStatus := validateStatus o; cancelToken := cancelToken o;
     useXMLHttpRequest := useXMLHttpRequest o; onUploadProgress := onUploadProgress o;
     onDownloadProgress := onDownloadProgress o; withCredentials := withCredentials o |}.

Definition with_headers (h : OwnProp (gmap string string)) (o : RequestOptions)
  : RequestOptions :=
  {| method := method o; body := body o; headers := h; baseUrl := baseUrl o;
     timeout := timeout o; retries := retries o; retryDelay := retryDelay o;
     retryStatusCodes := retryStatusCodes o; params := params o;
     paramsSerializer := paramsSerializer o; responseType := responseType o;
     validateStatus := validateStatus o; cancelToken := cancelToken o;
     useXMLHttpRequest := useXMLHttpRequest o; onUploadProgress := onUploadProgress o;
     onDownloadProgress := onDownloadProgress o; withCredentials := withCredentials o |}.

Definition with_retries (r : OwnProp nat) (o : RequestOptions) : RequestOptions :=
  {| method := method o; body := body o; headers := headers o; baseUrl := baseUrl o;
     timeout := timeout o; retries := r; retryDelay := retryDelay o;
     retryStatusCodes := retryStatusCodes o; params := params o;
     paramsSerializer := paramsSerializer o; responseType := responseType o;
     validateStatus := validateStatus o; cancelToken := cancelToken o;
     useXMLHttpRequest := useXMLHttpRequest o; onUploadProgress := onUploadProgress o;
     onDownloadProgress := onDownloadProgress o; withCredentials := withCredentials o |}.

(** [{...h}] for a headers object that may be [undefined]. *)
Definition spread_headers (h : OwnProp (gmap string string)) : gmap string string :=
  match read h with Some m => m | None => ∅ end.

End Options.
Import Options.

(** ** Requests, responses, the platform and the events of a run *)

Module Platform.

Inductive Signal := TimeoutSignal | CancelSignal.

(** [new Request(url, init)]: the URL and the init members the pipeline
    sets.  [init_headers] is the [headers] record of the init object, keyed
    by the spelling of its names; the header list the platform builds from
    it (names without case, values of equal names combined) is not
    modelled. *)
Record Request := {
  url : string;
  req_method : option string;
  init_headers : gmap string string;
  req_body : option Body;
  signal : option Signal
}.

Definition with_signal (s : Signal) (r : Request) : Request :=
  {| url := url r; req_method := req_method r; init_headers := init_headers r;
     req_body := req_body r; signal := Some s |}.

Record Response := {
  status : Z;
  statusText : string;
  content_type : option string;
  response_body : string
}.

(** [Error | null] and [T | null] of [ApiResponse<T>]: the error slot is
    [None] for [null]; the data slot is a value, [VNull] for [null]. *)
Definition ApiResponse := (option Thrown * Value)%type.

(** How an [XMLHttpRequest] ends: one of its handlers fires. *)
Inductive XhrOutcome :=
| XhrLoad (xhr_status : Z) (responseText : string) (response : Value)
| XhrError (xhr_status : Z)
| XhrTimeout (xhr_status : Z)
| XhrCancelled (reason : option string).

Inductive ErrorInterceptor :=
| ConsoleLogger
| UserErrorInterceptor (id : nat).

#[global] Instance ErrorInterceptor_eq_dec : EqDecision ErrorInterceptor.
Proof. solve_decision. Defined.

Inductive Event :=
| EvAttempt
| EvRequestInterceptor (id : nat)
| EvRegisterAbort
| EvFetch (r : Request)
| EvXhrSend (xhr_url xhr_method : string) (xhr_body : option Body)
| EvResponseInterceptor (id : nat)
| EvErrorChain (e : Thrown)
| EvErrorInterceptor (i : ErrorInterceptor)
| EvSleep (ms : Q).

(** Everything outside the repository.  [fetch] and [xhr] answer by the
    number of transport dispatches made before.  [Request_refused] is the
    message of the [TypeError] with which [new Request] refuses a request
    (a URL it cannot parse, a method it forbids), [body_refused] the
    message with which it refuses a body on GET or HEAD, [URL_refused] the
    message with which [new URL] refuses a string. *)
Record World := {
  fetch : nat -> Request -> Completion Response;
  xhr : nat -> string -> RequestOptions -> XhrOutcome;
  Request_refused : Request -> option string;
  body_refused : string;
  URL_refused : string -> option string;
  requestInterceptor : nat -> Request -> Completion Request;
  responseInterceptor : nat -> Response -> Completion Response;
  errorInterceptor : nat -> Thrown -> Completion Thrown;
  JSON_parse : string -> Completion Value;
  JSON_stringify : Value -> string;
  read_formData : string -> Completion Value;
  appendParams :
    string -> list (string * Value) -> option (list (string * Value) -> string) -> string;
  URLSearchParams_toString : list (string * string) -> string
}.

(** A computation reads the number of dispatches made so far and yields the
    events it emitted, the new number of dispatches and its completion;
    [None] is a run cut short by the recursion bound. *)
Definition M (A : Type) : Type := nat -> option (list Event * nat * Completion A).

Definition ret {A} (a : A) : M A := fun n => Some ([], n, Normal a).

Definition throw {A} (e : Thrown) : M A := fun n => Some ([], n, Throw e).

Definition lift {A} (c : Completion A) : M A := fun n => Some ([], n, c).

Definition emit (ev : Event) : M unit := fun n => Some ([ev], n, Normal tt).

Definition cut_short {A} : M A := fun _ => None.

Definition bind {A B} (m : M A) (k : A -> M B) : M B := fun n =>
  match m n with
  | None => None
  | Some (tr, n1, Throw e) => Some (tr, n1, Throw e)
  | Some (tr, n1, Normal a) =>
      match k a n1 with
      | None => None
      | Some (tr2, n2, r) => Some (tr ++ tr2, n2, r)
      end
  end.

(** [try { m } catch (e) { h e }] *)
Definition try_catch {A} (m : M A) (h : Thrown -> M A) : M A := fun n =>
  match m n with
  | None => None
  | Some (tr, n1, Normal a) => Some (tr, n1, Normal a)
  | Some (tr, n1, Throw e) =>
      match h e n1 with
      | None => None
      | Some (tr2, n2, r) => Some (tr ++ tr2, n2, r)
      end
  end.

Declare Scope pipeline_scope.
Delimit Scope pipeline_scope with pipeline.
Notation "'do' x <- m ; k" := (bind m (fun x => k))
  (at level 10, x name, m at level 100, k at level 200) : pipeline_scope.
Notation "'run' m ; k" := (bind m (fun _ => k))
  (at level 10, m at level 100, k at level 200) : pipeline_scope.

(** Projections of a finished run. *)
Definition events {A} (r : list Event * nat * Completion A) : list Event := fst (fst r).
Definition completion {A} (r : list Event * nat * Completion A) : Completion A := snd r.

(** Readings of a trace. *)
Definition sleeps (tr : list Event) : list Q :=
  omap (fun ev => match ev with EvSleep ms => Some ms | _ => None end) tr.

Definition is_fetch (ev : Event) : bool :=
  match ev with EvFetch _ => true | _ => false end.

Definition is_xhr (ev : Event) : bool :=
  match ev with EvXhrSend _ _ _ => true | _ => false end.

Definition is_dispatch (ev : Event) : bool := is_fetch ev || is_xhr ev.

Definition is_sleep (ev : Event) : bool :=
  match ev with EvSleep _ => true | _ => false end.

Definition is_chain (ev : Event) : bool :=
  match ev with EvErrorChain _ => true | _ => false end.

Definition is_attempt (ev : Event) : bool :=
  match ev with EvAttempt => true | _ => false end.

Definition is_interceptor_call (ev : Event) : bool :=
  match ev with EvErrorInterceptor _ => true | _ => false end.

Definition count (p : Event -> bool) (tr : list Event) : nat :=
  length (List.filter p tr).

Definition never (p : Event -> bool) (tr : list Event) : Prop :=
  Forall (fun ev => p ev = false) tr.

(** What every run of a computation satisfies. *)
Definition satisfies {A} (m : M A) (Q : list Event -> Completion A -> Prop) : Prop :=
  forall n tr n' r, m n = Some (tr, n', r) -> Q tr r.

Definition emits_only {A} (p : Event -> Prop) (m : M A) : Prop :=
  satisfies m (fun tr _ => Forall p tr).

Definition returns {A} (R : A -> Prop) (m : M A) : Prop :=
  satisfies m (fun _ r => forall a, r = Normal a -> R a).

(** A computation that is never cut short. *)
Definition total {A} (m : M A) : Prop := forall n, exists res, m n = Some res.

End Platform.
Import Platform.
Local Open Scope pipeline_scope.

(** ** src/utils/url.ts *)

Module Url.

Definition startsWith (s p : string) : bool := String.prefix p s.

Definition endsWith (s p : string) : bool :=
  let n := String.length s in
  let k := String.length p in
  (k <=? n)%nat && String.eqb (String.substring (n - k) k s) p.

Definition resolveUrl (endpoint baseUrl : string) : string :=
  if negb (truthy_string baseUrl) then endpoint
  else
    let baseWithTrailingSlash :=
      if endsWith baseUrl "/" then baseUrl else baseUrl +:+ "/" in
    let endpointWithoutLeadingSlash :=
      if startsWith endpoint "/"
      then String.substring 1 (String.length endpoint - 1) endpoint
      else endpoint in
    baseWithTrailingSlash +:+ endpointWithoutLeadingSlash.

(** The early return of [buildUrlWithParams]; the serialization itself is
    the platform's. *)
Definition buildUrlWithParams (w : World) (u : string)
    (params : option (list (string * Value)))
    (paramsSerializer : option (list (string * Value) -> string)) : string :=
  match params with
  | None => u
  | Some [] => u
  | Some ps => appendParams w u ps paramsSerializer
  end.

End Url.
Import Url.

(** Small readers for [a || b] on optional members. *)
Definition or_string (a : option string) (b : string) : string :=
  match a with Some s => if truthy_string s then s else b | None => b end.

Definition or_number (a : option Z) (b : Z) : Z :=
  match a with Some n => if truthy_number n then n else b | None => b end.

Definition or_count (a : option nat) (b : nat) : nat :=
  match a with Some (S n) => S n | _ => b end.

Definition truthy_optnum (a : option Z) : bool :=
  match a with Some n => truthy_number n | None => false end.

Definition truthy_flag (a : option bool) : bool :=
  match a with Some b => b | None => false end.

Definition present {A} (a : option A) : bool :=
  match a with Some _ => true | None => false end.

(** [`${n}`] for an optional number. *)
Definition template_number (n : option Z) : string :=
  match n with Some z => String_of z | None => "undefined" end.

(** ** src/utils/fetch.ts *)

Module Fetch.

(** One transport dispatch. *)
Definition fetch_call (w : World) (request : Request) : M Response :=
  fun n => Some ([EvFetch request], S n, fetch w n request).

(** The [catch] clause shared by both wrappers. *)
Definition rethrow_abort_as_timeout {A} (timeout : option Z) (error : Thrown) : M A :=
  match error with
  | DOMException name _ =>
      if String.eqb name "AbortError"
      then throw (Error_ ("Request timed out after " +:+ template_number timeout +:+ "ms"))
      else throw error
  | _ => throw error
  end.

Definition fetchWithTimeout (w : World) (request : Request) (timeout : option Z)
  : M Response :=
  if negb (truthy_optnum timeout) then fetch_call w request
  else
    try_catch (fetch_call w (with_signal TimeoutSignal request))
              (rethrow_abort_as_timeout timeout).

(** The calls of the progress observers are not recorded. *)
Definition fetchWithProgressTracking (w : World) (request : Request)
    (options : RequestOptions) : M Response :=
  let timeout := read (timeout options) in
  try_catch
    (let requestWithSignal :=
       if truthy_optnum timeout
       then with_signal TimeoutSignal request else request in
     fetch_call w requestWithSignal)
    (rethrow_abort_as_timeout timeout).

End Fetch.
Import Fetch.

(** ** src/utils/xhr.ts *)

Module Xhr.

Definition default_validateStatus (status : Z) : bool :=
  (200 <=? status)%Z && (status <? 300)%Z.

(** The body of [xhr.onload]. *)
Definition onload (w : World) (options : RequestOptions)
    (xhr_status : Z) (responseText : string) (response : Value) : ApiResponse :=
  let responseType := default json (read (responseType options)) in
  let decoded : Completion Value :=
    match responseType with
    | text => Normal (VStr responseText)
    | blob => Normal response
    | arrayBuffer => Normal response
    | formData =>
        Throw (Error_ "formData responseType is not supported with XMLHttpRequest")
    | json =>
        if truthy_string responseText then JSON_parse w responseText else Normal VNull
    end in
  match decoded with
  | Throw error => (Some (as_Error error), VNull)
  | Normal responseData =>
      let validateStatus :=
        default default_validateStatus (read (validateStatus options)) in
      if negb (validateStatus xhr_status)
      then (Some (ApiError ("Request failed with status " +:+ String_of xhr_status)
                           (Some xhr_status) responseData), VNull)
      else (None, responseData)
  end.

Definition settle (w : World) (options : RequestOptions) (o : XhrOutcome) : ApiResponse :=
  match o with
  | XhrLoad xhr_status responseText response =>
      onload w options xhr_status responseText response
  | XhrError xhr_status =>
      (Some (ApiError "Network error occurred" (Some xhr_status) VUndefined), VNull)
  | XhrTimeout xhr_status =>
      (Some (ApiError ("Request timed out after "
                       +:+ template_number (read (timeout options)) +:+ "ms")
                      (Some xhr_status) VUndefined), VNull)
  | XhrCancelled reason =>
      (Some (ApiError "Request canceled" None
                      (match reason with Some r => VStr r | None => VUndefined end)),
       VNull)
  end.

Definition requestWithXHR (w : World) (u : string) (options : RequestOptions)
  : M ApiResponse :=
  fun n =>
    Some ([EvXhrSend u (or_string (read (method options)) "GET") (read (body options))],
          S n,
          Normal (settle w options (xhr w n u options))).

End Xhr.
Import Xhr.

(** ** src/client/ApiClient.ts *)

Module ApiClient.

Record t := {
  baseUrl : string;
  defaultOptions : RequestOptions;
  requestInterceptors : list nat;
  responseInterceptors : list nat;
  errorInterceptors : list ErrorInterceptor
}.

(** The defaults written in the constructor. *)
Definition constructor_defaults : RequestOptions :=
  {| method := Missing; body := Missing;
     headers := Has {[ "Content-Type" := "application/json" ]};
     Options.baseUrl := Missing;
     timeout := Has 10000;
     retries := Has 0%nat;
     retryDelay := Has 1000;
     retryStatusCodes := Has [408; 429; 500; 502; 503; 504];
     params := Missing; paramsSerializer := Missing;
     responseType := Has json;
     validateStatus := Has (fun status => (200 <=? status)%Z && (status <? 300)%Z);
     cancelToken := Missing; useXMLHttpRequest := Missing;
     onUploadProgress := Missing; onDownloadProgress := Missing;
     withCredentials := Missing |}.

(** [new ApiClient(baseUrl, defaultOptions)]: the logging error interceptor
    is registered by the constructor. *)
Definition new (baseUrl : string) (defaultOptions : RequestOptions) : t :=
  {| baseUrl := baseUrl;
     defaultOptions := spreadOptions constructor_defaults defaultOptions;
     requestInterceptors := [];
     responseInterceptors := [];
     errorInterceptors := [ConsoleLogger] |}.

(** Registration seen from one caller at a time: [push] appends, the
    removal closure filters by identity, [clearInterceptors] empties all
    three lists.  ([Chain] below has the array objects behind the request
    list, for callers interleaved with running requests.) *)
Definition addRequestInterceptor (interceptor : nat) (c : t) : t :=
  {| baseUrl := baseUrl c; defaultOptions := defaultOptions c;
     requestInterceptors := requestInterceptors c ++ [interceptor];
     responseInterceptors := responseInterceptors c;
     errorInterceptors := errorInterceptors c |}.

Definition removeRequestInterceptor (interceptor : nat) (c : t) : t :=
  {| baseUrl := baseUrl c; defaultOptions := defaultOptions c;
     requestInterceptors := filter (fun i => i ≠ interceptor) (requestInterceptors c);
     responseInterceptors := responseInterceptors c;
     errorInterceptors := errorInterceptors c |}.

Definition addResponseInterceptor (interceptor : nat) (c : t) : t :=
  {| baseUrl := baseUrl c; defaultOptions := defaultOptions c;
     requestInterceptors := requestInterceptors c;
     responseInterceptors := responseInterceptors c ++ [interceptor];
     errorInterceptors := errorInterceptors c |}.

Definition removeResponseInterceptor (interceptor : nat) (c : t) : t :=
  {| baseUrl := baseUrl c; defaultOptions := defaultOptions c;
     requestInterceptors := requestInterceptors c;
     responseInterceptors := filter (fun i => i ≠ interceptor) (responseInterceptors c);
     errorInterceptors := errorInterceptors c |}.

Definition addErrorInterceptor (interceptor : nat) (c : t) : t :=
  {| baseUrl := baseUrl c; defaultOptions := defaultOptions c;
     requestInterceptors := requestInterceptors c;
     responseInterceptors := responseInterceptors c;
     errorInterceptors := errorInterceptors c ++ [UserErrorInterceptor interceptor] |}.

Definition removeErrorInterceptor (interceptor : nat) (c : t) : t :=
  {| baseUrl := baseUrl c; defaultOptions := defaultOptions c;
     requestInterceptors := requestInterceptors c;
     responseInterceptors := responseInterceptors c;
     errorInterceptors :=
       filter (fun i => i ≠ UserErrorInterceptor interceptor) (errorInterceptors c) |}.

Definition clearInterceptors (c : t) : t :=
  {| baseUrl := baseUrl c; defaultOptions := defaultOptions c;
     requestInterceptors := [];
     responseInterceptors := [];
     errorInterceptors := [] |}.

Definition mergeOptions (c : t) (options : RequestOptions) : RequestOptions :=
  with_headers
    (Has (spread_headers (headers options) ∪ spread_headers (headers (defaultOptions c))))
    (spreadOptions (defaultOptions c) options).

(** [error.statusCode && ...]: the status code when it is truthy. *)
Definition truthy_status (statusCode : option Z) : option Z :=
  match statusCode with
  | Some s => if truthy_number s then Some s else None
  | None => None
  end.

Definition shouldRetry (error : Thrown) (retryStatusCodes : option (list Z)) : bool :=
  if instanceof_TypeError error then true
  else
    match error with
    | ApiError message statusCode _ =>
        if match truthy_status statusCode, retryStatusCodes with
           | Some s, Some codes => existsb (Z.eqb s) codes
           | _, _ => false
           end
        then true
        else if match truthy_status statusCode with
                | Some s => (500 <=? s)%Z && (s <? 600)%Z
                | None => false
                end
        then true
        else if isTimeoutError message then true
        else false
    | _ => false
    end.

Fixpoint applyRequestInterceptors_from (w : World) (interceptors : list nat)
    (interceptedRequest : Request) : M Request :=
  match interceptors with
  | [] => ret interceptedRequest
  | interceptor :: rest =>
      run emit (EvRequestInterceptor interceptor);
      do next <- lift (requestInterceptor w interceptor interceptedRequest);
      applyRequestInterceptors_from w rest next
  end.

Definition applyRequestInterceptors (w : World) (c : t) (request : Request) : M Request :=
  applyRequestInterceptors_from w (requestInterceptors c) request.

Fixpoint applyResponseInterceptors_from (w : World) (interceptors : list nat)
    (interceptedResponse : Response) : M Response :=
  match interceptors with
  | [] => ret interceptedResponse
  | interceptor :: rest =>
      run emit (EvResponseInterceptor interceptor);
      do next <- lift (responseInterceptor w interceptor interceptedResponse);
      applyResponseInterceptors_from w rest next
  end.

Definition applyResponseInterceptors (w : World) (c : t) (response : Response)
  : M Response :=
  applyResponseInterceptors_from w (responseInterceptors c) response.

Definition call_error_interceptor (w : World) (i : ErrorInterceptor) (error : Thrown)
  : Completion Thrown :=
  match i with
  | ConsoleLogger => Normal error
  | UserErrorInterceptor id => errorInterceptor w id error
  end.

Fixpoint applyErrorInterceptors_from (w : World) (interceptors : list ErrorInterceptor)
    (interceptedError : Thrown) : M Thrown :=
  match interceptors with
  | [] => ret interceptedError
  | interceptor :: rest =>
      run emit (EvErrorInterceptor interceptor);
      do next <- lift (call_error_interceptor w interceptor interceptedError);
      applyErrorInterceptors_from w rest next
  end.

(** [EvErrorChain] marks one application of the chain, also of an empty one. *)
Definition applyErrorInterceptors (w : World) (c : t) (error : Thrown) : M Thrown :=
  run emit (EvErrorChain error);
  applyErrorInterceptors_from w (errorInterceptors c) error.

(** The request [new Request(url, { ...requestOptions, body })] makes when
    it makes one. *)
Definition new_Request (u : string) (mergedOptions : RequestOptions) : Request :=
  {| url := u;
     req_method := read (method mergedOptions);
     init_headers := spread_headers (headers mergedOptions);
     req_body := read (body mergedOptions);
     signal := None |}.

(** The platform reads the names GET and HEAD without case; a missing
    method is GET. *)
Definition upper_ascii (a : ascii) : ascii :=
  let n := nat_of_ascii a in
  if Nat.leb 97 n && Nat.leb n 122 then ascii_of_nat (n - 32) else a.

Fixpoint upper (s : string) : string :=
  match s with
  | EmptyString => EmptyString
  | String a rest => String (upper_ascii a) (upper rest)
  end.

Definition is_GET_or_HEAD (method : option string) : bool :=
  match method with
  | None => true
  | Some m => String.eqb (upper m) "GET" || String.eqb (upper m) "HEAD"
  end.

Definition body_on_GET_or_HEAD (mergedOptions : RequestOptions) : bool :=
  present (read (body mergedOptions)) && is_GET_or_HEAD (read (method mergedOptions)).

(** [new Request(url, { ...requestOptions, body })], which throws a
    [TypeError] for what the platform refuses and for a body on GET or
    HEAD. *)
Definition construct_Request (w : World) (u : string) (mergedOptions : RequestOptions)
  : Completion Request :=
  let request := new_Request u mergedOptions in
  match Request_refused w request with
  | Some message => Throw (TypeError message)
  | None =>
      if body_on_GET_or_HEAD mergedOptions
      then Throw (TypeError (body_refused w))
      else Normal request
  end.

(** The per-host spacing of GET requests: [new URL(url).hostname] throws for
    a string that is no URL; the waiting itself leaves nothing behind. *)
Definition throttle (w : World) (u : string) (mergedOptions : RequestOptions)
  : Completion unit :=
  match read (method mergedOptions) with
  | Some m =>
      if String.eqb m "GET"
      then match URL_refused w u with
           | Some message => Throw (TypeError message)
           | None => Normal tt
           end
      else Normal tt
  | None => Normal tt
  end.

(** The best-effort error body of a rejected status. *)
Definition errorData_of (w : World) (response : Response) : Value :=
  match content_type response with
  | Some contentType =>
      if truthy_string contentType && includes contentType "application/json"
      then match JSON_parse w (response_body response) with
           | Normal v => v
           | Throw _ => VStr (statusText response)
           end
      else VStr (response_body response)
  | None => VStr (response_body response)
  end.

(** The [switch (responseType)] with its inner [try]/[catch] around
    [JSON.parse]. *)
Definition read_body (w : World) (responseType : ResponseType) (response : Response)
  : M Value :=
  match responseType with
  | text => ret (VStr (response_body response))
  | blob => ret (VBinary (response_body response))
  | arrayBuffer => ret (VBinary (response_body response))
  | formData => lift (read_formData w (response_body response))
  | json =>
      let text := response_body response in
      try_catch
        (if truthy_string text then lift (JSON_parse w text) else ret VNull)
        (fun parseError =>
           throw (ApiError ("Failed to parse JSON response: "
                            +:+ message_or_String parseError)
                           (Some (status response)) (VStr text)))
  end.

(** The outer [try]/[catch] around the [switch]. *)
Definition process_response (w : World) (mergedOptions : RequestOptions)
    (response : Response) : M Value :=
  let responseType := default json (read (responseType mergedOptions)) in
  try_catch
    (read_body w responseType response)
    (fun processingError =>
       throw (ApiError ("Failed to process response: "
                        +:+ message_or_String processingError)
                       (Some (status response)) VUndefined)).

Definition tracks_progress (mergedOptions : RequestOptions) : bool :=
  present (read (onUploadProgress mergedOptions))
  || present (read (onDownloadProgress mergedOptions)).

Definition takes_xhr_path (mergedOptions : RequestOptions) : bool :=
  truthy_flag (read (useXMLHttpRequest mergedOptions)) && tracks_progress mergedOptions.

(** The HTTP status failure thrown when the status is rejected. *)
Definition status_failure (code : Z) (errorData : Value) : Thrown :=
  ApiError ("Request failed with status " +:+ String_of code) (Some code) errorData.

Definition check_status (w : World) (c : t) (mergedOptions : RequestOptions)
    (response : Response) : M unit :=
  let validateStatus :=
    match read (validateStatus mergedOptions) with
    | Some v => Some v
    | None => read (validateStatus (defaultOptions c))
    end in
  match validateStatus with
  | Some valid =>
      if negb (valid (status response))
      then throw (status_failure (status response) (errorData_of w response))
      else ret tt
  | None => ret tt
  end.

(** The [try] block of [request] after the branch to [requestWithXHR]. *)
Definition over_fetch (w : World) (c : t) (u : string) (mergedOptions : RequestOptions)
    (cancelToken : option CancelToken.t) : M ApiResponse :=
  do request <- lift (construct_Request w u mergedOptions);
  do request <- applyRequestInterceptors w c request;
  do request <- match cancelToken with
                | Some _ => run emit EvRegisterAbort;
                            ret (with_signal CancelSignal request)
                | None => ret request
                end;
  run lift (throttle w u mergedOptions);
  do response <- (if tracks_progress mergedOptions
                  then fetchWithProgressTracking w request mergedOptions
                  else fetchWithTimeout w request (read (timeout mergedOptions)));
  do response <- applyResponseInterceptors w c response;
  run check_status w c mergedOptions response;
  do responseData <- process_response w mergedOptions response;
  ret (None, responseData).

(** The [try] block of [request]. *)
Definition attempt (w : World) (c : t) (u : string) (mergedOptions : RequestOptions)
  : M ApiResponse :=
  let cancelToken := read (cancelToken mergedOptions) in
  run (match cancelToken with
       | Some tok => lift (CancelToken.throwIfRequested tok)
       | None => ret tt
       end);
  if takes_xhr_path mergedOptions then requestWithXHR w u mergedOptions
  else over_fetch w c u mergedOptions cancelToken.

(** [Math.pow(2, e)] on an integer exponent and the adjusted delay. *)
Definition adjustedDelay_of (delay : Z) (defaultRetries retriesLeft : nat) : Q :=
  (inject_Z delay * Qpower 2 (Z.of_nat defaultRetries - Z.of_nat retriesLeft))%Q.

Definition retryRequest (request : string -> RequestOptions -> M ApiResponse)
    (c : t) (endpoint : string) (options : RequestOptions) (retriesLeft : nat)
  : M ApiResponse :=
  let delay :=
    or_number (read (retryDelay options))
              (or_number (read (retryDelay (defaultOptions c))) 1000) in
  let adjustedDelay :=
    adjustedDelay_of delay (or_count (read (retries (defaultOptions c))) 0) retriesLeft in
  run emit (EvSleep adjustedDelay);
  let newOptions := with_retries (Has (retriesLeft - 1)%nat) options in
  request endpoint newOptions.

(** [request], with a bound on the depth of the recursion through
    [retryRequest]. *)
Fixpoint request (bound : nat) (w : World) (c : t) (endpoint : string)
    (options : RequestOptions) : M ApiResponse :=
  match bound with
  | O => cut_short
  | S bound' =>
      let mergedOptions := mergeOptions c options in
      let u :=
        buildUrlWithParams w
          (resolveUrl endpoint
             (or_string (read (Options.baseUrl mergedOptions)) (baseUrl c)))
          (read (params mergedOptions))
          (read (paramsSerializer mergedOptions)) in
      let retries := or_count (read (retries mergedOptions)) 0 in
      run emit EvAttempt;
      try_catch
        (attempt w c u mergedOptions)
        (fun error =>
           if (0 <? retries)%nat
              && shouldRetry error (read (retryStatusCodes mergedOptions))
           then retryRequest (request bound' w c) c endpoint options retries
           else
             do processedError <- applyErrorInterceptors w c (as_Error error);
             ret (Some processedError, VNull))
  end.

(** The budget a call starts with, which bounds the recursion. *)
Definition budget (c : t) (options : RequestOptions) : nat :=
  or_count (read (retries (mergeOptions c options))) 0.

Definition pipeline (w : World) (c : t) (endpoint : string) (options : RequestOptions)
  : M ApiResponse :=
  request (S (budget c options)) w c endpoint options.

(** The object literals the public operations hand to [request]. *)
Definition get_options (options : RequestOptions) : RequestOptions :=
  spreadOptions (with_method (Has "GET") Options.empty) options.

Definition serialized (w : World) (data : Value) : OwnProp Body :=
  match data with
  | VUndefined => Undef
  | _ => Has (BodyText (JSON_stringify w data))
  end.

Definition post_options (w : World) (data : Value) (options : RequestOptions)
  : RequestOptions :=
  spreadOptions (with_body (serialized w data) (with_method (Has "POST") Options.empty))
                options.

Definition put_options (w : World) (data : Value) (options : RequestOptions)
  : RequestOptions :=
  spreadOptions (with_body (serialized w data) (with_method (Has "PUT") Options.empty))
                options.

Definition patch_options (w : World) (data : Value) (options : RequestOptions)
  : RequestOptions :=
  spreadOptions (with_body (serialized w data) (with_method (Has "PATCH") Options.empty))
                options.

Definition delete_options (options : RequestOptions) : RequestOptions :=
  spreadOptions (with_method (Has "DELETE") Options.empty) options.

Definition head_options (options : RequestOptions) : RequestOptions :=
  spreadOptions (with_method (Has "HEAD") Options.empty) options.

Definition options_options (options : RequestOptions) : RequestOptions :=
  spreadOptions (with_method (Has "OPTIONS") Options.empty) options.

Definition postForm_options (formData : list (string * string))
    (options : RequestOptions) : RequestOptions :=
  let formOptions :=
    with_headers (Has (base.delete "Content-Type" (spread_headers (headers options))))
                 options in
  spreadOptions
    (with_body (Has (BodyForm formData)) (with_method (Has "POST") Options.empty))
    formOptions.

Definition postUrlEncoded_options (w : World) (data : list (string * string))
    (options : RequestOptions) : RequestOptions :=
  spreadOptions
    (with_body (Has (BodyText (URLSearchParams_toString w data)))
       (with_headers
          (Has (spread_headers (headers options)
                ∪ {[ "Content-Type" := "application/x-www-form-urlencoded" ]}))
          (with_method (Has "POST") Options.empty)))
    options.

Definition get (w : World) (c : t) (endpoint : string) (options : RequestOptions)
  : M ApiResponse :=
  pipeline w c endpoint (get_options options).

Definition post (w : World) (c : t) (endpoint : string) (data : Value)
    (options : RequestOptions) : M ApiResponse :=
  pipeline w c endpoint (post_options w data options).

Definition put (w : World) (c : t) (endpoint : string) (data : Value)
    (options : RequestOptions) : M ApiResponse :=
  pipeline w c endpoint (put_options w data options).

Definition patch (w : World) (c : t) (endpoint : string) (data : Value)
    (options : RequestOptions) : M ApiResponse :=
  pipeline w c endpoint (patch_options w data options).

Definition delete (w : World) (c : t) (endpoint : string) (options : RequestOptions)
  : M ApiResponse :=
  pipeline w c endpoint (delete_options options).

Definition head (w : World) (c : t) (endpoint : string) (options : RequestOptions)
  : M ApiResponse :=
  pipeline w c endpoint (head_options options).

Definition options (w : World) (c : t) (endpoint : string) (opts : RequestOptions)
  : M ApiResponse :=
  pipeline w c endpoint (options_options opts).

Definition postForm (w : World) (c : t) (endpoint : string)
    (formData : list (string * string)) (options : RequestOptions) : M ApiResponse :=
  pipeline w c endpoint (postForm_options formData options).

Definition postUrlEncoded (w : World) (c : t) (endpoint : string)
    (data : list (string * string)) (options : RequestOptions) : M ApiResponse :=
  pipeline w c endpoint (postUrlEncoded_options w data options).

(** *** [all] *)

(** [err?.message]: [None] is [undefined]. *)
Definition message_of (e : Thrown) : option string :=
  match e with Raw _ => None | _ => Some (message_or_String e) end.

(** [results.filter(([error]) => error !== null).map(([error]) => error)] *)
Definition errors_of (results : list ApiResponse) : list Thrown :=
  omap fst results.

Definition combinedMessage (errors : list Thrown) : string :=
  String.concat "; "
    (imap (fun index err =>
             "Request " +:+ String_of (Z.of_nat index) +:+ ": "
             +:+ or_string (message_of err) "Unknown error")
          errors).

(** What [all] does with the settled results. *)
Definition collect (results : list ApiResponse) : ApiResponse :=
  match errors_of results with
  | [] => (None, VArr (map snd results))
  | [error] => (Some error, VNull)
  | errors =>
      (Some (ApiError ("Multiple requests failed: " +:+ combinedMessage errors)
                      None VUndefined), VNull)
  end.

(** Every invocation runs to its end; a rejection becomes a tuple.  The
    invocations are run one after the other, which is one of the orders
    [Promise.all] admits. *)
Fixpoint settle_each (requests : list (M ApiResponse)) : M (list ApiResponse) :=
  match requests with
  | [] => ret []
  | request :: rest =>
      do result <- try_catch request (fun error => ret (Some (as_Error error), VNull));
      do results <- settle_each rest;
      ret (result :: results)
  end.

Definition all (requests : list (M ApiResponse)) : M ApiResponse :=
  try_catch
    (do results <- settle_each requests; ret (collect results))
    (fun error => ret (Some (as_Error error), VNull)).

(** An element of [requests] in general: a function that returns a promise
    when it is called, or one that throws. *)
Inductive Invocation :=
| ReturnsPromise (promise : M ApiResponse)
| ThrowsWhenCalled (error : Thrown).

(** [requests.map(request => request().catch(...))] calls the functions in
    order; a throw of one ends the map, so that the functions after it are
    never called: the promises made, and what was thrown. *)
Fixpoint call_each (requests : list Invocation)
  : list (M ApiResponse) * option Thrown :=
  match requests with
  | [] => ([], None)
  | ReturnsPromise promise :: rest =>
      (promise :: fst (call_each rest), snd (call_each rest))
  | ThrowsWhenCalled error :: _ => ([], Some error)
  end.

(** [all] on such functions.  When the map throws, the promises made
    before run on, and their results are dropped. *)
Definition all_of (requests : list Invocation) : M ApiResponse :=
  try_catch
    (match call_each requests with
     | (promises, Some error) => run settle_each promises; throw error
     | (promises, None) => do results <- settle_each promises; ret (collect results)
     end)
    (fun error => ret (Some (as_Error error), VNull)).

(** *** The public operations as one family *)

Inductive Operation :=
| Get (endpoint : string) (options : RequestOptions)
| Post (endpoint : string) (data : Value) (options : RequestOptions)
| Put (endpoint : string) (data : Value) (options : RequestOptions)
| Patch (endpoint : string) (data : Value) (options : RequestOptions)
| Delete (endpoint : string) (options : RequestOptions)
| Head (endpoint : string) (options : RequestOptions)
| OptionsOf (endpoint : string) (options : RequestOptions)
| PostForm (endpoint : string) (form : list (string * string))
           (options : RequestOptions)
| PostUrlEncoded (endpoint : string) (data : list (string * string))
                 (options : RequestOptions).

Definition perform (w : World) (c : t) (op : Operation) : M ApiResponse :=
  match op with
  | Get endpoint o => get w c endpoint o
  | Post endpoint data o => post w c endpoint data o
  | Put endpoint data o => put w c endpoint data o
  | Patch endpoint data o => patch w c endpoint data o
  | Delete endpoint o => delete w c endpoint o
  | Head endpoint o => head w c endpoint o
  | OptionsOf endpoint o => options w c endpoint o
  | PostForm endpoint form o => postForm w c endpoint form o
  | PostUrlEncoded endpoint data o => postUrlEncoded w c endpoint data o
  end.

(** *** Shapes of outcomes and traces *)

(** The two slots of a tuple are not both populated. *)
Definition not_both (r : ApiResponse) : Prop := fst r = None \/ snd r = VNull.

(** Exactly one slot of a tuple is populated. *)
Definition exactly_one (r : ApiResponse) : Prop :=
  (fst r <> None /\ snd r = VNull) \/ (fst r = None /\ snd r <> VNull).

Definition succeeded (r : Completion ApiResponse) : Prop :=
  exists data, r = Normal (None, data).

(** The error chain was applied once, and only its interceptors ran after
    that. *)
Definition chain_applied_once_at_end (tr : list Event) : Prop :=
  exists pre e post,
    tr = pre ++ EvErrorChain e :: post
    /\ never is_chain pre
    /\ Forall (fun ev => is_interceptor_call ev = true) post.

(** When and how often the error chain is applied in a run. *)
Definition chain_discipline (tr : list Event) (r : Completion ApiResponse) : Prop :=
  if existsb is_xhr tr then never is_chain tr
  else (succeeded r -> never is_chain tr)
       /\ (~ succeeded r -> chain_applied_once_at_end tr).

(** Events of a stage that neither applies the error chain nor reaches the
    XMLHttpRequest transport, nor starts or delays an attempt. *)
Definition stage_event (ev : Event) : Prop :=
  is_chain ev = false /\ is_xhr ev = false /\ is_sleep ev = false
  /\ is_attempt ev = false.

(** *** Names for the values [request] computes from its arguments *)

Definition url_of (w : World) (c : t) (endpoint : string) (options : RequestOptions)
  : string :=
  let mergedOptions := mergeOptions c options in
  buildUrlWithParams w
    (resolveUrl endpoint (or_string (read (Options.baseUrl mergedOptions)) (baseUrl c)))
    (read (params mergedOptions))
    (read (paramsSerializer mergedOptions)).

(** The condition of the [if] in the [catch] clause. *)
Definition retried (c : t) (options : RequestOptions) (error : Thrown) : bool :=
  (0 <? budget c options)%nat
  && shouldRetry error (read (retryStatusCodes (mergeOptions c options))).

(** The delay [retryRequest] sleeps for. *)
Definition delay_of (c : t) (options : RequestOptions) : Q :=
  adjustedDelay_of
    (or_number (read (retryDelay options))
               (or_number (read (retryDelay (defaultOptions c))) 1000))
    (or_count (read (retries (defaultOptions c))) 0)
    (budget c options).

(** The completion of [request] after the error chain has run. *)
Definition as_outcome (r : Completion Thrown) : Completion ApiResponse :=
  match r with
  | Normal processedError => Normal (Some processedError, VNull)
  | Throw e => Throw e
  end.

(** Every transport dispatch of a trace is made with a request satisfying
    [P], or with an XMLHttpRequest method satisfying [X]. *)
Definition dispatches_satisfy (P : Request -> Prop) (X : string -> Prop) (ev : Event)
  : Prop :=
  match ev with
  | EvFetch r => P r
  | EvXhrSend _ m _ => X m
  | _ => True
  end.

(** The status codes 400 to 499. *)
Definition client_error_codes : list Z :=
  map (fun k => (400 + Z.of_nat k)%Z) (seq 0 100).

End ApiClient.

(** ** The interceptor arrays as shared objects *)

Module Chain.

(** [push] changes the array object the client's field holds; the removal
    closure and [clearInterceptors] make the field hold a new array.  A
    [for ... of] loop keeps the array object it started on and the index of
    its next element. *)
Inductive Loop :=
| Iterating (array next : nat)
| Finished.

Record t := {
  arrays : list (list nat);
  field : nat;
  loops : list Loop;
  invoked : list (nat * nat)
}.

Definition new : t :=
  {| arrays := [[]]; field := 0%nat; loops := []; invoked := [] |}.

Definition current (s : t) : list nat := default [] (arrays s !! field s).

(** [this.interceptors.push(interceptor)] *)
Definition add (interceptor : nat) (s : t) : t :=
  {| arrays := alter (fun a => a ++ [interceptor]) (field s) (arrays s);
     field := field s; loops := loops s; invoked := invoked s |}.

(** [this.interceptors = this.interceptors.filter(i => i !== interceptor)] *)
Definition remove (interceptor : nat) (s : t) : t :=
  {| arrays := arrays s ++ [filter (fun i => i ≠ interceptor) (current s)];
     field := length (arrays s); loops := loops s; invoked := invoked s |}.

(** [this.interceptors = []] *)
Definition clear (s : t) : t :=
  {| arrays := arrays s ++ [[]];
     field := length (arrays s); loops := loops s; invoked := invoked s |}.

(** A request reaches the chain: [for (const interceptor of this.interceptors)]
    starts on the array the field holds now. *)
Definition enter (s : t) : t :=
  {| arrays := arrays s; field := field s;
     loops := loops s ++ [Iterating (field s) 0];
     invoked := invoked s |}.

(** One turn of loop [k]: the next element of its array, if any, is invoked
    (and awaited). *)
Definition turn (k : nat) (s : t) : t :=
  match loops s !! k with
  | Some (Iterating a next) =>
      match default [] (arrays s !! a) !! next with
      | Some interceptor =>
          {| arrays := arrays s; field := field s;
             loops := <[k := Iterating a (S next)]> (loops s);
             invoked := invoked s ++ [(k, interceptor)] |}
      | None =>
          {| arrays := arrays s; field := field s;
             loops := <[k := Finished]> (loops s);
             invoked := invoked s |}
      end
  | _ => s
  end.

Inductive Action :=
| Add (interceptor : nat)
| Remove (interceptor : nat)
| Clear
| Enter
| Turn (k : nat).

Definition act (a : Action) (s : t) : t :=
  match a with
  | Add i => add i s
  | Remove i => remove i s
  | Clear => clear s
  | Enter => enter s
  | Turn k => turn k s
  end.

Definition acts (l : list Action) (s : t) : t := fold_left (fun s a => act a s) l s.

Definition is_Add (interceptor : nat) (a : Action) : bool :=
  match a with Add i => Nat.eqb i interceptor | _ => false end.

(** The list a single caller sees after the same registrations. *)
Definition registered (l : list Action) (interceptors : list nat) : list nat :=
  fold_left
    (fun xs a =>
       match a with
       | Add i => xs ++ [i]
       | Remove i => filter (fun j => j ≠ i) xs
       | Clear => []
       | Enter | Turn _ => xs
       end)
    l interceptors.

(** The state of the arrays once [interceptor] has been removed, [clean]
    being the address of the array the removal made and [old] the number of
    loops begun before it: every array made since lacks the interceptor,
    the field holds such an array, and every loop begun since runs on such
    an array. *)
Definition purged (interceptor clean old : nat) (s : t) : Prop :=
  (clean <= field s < length (arrays s))%nat
  /\ (forall a arr, (clean <= a)%nat -> arrays s !! a = Some arr -> interceptor ∉ arr)
  /\ (forall k a next, (old <= k)%nat ->
        loops s !! k = Some (Iterating a next) -> (clean <= a)%nat).

End Chain.

(** ** Concrete platforms and calls, used to run the pipeline *)

Module Scenario.

(** A parser for a handful of JSON texts; anything else is a syntax error. *)
Definition parse_some_json (text : string) : Completion Value :=
  if String.eqb text "null" then Normal VNull
  else if String.eqb text "true" then Normal (VBool true)
  else if String.eqb text "{}" then Normal (VObj [])
  else if String.eqb text "[]" then Normal (VArr [])
  else Throw (SyntaxError "Unexpected token in JSON").

Definition ok (body : string) : Completion Response :=
  Normal {| status := 200; statusText := "OK"; content_type := Some "application/json";
            response_body := body |}.

Definition failed (code : Z) : Completion Response :=
  Normal {| status := code; statusText := "Error"; content_type := Some "text/plain";
            response_body := "nope" |}.

Definition unreachable : Completion Response := Throw (TypeError "Failed to fetch").

(** The strings the platform of the scenarios takes for a URL. *)
Definition absolute (u : string) : bool :=
  startsWith u "http://" || startsWith u "https://".

Definition refused (u : string) : option string :=
  if absolute u then None else Some "Invalid URL".

(** The transport answers its k-th dispatch with the k-th entry of the
    script, and with a network failure after that; a string is a URL when
    it starts with a scheme; interceptors return what they are given. *)
Definition scripted (script : list (Completion Response)) (x : XhrOutcome) : World :=
  {| fetch := fun k _ => default unreachable (script !! k);
     xhr := fun _ _ _ => x;
     Request_refused := fun r => refused (url r);
     body_refused := "Request with GET/HEAD method cannot have body";
     URL_refused := refused;
     requestInterceptor := fun _ r => Normal r;
     responseInterceptor := fun _ r => Normal r;
     errorInterceptor := fun _ e => Normal e;
     JSON_parse := parse_some_json;
     JSON_stringify := fun _ => "{}";
     read_formData := fun _ => Normal (VForm []);
     appendParams := fun u _ _ => u;
     URLSearchParams_toString := fun _ => "" |}.

Definition client : ApiClient.t := ApiClient.new "https://api.example.com" Options.empty.

Definition with_budget (n : nat) (delay : Z) : RequestOptions :=
  {| method := Missing; body := Missing; headers := Missing; Options.baseUrl := Missing;
     timeout := Missing; retries := Has n; retryDelay := Has delay;
     retryStatusCodes := Missing; params := Missing; paramsSerializer := Missing;
     responseType := Missing; validateStatus := Missing; cancelToken := Missing;
     useXMLHttpRequest := Missing; onUploadProgress := Missing;
     onDownloadProgress := Missing; withCredentials := Missing |}.

Definition with_token (tok : CancelToken.t) (o : RequestOptions) : RequestOptions :=
  {| method := method o; body := body o; headers := headers o;
     Options.baseUrl := Options.baseUrl o;
     timeout := timeout o; retries := retries o; retryDelay := retryDelay o;
     retryStatusCodes := retryStatusCodes o; params := params o;
     paramsSerializer := paramsSerializer o; responseType := responseType o;
     validateStatus := validateStatus o; cancelToken := Has tok;
     useXMLHttpRequest := useXMLHttpRequest o; onUploadProgress := onUploadProgress o;
     onDownloadProgress := onDownloadProgress o; withCredentials := withCredentials o |}.

Definition over_xhr (o : RequestOptions) : RequestOptions :=
  {| method := method o; body := body o; headers := headers o;
     Options.baseUrl := Options.baseUrl o;
     timeout := timeout o; retries := retries o; retryDelay := retryDelay o;
     retryStatusCodes := retryStatusCodes o; params := params o;
     paramsSerializer := paramsSerializer o; responseType := responseType o;
     validateStatus := validateStatus o; cancelToken := cancelToken o;
     useXMLHttpRequest := Has true; onUploadProgress := onUploadProgress o;
     onDownloadProgress := Has 0%nat; withCredentials := withCredentials o |}.

End Scenario.

(** ** src/client/ApiClient.ts: default headers, derived clients and the
       registration calls of one caller *)

Module Configuration.

Import ApiClient.

Definition with_defaultOptions (d : RequestOptions) (c : t) : t :=
  {| baseUrl := baseUrl c; defaultOptions := d;
     requestInterceptors := requestInterceptors c;
     responseInterceptors := responseInterceptors c;
     errorInterceptors := errorInterceptors c |}.

(** [setHeaders(headers)] *)
Definition setHeaders (hs : gmap string string) (c : t) : t :=
  with_defaultOptions
    (with_headers (Has (hs ∪ spread_headers (headers (defaultOptions c))))
                  (defaultOptions c))
    c.

(** [setHeader(name, value)]: a missing headers object is made first. *)
Definition setHeader (name value : string) (c : t) : t :=
  with_defaultOptions
    (with_headers (Has (<[name := value]> (spread_headers (headers (defaultOptions c)))))
                  (defaultOptions c))
    c.

(** The argument of [create]: both members are optional. *)
Record Config := {
  config_baseUrl : option string;
  config_options : option RequestOptions
}.

(** [create(config)] *)
Definition create (config : Config) (c : t) : t :=
  new (or_string (config_baseUrl config) (baseUrl c))
      (spreadOptions (defaultOptions c) (default Options.empty (config_options config))).

(** The registration calls a caller can make: the three [add...] methods,
    the removal closures they return, and [clearInterceptors]. *)
Inductive Registration :=
| AddRequest (interceptor : nat)
| RemoveRequest (interceptor : nat)
| AddResponse (interceptor : nat)
| RemoveResponse (interceptor : nat)
| AddError (interceptor : nat)
| RemoveError (interceptor : nat)
| ClearInterceptors.

Definition registration (r : Registration) (c : t) : t :=
  match r with
  | AddRequest i => addRequestInterceptor i c
  | RemoveRequest i => removeRequestInterceptor i c
  | AddResponse i => addResponseInterceptor i c
  | RemoveResponse i => removeResponseInterceptor i c
  | AddError i => addErrorInterceptor i c
  | RemoveError i => removeErrorInterceptor i c
  | ClearInterceptors => clearInterceptors c
  end.

Definition registrations (l : list Registration) (c : t) : t :=
  fold_left (fun c r => registration r c) l c.

Definition is_clear (r : Registration) : bool :=
  match r with ClearInterceptors => true | _ => false end.

(** The method an operation writes before it spreads its options, the
    options it was given, and the object literal it hands to [request]. *)
Definition verb_of (op : Operation) : string :=
  match op with
  | Get _ _ => "GET"
  | Post _ _ _ | PostForm _ _ _ | PostUrlEncoded _ _ _ => "POST"
  | Put _ _ _ => "PUT"
  | Patch _ _ _ => "PATCH"
  | Delete _ _ => "DELETE"
  | Head _ _ => "HEAD"
  | OptionsOf _ _ => "OPTIONS"
  end.

Definition options_of (op : Operation) : RequestOptions :=
  match op with
  | Get _ o | Delete _ o | Head _ o | OptionsOf _ o => o
  | Post _ _ o | Put _ _ o | Patch _ _ o => o
  | PostForm _ _ o | PostUrlEncoded _ _ o => o
  end.

Definition endpoint_of (op : Operation) : string :=
  match op with
  | Get e _ | Delete e _ | Head e _ | OptionsOf e _ => e
  | Post e _ _ | Put e _ _ | Patch e _ _ => e
  | PostForm e _ _ | PostUrlEncoded e _ _ => e
  end.


Definition handed (w : World) (op : Operation) : RequestOptions :=
  match op with
  | Get _ o => get_options o
  | Post _ data o => post_options w data o
  | Put _ data o => put_options w data o
  | Patch _ data o => patch_options w data o
  | Delete _ o => delete_options o
  | Head _ o => head_options o
  | OptionsOf _ o => options_options o
  | PostForm _ form o => postForm_options form o
  | PostUrlEncoded _ data o => postUrlEncoded_options w data o
  end.

End Configuration.

(** ** src/client/ApiClient.ts: [downloadFile] *)

Module Download.

Import ApiClient.

(** [link.click()] on a link whose [href] was made from the blob and whose
    [download] attribute is the file name.  The calls on [window] and
    [document] are taken to succeed; what they do is returned beside the
    tuple. *)
Inductive DomAction :=
| Click (blob : Value) (download : string).

(** Truthiness of a value, as [!blob] tests it. *)
Definition truthy_value (v : Value) : bool :=
  match v with
  | VUndefined | VNull => false
  | VBool b => b
  | VNum n => truthy_number n
  | VStr s => truthy_string s
  | VArr _ | VObj _ | VBinary _ | VForm _ => true
  end.

(** [{ method: 'GET', responseType: 'blob', ...options }] *)
Definition download_options (options : RequestOptions) : RequestOptions :=
  spreadOptions
    {| method := Has "GET"; body := Missing; headers := Missing;
       Options.baseUrl := Missing; timeout := Missing; retries := Missing;
       retryDelay := Missing; retryStatusCodes := Missing; params := Missing;
       paramsSerializer := Missing; responseType := Has blob;
       validateStatus := Missing; cancelToken := Missing;
       useXMLHttpRequest := Missing; onUploadProgress := Missing;
       onDownloadProgress := Missing; withCredentials := Missing |}
    options.

Definition downloadFile (w : World) (c : t) (endpoint : string)
    (filename : option string) (options : RequestOptions)
  : M (ApiResponse * list DomAction) :=
  try_catch
    (do result <- pipeline w c endpoint (download_options options);
     let error := fst result in
     let blob := snd result in
     if present error || negb (truthy_value blob)
     then ret ((Some (default (Error_ "Download failed") error), VNull), [])
     else ret ((None, VNull), [Click blob (or_string filename "download")]))
    (fun error => ret ((Some (as_Error error), VNull), [])).

End Download.

(** ** src/client/ApiClient.ts: the headers object of the default options

    [defaultOptions.headers] is an object: the constructor and [create]
    copy the reference to it, [setHeader] writes through the reference and
    [setHeaders] assigns a new object. *)

Module SharedHeaders.

Import ApiClient.

(** A client whose [defaultOptions.headers] is a reference into the list
    of the header objects, by address; the [headers] member of [state] is
    not read. *)
Record Client := {
  state : ApiClient.t;
  headers_ref : OwnProp nat
}.

Definition headers_at (h : list (gmap string string)) (r : OwnProp nat)
  : OwnProp (gmap string string) :=
  match r with
  | Missing => Missing
  | Undef => Undef
  | Has a => Has (default ∅ (h !! a))
  end.

(** The client with its header object read from the heap. *)
Definition client_at (h : list (gmap string string)) (sc : Client) : ApiClient.t :=
  Configuration.with_defaultOptions
    (with_headers (headers_at h (headers_ref sc)) (defaultOptions (state sc)))
    (state sc).

(** [new ApiClient(baseUrl, defaultOptions)]: the object literal makes a
    new header object, which a [headers] member of the argument replaces. *)
Definition construct (baseUrl : string) (d : RequestOptions) (d_headers : OwnProp nat)
    (h : list (gmap string string)) : Client * list (gmap string string) :=
  ({| state := new baseUrl d; headers_ref := spread (Has (length h)) d_headers |},
   h ++ [{[ "Content-Type" := "application/json" ]}]).

(** [create(config)]; [config_headers] is the [headers] member of
    [config.options]. *)
Definition create (config_baseUrl : option string) (config_options : option RequestOptions)
    (config_headers : OwnProp nat) (sc : Client) (h : list (gmap string string))
  : Client * list (gmap string string) :=
  construct (or_string config_baseUrl (baseUrl (state sc)))
            (spreadOptions (defaultOptions (state sc))
                           (default Options.empty config_options))
            (spread (headers_ref sc) config_headers)
            h.

(** [setHeader(name, value)] *)
Definition setHeader (name value : string) (sc : Client)
    (h : list (gmap string string)) : Client * list (gmap string string) :=
  match read (headers_ref sc) with
  | Some a => (sc, alter (insert name value) a h)
  | None =>
      ({| state := state sc; headers_ref := Has (length h) |},
       h ++ [<[name := value]> ∅])
  end.

(** [setHeaders(headers)] *)
Definition setHeaders (hs : gmap string string) (sc : Client)
    (h : list (gmap string string)) : Client * list (gmap string string) :=
  ({| state := state sc; headers_ref := Has (length h) |},
   h ++ [hs ∪ spread_headers (headers_at h (headers_ref sc))]).

End SharedHeaders.

(** ** Readings of histories and traces used below *)

Module Readings.

(** The callbacks registered in a history of calls on a token, in order. *)
Definition registered_callbacks (cs : list CancelToken.Call) : list CancelToken.Callback :=
  omap (fun c => match c with
                 | CancelToken.Register cb => Some cb
                 | CancelToken.Cancel _ => None
                 end) cs.

Definition is_cancel (c : CancelToken.Call) : bool :=
  match c with CancelToken.Cancel _ => true | CancelToken.Register _ => false end.





(** What [all] makes of one settled invocation. *)
Definition settled_as (r : Completion ApiResponse) : ApiResponse :=
  match r with
  | Normal outcome => outcome
  | Throw e => (Some (as_Error e), VNull)
  end.

(** The events of the request chain for a list of interceptors. *)
Definition request_interceptor_events (l : list nat) : list Event :=
  map EvRequestInterceptor l.


(** The registration calls on the request chain among the actions of an
    interleaving; the turns of the loops are no calls of the caller. *)
Definition as_registrations (l : list Chain.Action) : list Configuration.Registration :=
  omap (fun a => match a with
                 | Chain.Add i => Some (Configuration.AddRequest i)
                 | Chain.Remove i => Some (Configuration.RemoveRequest i)
                 | Chain.Clear => Some Configuration.ClearInterceptors
                 | Chain.Enter | Chain.Turn _ => None
                 end) l.

(** What the request given to [fetch] carries as signal, by the merged
    options of the call: the timeout timer's when the timeout is set, the
    cancel token's when it is not and a token is given. *)
Definition carried (mo : RequestOptions) (rq : Request) : Prop :=
  (truthy_optnum (read (timeout mo)) = true -> signal rq = Some TimeoutSignal)
  /\ (truthy_optnum (read (timeout mo)) = false ->
      present (read (cancelToken mo)) = true -> signal rq = Some CancelSignal).

(** The events of an attempt over [fetch] that runs to its end: the
    request chain, the registration of the abort callback when there is a
    token, the transport call, the response chain. *)
Definition abort_events (tok : option CancelToken.t) : list Event :=
  if present tok then [EvRegisterAbort] else [].

Definition full_attempt (c : ApiClient.t) (mo : RequestOptions) (rq : Request)
  : list Event :=
  map EvRequestInterceptor (ApiClient.requestInterceptors c)
  ++ abort_events (read (cancelToken mo))
  ++ [EvFetch rq]
  ++ map EvResponseInterceptor (ApiClient.responseInterceptors c).

(** Every run of [m] emits a prefix of one of the sequences in [F], and
    the whole sequence when it returns. *)
Definition shaped {A} (F : list Event -> Prop) (m : M A) : Prop :=
  satisfies m (fun tr r =>
                 exists f, F f /\ tr `prefix_of` f /\ forall a, r = Normal a -> tr = f).



(** The data of a tuple without error is a decoded body: on the
    XMLHttpRequest path what [onload] decoded and accepted, else the body
    of a response whose status was accepted, as [process_response] decoded
    it. *)
Definition decoded (w : World) (c : ApiClient.t) (mo : RequestOptions) (data : Value)
  : Prop :=
  if ApiClient.takes_xhr_path mo
  then exists xhr_status responseText response,
         onload w mo xhr_status responseText response = (None, data)
  else exists response n tr1 n1 tr2 n2,
         ApiClient.check_status w c mo response n = Some (tr1, n1, Normal tt)
         /\ ApiClient.process_response w mo response n1 = Some (tr2, n2, Normal data).

(** The tuple [(null, data)] is what the [try] block of the last attempt
    of the run returned; [o'] is [o] with the retries that were left. *)
Definition returned_by_the_last_attempt (w : World) (c : ApiClient.t) (endpoint : string)
    (o : RequestOptions) (tr : list Event) (data : Value) : Prop :=
  exists pre tra o' n1 n2,
    with_retries Missing o' = with_retries Missing o
    /\ tr = pre ++ EvAttempt :: tra
    /\ ApiClient.attempt w c (ApiClient.url_of w c endpoint o')
         (ApiClient.mergeOptions c o') n1
       = Some (tra, n2, Normal (None, data)).






End Readings.

(** * Properties *)

(** ** The cancel token *)

Section CancelTokenFacts.

Import CancelToken.

Lemma truthy_reason_or_default (r : option string) :
  truthy_string (reason_or_default r) = true.
Proof.
  unfold reason_or_default.
  destruct r as [s|]; [destruct (truthy_string s) eqn:E|]; auto.
Qed.

Lemma cancel_settles (r : option string) (tok : t) : settled (fst (cancel r tok)).
Proof.
  split; [|reflexivity].
  unfold requested; simpl. apply truthy_reason_or_default.
Qed.

Lemma call_keeps_settled_cancel (r : option string) (tok : t) :
  settled (fst (call (Cancel r) tok)).
Proof. apply cancel_settles. Qed.

Lemma call_keeps_settled (c : Call) (tok : t) :
  settled tok -> settled (fst (call c tok)).
Proof.
  intros [Hr Hc]. destruct c as [r|cb].
  - apply cancel_settles.
  - simpl. unfold register. rewrite Hr. simpl. split; assumption.
Qed.

Lemma calls_keep_settled (cs : list Call) :
  forall tok, settled tok -> settled (fst (calls cs tok)).
Proof.
  induction cs as [|c cs IH]; intros tok H; simpl; [exact H|].
  destruct (call c tok) as [tok1 ns1] eqn:E1.
  specialize (IH tok1).
  destruct (calls cs tok1) as [tok2 ns2] eqn:E2. simpl in *.
  apply IH. replace tok1 with (fst (call c tok)) by (rewrite E1; reflexivity).
  apply call_keeps_settled, H.
Qed.

Lemma calls_app (cs1 cs2 : list Call) :
  forall tok,
    calls (cs1 ++ cs2) tok =
    (fst (calls cs2 (fst (calls cs1 tok))),
     snd (calls cs1 tok) ++ snd (calls cs2 (fst (calls cs1 tok)))).
Proof.
  induction cs1 as [|c cs1 IH]; intros tok; simpl.
  - destruct (calls cs2 tok); reflexivity.
  - destruct (call c tok) as [tok1 ns1].
    rewrite IH.
    destruct (calls cs1 tok1) as [tok2 ns2]; simpl.
    rewrite app_assoc. reflexivity.
Qed.

Lemma calls_cons_fst (c : Call) (cs : list Call) (tok : t) :
  fst (calls (c :: cs) tok) = fst (calls cs (fst (call c tok))).
Proof.
  simpl. destruct (call c tok) as [tok1 ns1]; simpl.
  destruct (calls cs tok1); reflexivity.
Qed.

Lemma settled_after_a_cancel (before after : list Call) (r : option string) (tok : t) :
  settled (fst (calls (before ++ Cancel r :: after) tok)).
Proof.
  rewrite calls_app. cbn [fst].
  rewrite calls_cons_fst.
  apply calls_keep_settled. apply (call_keeps_settled_cancel r).
Qed.

Lemma forEach_of_returning_callbacks (behaviour : Callback -> Observers.Behaviour)
    (reason : string) (cbs : list Callback) :
  Forall (fun cb => behaviour cb = Observers.Returns) cbs ->
  Observers.forEach behaviour reason cbs
  = Some (map (fun cb => (cb, Some reason)) cbs, Normal tt).
Proof.
  induction 1 as [|cb cbs Hcb _ IH]; [reflexivity|].
  simpl. rewrite Hcb, IH. reflexivity.
Qed.


(** With callbacks that return, the calls are the ones of [CancelToken]. *)
Lemma cancel_of_returning_callbacks (behaviour : Callback -> Observers.Behaviour)
    (r : option string) (tok : t) :
  Forall (fun cb => behaviour cb = Observers.Returns) (_callbacks tok) ->
  Observers.cancel behaviour r tok
  = Some {| Observers.token_after := fst (cancel r tok);
            Observers.notified := snd (cancel r tok);
            Observers.ended := Normal tt |}.
Proof.
  intros H. unfold Observers.cancel.
  rewrite (forEach_of_returning_callbacks _ _ _ H). reflexivity.
Qed.

Lemma calls_of_returning_callbacks (behaviour : Callback -> Observers.Behaviour)
    (cs : list Call) :
  forall tok,
    Forall (fun cb => behaviour cb = Observers.Returns) (_callbacks tok) ->
    Forall (fun cb => behaviour cb = Observers.Returns) (Readings.registered_callbacks cs) ->
    Observers.calls behaviour cs tok = Some (calls cs tok).
Proof.
  induction cs as [|c cs IH]; intros tok Htok Hcs; [reflexivity|].
  destruct c as [r|cb].
  - cbn [Observers.calls Observers.call calls call].
    rewrite (cancel_of_returning_callbacks _ _ _ Htok). cbn [Observers.token_after].
    rewrite IH; [|constructor|exact Hcs].
    cbn [Observers.notified cancel fst snd].
    destruct (calls cs _). reflexivity.
  - cbn [Observers.calls Observers.call calls call].
    cbn [Readings.registered_callbacks omap] in Hcs.
    apply Forall_cons in Hcs as [Hcb Hcs].
    unfold Observers.register, register.
    destruct (requested tok).
    + rewrite Hcb. cbn [Observers.token_after Observers.notified].
      rewrite IH by assumption. destruct (calls cs tok). reflexivity.
    + cbn [Observers.token_after Observers.notified].
      rewrite IH; [destruct (calls cs _); reflexivity| |exact Hcs].
      cbn [_callbacks]. apply Forall_app. split; [exact Htok|]. repeat constructor.
      exact Hcb.
Qed.




End CancelTokenFacts.

(** ** Removing an interceptor while requests are in flight *)

Section ChainFacts.

Import Chain.

Lemma act_keeps_field (a : Action) (s : t) :
  (field s < length (arrays s))%nat -> (field (act a s) < length (arrays (act a s)))%nat.
Proof.
  intros H. destruct a as [i|i| | |k]; simpl;
    rewrite ?length_alter, ?length_app; simpl; try lia.
  unfold turn. destruct (loops s !! k) as [[a next|]|]; try exact H.
  destruct (default [] (arrays s !! a) !! next); exact H.
Qed.

Lemma current_act (a : Action) (s : t) :
  (field s < length (arrays s))%nat ->
  current (act a s) = registered [a] (current s).
Proof.
  intros H. unfold current.
  destruct (lookup_lt_is_Some_2 (arrays s) (field s) H) as [arr E].
  destruct a as [i|i| | |k]; simpl.
  - rewrite list_lookup_alter_eq, E. reflexivity.
  - rewrite lookup_app_r, Nat.sub_diag by lia. unfold current. rewrite E. reflexivity.
  - rewrite lookup_app_r, Nat.sub_diag by lia. reflexivity.
  - reflexivity.
  - unfold turn. destruct (loops s !! k) as [[a next|]|]; try reflexivity.
    destruct (default [] (arrays s !! a) !! next); reflexivity.
Qed.

(** The array the field holds is the list one caller would see. *)
Lemma current_acts (l : list Action) :
  forall s,
    (field s < length (arrays s))%nat ->
    current (acts l s) = registered l (current s).
Proof.
  induction l as [|a l IH]; intros s H; [reflexivity|].
  unfold acts, registered in *. simpl.
  rewrite (IH (act a s) (act_keeps_field a s H)).
  rewrite (current_act a s H). reflexivity.
Qed.

Lemma remove_purges (i : nat) (s : t) :
  purged i (length (arrays s)) (length (loops s)) (remove i s).
Proof.
  unfold purged, remove; simpl. rewrite length_app. simpl. split; [lia|]. split.
  - intros a arr Ha Hl. apply lookup_snoc_Some in Hl as [[Hlt _]|[_ <-]]; [lia|].
    rewrite list_elem_of_filter. tauto.
  - intros k a next Hk Hl. apply lookup_lt_Some in Hl. lia.
Qed.

Lemma act_keeps_purged (i clean old : nat) (a : Action) (s : t) :
  is_Add i a = false ->
  purged i clean old s ->
  purged i clean old (act a s)
  /\ exists calls, invoked (act a s) = invoked s ++ calls
       /\ forall k, (k, i) ∈ calls -> (k < old)%nat.
Proof.
  intros Hadd (Hf & Harr & Hloop).
  assert (Hcur : i ∉ current s).
  { unfold current. destruct (arrays s !! field s) as [arr|] eqn:E; simpl.
    - apply (Harr (field s)); [lia|exact E].
    - apply not_elem_of_nil. }
  destruct a as [j|j| | |k]; simpl.
  - (* add *)
    split; [|exists []; rewrite app_nil_r; split; [reflexivity|intros k Hk; inversion Hk]].
    unfold purged, add; simpl. rewrite length_alter. split; [lia|]. split; [|exact Hloop].
    intros a arr Ha Hl.
    destruct (decide (a = field s)) as [->|Hne].
    + rewrite list_lookup_alter_eq in Hl.
      destruct (arrays s !! field s) as [arr0|] eqn:E; simpl in Hl; [|discriminate].
      injection Hl as Hl; subst arr. rewrite elem_of_app, list_elem_of_singleton.
      intros [Hin | ->].
      * revert Hin. apply (Harr (field s)); [lia|exact E].
      * simpl in Hadd. rewrite Nat.eqb_refl in Hadd. discriminate.
    + rewrite list_lookup_alter_ne in Hl by congruence. eapply Harr; eauto.
  - (* remove *)
    split; [|exists []; rewrite app_nil_r; split; [reflexivity|intros k Hk; inversion Hk]].
    unfold purged, remove; simpl. rewrite length_app; simpl. split; [lia|]. split; [|exact Hloop].
    intros a arr Ha Hl. apply lookup_snoc_Some in Hl as [[_ Hl]|[_ <-]].
    + eapply Harr; eauto.
    + rewrite list_elem_of_filter. tauto.
  - (* clear *)
    split; [|exists []; rewrite app_nil_r; split; [reflexivity|intros k Hk; inversion Hk]].
    unfold purged, clear; simpl. rewrite length_app; simpl. split; [lia|]. split; [|exact Hloop].
    intros a arr Ha Hl. apply lookup_snoc_Some in Hl as [[_ Hl]|[_ <-]].
    + eapply Harr; eauto.
    + apply not_elem_of_nil.
  - (* enter *)
    split; [|exists []; rewrite app_nil_r; split; [reflexivity|intros k Hk; inversion Hk]].
    unfold purged, enter; simpl. split; [lia|]. split; [exact Harr|].
    intros k a next Hk Hl. apply lookup_snoc_Some in Hl as [[_ Hl]|[_ Hl]].
    + eapply Hloop; eauto.
    + injection Hl as Ha' _; subst a. lia.
  - (* turn *)
    unfold turn.
    destruct (loops s !! k) as [[a next|]|] eqn:Ek;
      try (split; [exact (conj Hf (conj Harr Hloop))|
                   exists []; rewrite app_nil_r; split; [reflexivity|intros k' Hk'; inversion Hk']]).
    destruct (default [] (arrays s !! a) !! next) as [x|] eqn:Ex; simpl.
    + split.
      * unfold purged; simpl. split; [lia|]. split; [exact Harr|].
        intros k' a' next' Hk' Hl.
        apply list_lookup_insert_Some in Hl as [(-> & Heq & _)|(Hne & Hl)].
        -- injection Heq as Ha' _; subst a'. eapply Hloop; eauto.
        -- eapply Hloop; eauto.
      * exists [(k, x)]. split; [reflexivity|].
        intros k' Hin. apply list_elem_of_singleton in Hin. injection Hin as Hk' Hx; subst k' x.
        destruct (Nat.lt_ge_cases k old) as [Hlt|Hge]; [exact Hlt|exfalso].
        assert (Ha : (clean <= a)%nat) by (eapply Hloop; eauto).
        destruct (arrays s !! a) as [arr|] eqn:Ea; simpl in Ex.
        -- apply (Harr a arr Ha Ea). eapply list_elem_of_lookup_2; eauto.
        -- rewrite lookup_nil in Ex. discriminate.
    + split.
      * unfold purged; simpl. split; [lia|]. split; [exact Harr|].
        intros k' a' next' Hk' Hl.
        apply list_lookup_insert_Some in Hl as [(-> & Heq & _)|(Hne & Hl)].
        -- discriminate.
        -- eapply Hloop; eauto.
      * exists []; rewrite app_nil_r; split; [reflexivity|intros k' Hk'; inversion Hk'].
Qed.

Lemma acts_keep_purged (i clean old : nat) (l : list Action) :
  forall s,
    Forall (fun a => is_Add i a = false) l ->
    purged i clean old s ->
    exists calls, invoked (acts l s) = invoked s ++ calls
      /\ forall k, (k, i) ∈ calls -> (k < old)%nat.
Proof.
  induction l as [|a l IH]; intros s Hl Hp.
  - exists []. rewrite app_nil_r. split; [reflexivity|]. intros k Hk; inversion Hk.
  - inversion Hl as [|? ? Ha Hl']; subst.
    destruct (act_keeps_purged i clean old a s Ha Hp) as (Hp' & calls1 & E1 & H1).
    destruct (IH (act a s) Hl' Hp') as (calls2 & E2 & H2).
    exists (calls1 ++ calls2). split.
    + unfold acts in *. simpl. rewrite E2, E1, app_assoc. reflexivity.
    + intros k Hk. apply elem_of_app in Hk as [Hk|Hk]; auto.
Qed.

Lemma acts_app (l1 l2 : list Action) (s : t) : acts (l1 ++ l2) s = acts l2 (acts l1 s).
Proof. unfold acts. apply fold_left_app. Qed.

(** C6: once the removal capability of an interceptor has been invoked,
    and as long as that interceptor is not registered again, whatever else
    happens to the chain (other registrations and removals, clearing,
    requests reaching the chain, loops advancing), every later call of the
    interceptor belongs to a loop that had begun before the removal: a
    chain execution that starts after the removal, also for a request that
    was already in flight, never invokes it. *)
Theorem removed_interceptor_is_not_invoked_by_later_loops
    (before after : list Action) (i : nat) :
  Forall (fun a => is_Add i a = false) after ->
  let s := acts (before ++ [Remove i]) new in
  exists calls,
    invoked (acts after s) = invoked s ++ calls
    /\ forall k, (k, i) ∈ calls -> (k < length (loops s))%nat.
Proof.
  intros Hafter s.
  apply (acts_keep_purged i (length (arrays (acts before new))) (length (loops s)));
    [exact Hafter|].
  subst s. rewrite acts_app. simpl.
  apply (remove_purges i (acts before new)).
Qed.

(** A request in flight reaches the chain after interceptor 2 was removed
    (loop 1), while another one is in the middle of the chain (loop 0). *)
Lemma removed_interceptor_witness :
  let s := acts ([Add 1; Add 2; Enter; Turn 0] ++ [Remove 2])%nat new in
  exists calls,
    invoked (acts [Enter; Turn 0; Turn 1; Add 3; Turn 1; Turn 1]%nat s)
    = invoked s ++ calls
    /\ forall k, (k, 2%nat) ∈ calls -> (k < length (loops s))%nat.
Proof.
  apply (removed_interceptor_is_not_invoked_by_later_loops
           [Add 1; Add 2; Enter; Turn 0]%nat
           [Enter; Turn 0; Turn 1; Add 3; Turn 1; Turn 1]%nat 2%nat).
  repeat constructor.
Defined.

(** In that run the loop that was in the middle of the chain still calls
    the removed interceptor; the loop begun afterwards calls 1 and then the
    newly registered 3. *)
Example loops_around_a_removal :
  invoked (acts [Add 1; Add 2; Enter; Turn 0; Remove 2;
                 Enter; Turn 0; Turn 1; Add 3; Turn 1; Turn 1]%nat new)
  = [(0, 1); (0, 2); (1, 1); (1, 3)]%nat.
Proof. reflexivity. Qed.

End ChainFacts.

(** ** Rules for runs of computations *)

Section Rules.

Context {A B : Type}.

Lemma sat_weaken (m : M A) (P Q : list Event -> Completion A -> Prop) :
  satisfies m P -> (forall tr r, P tr r -> Q tr r) -> satisfies m Q.
Proof. intros H HPQ n tr n' r E. apply HPQ, (H n tr n' r E). Qed.

Lemma sat_and (m : M A) (P Q : list Event -> Completion A -> Prop) :
  satisfies m P -> satisfies m Q -> satisfies m (fun tr r => P tr r /\ Q tr r).
Proof. intros HP HQ n tr n' r E. split; [eapply HP|eapply HQ]; eauto. Qed.

Lemma sat_lift (c : Completion A) (Q : list Event -> Completion A -> Prop) :
  Q [] c -> satisfies (lift c) Q.
Proof. intros H n tr n' r E. injection E as <- _ <-. exact H. Qed.

Lemma sat_ret (a : A) (Q : list Event -> Completion A -> Prop) :
  Q [] (Normal a) -> satisfies (ret a) Q.
Proof. apply sat_lift. Qed.

Lemma sat_throw (e : Thrown) (Q : list Event -> Completion A -> Prop) :
  Q [] (Throw e) -> satisfies (throw e) Q.
Proof. apply sat_lift. Qed.

Lemma sat_cut_short (Q : list Event -> Completion A -> Prop) : satisfies cut_short Q.
Proof. intros n tr n' r E. discriminate. Qed.

Lemma sat_bind (m : M A) (k : A -> M B)
    (P : list Event -> Completion A -> Prop) (Q : list Event -> Completion B -> Prop) :
  satisfies m P ->
  (forall tr e, P tr (Throw e) -> Q tr (Throw e)) ->
  (forall tr a, P tr (Normal a) -> satisfies (k a) (fun tr2 r => Q (tr ++ tr2) r)) ->
  satisfies (bind m k) Q.
Proof.
  intros Hm Ht Hk n tr n' r E. unfold bind in E.
  destruct (m n) as [[[tr1 n1] [a|e]]|] eqn:Em; [| |discriminate].
  - destruct (k a n1) as [[[tr2 n2] r2]|] eqn:Ek; [|discriminate].
    injection E as <- <- <-.
    apply (Hk tr1 a (Hm _ _ _ _ Em) _ _ _ _ Ek).
  - injection E as <- <- <-. apply Ht, (Hm _ _ _ _ Em).
Qed.

End Rules.

Section CatchRule.

Context {A : Type}.

Lemma sat_try_catch (m : M A) (h : Thrown -> M A)
    (P Q : list Event -> Completion A -> Prop) :
  satisfies m P ->
  (forall tr a, P tr (Normal a) -> Q tr (Normal a)) ->
  (forall tr e, P tr (Throw e) -> satisfies (h e) (fun tr2 r => Q (tr ++ tr2) r)) ->
  satisfies (try_catch m h) Q.
Proof.
  intros Hm Hn Hh n tr n' r E. unfold try_catch in E.
  destruct (m n) as [[[tr1 n1] [a|e]]|] eqn:Em; [| |discriminate].
  - injection E as <- <- <-. apply Hn, (Hm _ _ _ _ Em).
  - destruct (h e n1) as [[[tr2 n2] r2]|] eqn:Eh; [|discriminate].
    injection E as <- <- <-.
    apply (Hh tr1 e (Hm _ _ _ _ Em) _ _ _ _ Eh).
Qed.

Lemma sat_emit (ev : Event) (Q : list Event -> Completion unit -> Prop) :
  Q [ev] (Normal tt) -> satisfies (emit ev) Q.
Proof. intros H n tr n' r E. injection E as <- _ <-. exact H. Qed.

End CatchRule.

(** *** Events *)

Section EmitsOnly.

Context (p : Event -> Prop).

Lemma emits_lift {A} (c : Completion A) : emits_only p (lift c).
Proof. apply sat_lift. constructor. Qed.

Lemma emits_ret {A} (a : A) : emits_only p (ret a).
Proof. apply emits_lift. Qed.

Lemma emits_throw {A} (e : Thrown) : emits_only p (@throw A e).
Proof. apply emits_lift. Qed.

Lemma emits_emit (ev : Event) : p ev -> emits_only p (emit ev).
Proof. intros H. apply sat_emit. repeat constructor. exact H. Qed.

Lemma emits_bind {A B} (m : M A) (k : A -> M B) :
  emits_only p m -> (forall a, emits_only p (k a)) -> emits_only p (bind m k).
Proof.
  intros Hm Hk. eapply sat_bind; [exact Hm|auto|].
  intros tr a Htr. eapply sat_weaken; [apply Hk|].
  intros tr2 r H2. apply Forall_app. split; assumption.
Qed.

Lemma emits_bind_returning {A B} (R : A -> Prop) (m : M A) (k : A -> M B) :
  emits_only p m -> returns R m ->
  (forall a, R a -> emits_only p (k a)) -> emits_only p (bind m k).
Proof.
  intros Hm HR Hk. eapply sat_bind; [exact (sat_and _ _ _ Hm HR)|simpl; tauto|].
  intros tr a [Htr Ha]. eapply sat_weaken; [apply Hk, Ha; reflexivity|].
  intros tr2 r H2. apply Forall_app. split; assumption.
Qed.

Lemma emits_try_catch {A} (m : M A) (h : Thrown -> M A) :
  emits_only p m -> (forall e, emits_only p (h e)) -> emits_only p (try_catch m h).
Proof.
  intros Hm Hh. eapply sat_try_catch; [exact Hm|auto|].
  intros tr e Htr. eapply sat_weaken; [apply Hh|].
  intros tr2 r H2. apply Forall_app. split; assumption.
Qed.

Lemma emits_fetch_call (w : World) (request : Request) :
  p (EvFetch request) -> emits_only p (fetch_call w request).
Proof.
  intros H n tr n' r E. injection E as <- _ _. repeat constructor. exact H.
Qed.

End EmitsOnly.

(** *** Results *)

Section Returns.

Lemma returns_lift {A} (R : A -> Prop) (c : Completion A) :
  (forall a, c = Normal a -> R a) -> returns R (lift c).
Proof. intros H. apply sat_lift. exact H. Qed.

Lemma returns_ret {A} (R : A -> Prop) (a : A) : R a -> returns R (ret a).
Proof. intros H. apply sat_ret. intros a' E. injection E as <-. exact H. Qed.

Lemma returns_throw {A} (R : A -> Prop) (e : Thrown) : returns R (throw e).
Proof. apply sat_throw. discriminate. Qed.

Lemma returns_bind {A B} (R : B -> Prop) (m : M A) (k : A -> M B) :
  (forall a, returns R (k a)) -> returns R (bind m k).
Proof.
  intros Hk. eapply (sat_bind m k (fun _ _ => True)).
  - intros n tr n' r E. exact I.
  - discriminate.
  - intros tr a _. apply Hk.
Qed.

Lemma returns_try_catch {A} (R : A -> Prop) (m : M A) (h : Thrown -> M A) :
  returns R m -> (forall e, returns R (h e)) -> returns R (try_catch m h).
Proof.
  intros Hm Hh. eapply sat_try_catch; [exact Hm|auto|].
  intros tr e _. apply Hh.
Qed.

Lemma returns_any {A} (m : M A) : returns (fun _ => True) m.
Proof. intros n tr n' r E a Ha. exact I. Qed.

End Returns.

(** *** Runs that are never cut short *)

Section Total.

Lemma total_lift {A} (c : Completion A) : total (lift c).
Proof. intros n. eexists. reflexivity. Qed.

Lemma total_ret {A} (a : A) : total (ret a).
Proof. apply total_lift. Qed.

Lemma total_throw {A} (e : Thrown) : total (@throw A e).
Proof. apply total_lift. Qed.

Lemma total_emit (ev : Event) : total (emit ev).
Proof. intros n. eexists. reflexivity. Qed.

Lemma total_bind {A B} (m : M A) (k : A -> M B) :
  total m -> (forall a, total (k a)) -> total (bind m k).
Proof.
  intros Hm Hk n. unfold bind.
  destruct (Hm n) as [[[tr1 n1] [a|e]] ->]; [|eexists; reflexivity].
  destruct (Hk a n1) as [[[tr2 n2] r2] ->]. eexists; reflexivity.
Qed.

Lemma total_try_catch {A} (m : M A) (h : Thrown -> M A) :
  total m -> (forall e, total (h e)) -> total (try_catch m h).
Proof.
  intros Hm Hh n. unfold try_catch.
  destruct (Hm n) as [[[tr1 n1] [a|e]] ->]; [eexists; reflexivity|].
  destruct (Hh e n1) as [[[tr2 n2] r2] ->]. eexists; reflexivity.
Qed.

Lemma total_fetch_call (w : World) (request : Request) : total (fetch_call w request).
Proof. intros n. eexists. reflexivity. Qed.

End Total.

Section RequestRule.

Import ApiClient.

Context (w : World) (c : t) (endpoint : string).
Context (I : RequestOptions -> Prop) (Q : list Event -> Completion ApiResponse -> Prop).

Hypothesis I_with_retries : forall o k, I o -> I (with_retries (Has k) o).

Hypothesis attempt_returned :
  forall o n tra n1 a,
    I o ->
    attempt w c (url_of w c endpoint o) (mergeOptions c o) n = Some (tra, n1, Normal a) ->
    Q (EvAttempt :: tra) (Normal a).

Hypothesis attempt_retried :
  forall o n tra n1 e trr r,
    I o ->
    attempt w c (url_of w c endpoint o) (mergeOptions c o) n = Some (tra, n1, Throw e) ->
    retried c o e = true ->
    Q trr r ->
    Q (EvAttempt :: tra ++ EvSleep (delay_of c o) :: trr) r.

Hypothesis attempt_terminal :
  forall o n tra n1 e post n2 r',
    I o ->
    attempt w c (url_of w c endpoint o) (mergeOptions c o) n = Some (tra, n1, Throw e) ->
    retried c o e = false ->
    applyErrorInterceptors_from w (errorInterceptors c) (as_Error e) n1
      = Some (post, n2, r') ->
    Q (EvAttempt :: tra ++ EvErrorChain (as_Error e) :: post) (as_outcome r').

Lemma request_rule :
  forall bound o, I o -> satisfies (request bound w c endpoint o) Q.
Proof.
  induction bound as [|b IH]; intros o Io n tr n' r E; [discriminate|].
  cbn [request] in E. unfold bind at 1 in E. unfold emit in E.
  unfold try_catch in E.
  fold (url_of w c endpoint o) in E.
  destruct (attempt w c (url_of w c endpoint o) (mergeOptions c o) n)
    as [[[tra n1] [a|e]]|] eqn:Ea; [| |discriminate].
  - injection E as <- <- <-. simpl. eapply attempt_returned; eauto.
  - fold (budget c o) in E. fold (retried c o e) in E.
    destruct (retried c o e) eqn:Er.
    + unfold retryRequest, bind, emit in E.
      fold (budget c o) in E. fold (delay_of c o) in E.
      destruct (request b w c endpoint _ n1) as [[[trr n2] rr]|] eqn:Erec; [|discriminate].
      injection E as <- <- <-. simpl.
      eapply attempt_retried; eauto.
      eapply IH; [|exact Erec]. apply I_with_retries, Io.
    + unfold applyErrorInterceptors, bind, emit, ret in E.
      destruct (applyErrorInterceptors_from w (errorInterceptors c) (as_Error e) n1)
        as [[[post n2] [pe|x]]|] eqn:Ec; [| |discriminate].
      * injection E as <- <- <-. simpl. rewrite app_nil_r.
        apply (attempt_terminal o n tra n1 e post n2 (Normal pe)); auto.
      * injection E as <- <- <-. simpl.
        apply (attempt_terminal o n tra n1 e post n2 (Throw x)); auto.
Qed.

End RequestRule.

(** ** The stages of one attempt *)

Ltac stage_step :=
  first
    [ apply emits_ret | apply emits_throw | apply emits_lift
    | apply emits_emit
    | apply emits_fetch_call
    | apply emits_bind; [|intros ?]
    | apply emits_try_catch; [|intros ?]
    | match goal with
      | |- emits_only _ (match ?x with _ => _ end) => destruct x
      end ].

Ltac total_step :=
  first
    [ apply total_ret | apply total_throw | apply total_lift
    | apply total_emit
    | apply total_fetch_call
    | apply total_bind; [|intros ?]
    | apply total_try_catch; [|intros ?]
    | match goal with
      | |- total (match ?x with _ => _ end) => destruct x
      end ].

Ltac returns_step :=
  first
    [ apply returns_throw
    | apply returns_bind; intros ?
    | match goal with
      | |- returns _ (match ?x with _ => _ end) => destruct x
      end ].

Section Stages.

Import ApiClient.

Context (w : World) (c : t).
Context (p : Event -> Prop).
Hypothesis p_request_interceptor : forall i, p (EvRequestInterceptor i).
Hypothesis p_response_interceptor : forall i, p (EvResponseInterceptor i).
Hypothesis p_register : p EvRegisterAbort.
Hypothesis p_fetch : forall r, p (EvFetch r).

Lemma emits_request_interceptors (l : list nat) :
  forall r, emits_only p (applyRequestInterceptors_from w l r).
Proof.
  induction l as [|i l IH]; intros r; simpl; repeat stage_step; auto.
Qed.

Lemma emits_response_interceptors (l : list nat) :
  forall r, emits_only p (applyResponseInterceptors_from w l r).
Proof.
  induction l as [|i l IH]; intros r; simpl; repeat stage_step; auto.
Qed.

Lemma emits_rethrow {A} (timeout : option Z) (e : Thrown) :
  emits_only p (@rethrow_abort_as_timeout A timeout e).
Proof. unfold rethrow_abort_as_timeout. repeat stage_step. Qed.

Lemma emits_fetchWithTimeout (request : Request) (timeout : option Z) :
  emits_only p (fetchWithTimeout w request timeout).
Proof.
  unfold fetchWithTimeout. repeat stage_step; auto using @emits_rethrow.
Qed.

Lemma emits_fetchWithProgressTracking (request : Request) (o : RequestOptions) :
  emits_only p (fetchWithProgressTracking w request o).
Proof.
  unfold fetchWithProgressTracking. repeat stage_step; auto using @emits_rethrow.
Qed.

Lemma emits_check_status (mo : RequestOptions) (response : Response) :
  emits_only p (check_status w c mo response).
Proof. unfold check_status. repeat stage_step. Qed.

Lemma emits_read_body (rt : ResponseType) (response : Response) :
  emits_only p (read_body w rt response).
Proof. unfold read_body. repeat stage_step. Qed.

Lemma emits_process_response (mo : RequestOptions) (response : Response) :
  emits_only p (process_response w mo response).
Proof.
  unfold process_response. repeat stage_step; auto using emits_read_body.
Qed.

Lemma emits_over_fetch (u : string) (mo : RequestOptions) (tok : option CancelToken.t) :
  emits_only p (over_fetch w c u mo tok).
Proof.
  unfold over_fetch, applyRequestInterceptors, applyResponseInterceptors.
  repeat stage_step;
    auto using emits_request_interceptors, emits_response_interceptors,
      emits_fetchWithTimeout, emits_fetchWithProgressTracking,
      emits_check_status, emits_process_response, @emits_rethrow, emits_read_body.
Qed.

End Stages.

Section StageResults.

Import ApiClient.

Context (w : World) (c : t).

Lemma construct_Request_returns (u : string) (mo : RequestOptions) (request : Request) :
  construct_Request w u mo = Normal request -> request = new_Request u mo.
Proof.
  unfold construct_Request.
  destruct (Request_refused w (new_Request u mo)); [discriminate|].
  destruct (body_on_GET_or_HEAD mo); [discriminate|].
  intros E. injection E as <-. reflexivity.
Qed.

Lemma returns_over_fetch (u : string) (mo : RequestOptions) (tok : option CancelToken.t) :
  returns (fun r => fst r = None) (over_fetch w c u mo tok).
Proof.
  unfold over_fetch. repeat returns_step. apply returns_ret. reflexivity.
Qed.

Lemma total_request_interceptors (l : list nat) :
  forall r, total (applyRequestInterceptors_from w l r).
Proof. induction l as [|i l IH]; intros r; simpl; repeat total_step; auto. Qed.

Lemma total_response_interceptors (l : list nat) :
  forall r, total (applyResponseInterceptors_from w l r).
Proof. induction l as [|i l IH]; intros r; simpl; repeat total_step; auto. Qed.

Lemma total_error_interceptors (l : list ErrorInterceptor) :
  forall e, total (applyErrorInterceptors_from w l e).
Proof. induction l as [|i l IH]; intros e; simpl; repeat total_step; auto. Qed.

Lemma total_rethrow {A} (timeout : option Z) (e : Thrown) :
  total (@rethrow_abort_as_timeout A timeout e).
Proof. unfold rethrow_abort_as_timeout. repeat total_step. Qed.

Lemma total_over_fetch (u : string) (mo : RequestOptions) (tok : option CancelToken.t) :
  total (over_fetch w c u mo tok).
Proof.
  unfold over_fetch, applyRequestInterceptors, applyResponseInterceptors,
    fetchWithTimeout, fetchWithProgressTracking, check_status, process_response,
    read_body.
  repeat total_step;
    auto using total_request_interceptors, total_response_interceptors, @total_rethrow.
Qed.

Lemma total_requestWithXHR (u : string) (mo : RequestOptions) :
  total (requestWithXHR w u mo).
Proof. intros n. eexists. reflexivity. Qed.

Lemma total_attempt (u : string) (mo : RequestOptions) : total (attempt w c u mo).
Proof.
  unfold attempt. apply total_bind.
  - destruct (read (cancelToken mo)); [apply total_lift|apply total_ret].
  - intros _. destruct (takes_xhr_path mo);
      [apply total_requestWithXHR|apply total_over_fetch].
Qed.

Lemma total_applyErrorInterceptors (e : Thrown) : total (applyErrorInterceptors w c e).
Proof.
  unfold applyErrorInterceptors. repeat total_step. apply total_error_interceptors.
Qed.

(** The error chain: its mark, then only calls of its interceptors. *)
Lemma error_interceptors_only_call (l : list ErrorInterceptor) :
  forall e,
    emits_only (fun ev => is_interceptor_call ev = true)
               (applyErrorInterceptors_from w l e).
Proof. induction l as [|i l IH]; intros e; simpl; repeat stage_step; auto. Qed.

Lemma budget_with_retries (o : RequestOptions) (k : nat) :
  budget c (with_retries (Has k) o) = k.
Proof. unfold budget. simpl. destruct k; reflexivity. Qed.

(** [request] returns whenever the bound exceeds the retry budget. *)
Lemma request_total (endpoint : string) :
  forall bound o, (budget c o < bound)%nat -> total (request bound w c endpoint o).
Proof.
  induction bound as [|b IH]; intros o Hb; [lia|].
  cbn [request]. fold (budget c o).
  apply total_bind; [apply total_emit|intros _].
  apply total_try_catch; [apply total_attempt|intros e].
  destruct ((0 <? budget c o)%nat && _) eqn:E.
  - unfold retryRequest. apply total_bind; [apply total_emit|intros _].
    apply IH. rewrite budget_with_retries.
    apply andb_true_iff in E as [E _]. apply Nat.ltb_lt in E. lia.
  - apply total_bind; [apply total_applyErrorInterceptors|intros pe]. apply total_ret.
Qed.

Lemma pipeline_total (endpoint : string) (o : RequestOptions) :
  total (pipeline w c endpoint o).
Proof. apply request_total. lia. Qed.

End StageResults.

(** ** The outcome tuple *)

Section Outcome.

Import ApiClient.

Context (w : World) (c : t).

Lemma settle_not_both (o : RequestOptions) (x : XhrOutcome) : not_both (settle w o x).
Proof.
  destruct x as [st txt resp|st|st|reason]; simpl; try (right; reflexivity).
  unfold onload.
  destruct (match default json (read (responseType o)) with
            | json => _ | text => _ | blob => _ | arrayBuffer => _ | formData => _
            end) as [v|e]; [|right; reflexivity].
  destruct (negb _); [right|left]; reflexivity.
Qed.

Lemma returns_requestWithXHR (u : string) (mo : RequestOptions) :
  returns not_both (requestWithXHR w u mo).
Proof.
  intros n tr n' r E a Ha. injection E as _ _ <-. injection Ha as <-.
  apply settle_not_both.
Qed.

Lemma returns_attempt_not_both (u : string) (mo : RequestOptions) :
  returns not_both (attempt w c u mo).
Proof.
  unfold attempt. apply returns_bind. intros _.
  destruct (takes_xhr_path mo); [apply returns_requestWithXHR|].
  eapply sat_weaken; [apply returns_over_fetch|].
  intros tr r H a Ha. left. apply (H a Ha).
Qed.

Lemma request_not_both (endpoint : string) (bound : nat) (o : RequestOptions) :
  returns not_both (request bound w c endpoint o).
Proof.
  apply (request_rule w c endpoint (fun _ => True)); auto.
  - intros o' n tra n1 a _ Ea a' Ha'. injection Ha' as <-.
    apply (returns_attempt_not_both _ _ _ _ _ _ Ea a eq_refl).
  - intros o' n tra n1 e post n2 [pe|x] _ _ _ _ a Ha; [|discriminate].
    injection Ha as <-. right. reflexivity.
Qed.


Lemma perform_as_handed (op : Operation) :
  perform w c op
  = pipeline w c (Configuration.endpoint_of op) (Configuration.handed w op).
Proof. destruct op; reflexivity. Qed.

(** Decoding reads nothing of the retries left. *)
Lemma decoded_ignores_retries (o o' : RequestOptions) (data : Value) :
  with_retries Missing o' = with_retries Missing o ->
  Readings.decoded w c (mergeOptions c o') data ->
  Readings.decoded w c (mergeOptions c o) data.
Proof.
  intros E. destruct o, o'. injection E as -> -> -> -> -> -> -> -> -> -> -> -> -> -> -> ->.
  intros H. exact H.
Qed.

Lemma bind_returned {A B} (m : M A) (k : A -> M B) (n : nat) (tr : list Event)
    (n' : nat) (b : B) :
  bind m k n = Some (tr, n', Normal b) ->
  exists tr1 n1 a tr2,
    m n = Some (tr1, n1, Normal a) /\ k a n1 = Some (tr2, n', Normal b)
    /\ tr = tr1 ++ tr2.
Proof.
  unfold bind. destruct (m n) as [[[tr1 n1] [a|e]]|]; [| |discriminate].
  - destruct (k a n1) as [[[tr2 n2] r2]|] eqn:Ek; [|discriminate].
    intros E. injection E as <- <- ->. exists tr1, n1, a, tr2. auto.
  - discriminate.
Qed.

Lemma attempt_success_is_decoded (u : string) (mo : RequestOptions) (n : nat)
    (tra : list Event) (n' : nat) (data : Value) :
  attempt w c u mo n = Some (tra, n', Normal (None, data)) ->
  Readings.decoded w c mo data.
Proof.
  unfold attempt, Readings.decoded. intros E.
  apply bind_returned in E as (tr1 & n1 & [] & tr2 & _ & E & _).
  destruct (takes_xhr_path mo).
  - unfold requestWithXHR in E. injection E as _ _ E.
    destruct (xhr w n1 u mo) as [st txt resp|st|st|reason]; simpl in E;
      try discriminate.
    exists st, txt, resp. exact E.
  - unfold over_fetch in E.
    apply bind_returned in E as (? & ? & r0 & ? & _ & E & _).
    apply bind_returned in E as (? & ? & r1 & ? & _ & E & _).
    apply bind_returned in E as (? & ? & r2 & ? & _ & E & _).
    apply bind_returned in E as (? & ? & [] & ? & _ & E & _).
    apply bind_returned in E as (? & ? & resp & ? & _ & E & _).
    apply bind_returned in E as (? & m1 & resp2 & ? & _ & E & _).
    apply bind_returned in E as (tc & m2 & [] & ? & Ec & E & _).
    apply bind_returned in E as (tp & m3 & d & ? & Ep & E & _).
    injection E as _ _ <-.
    exists resp2, m1, tc, m2, tp, m3. split; assumption.
Qed.

Lemma request_outcome (endpoint : string) (o : RequestOptions) (bound : nat) :
  satisfies (request bound w c endpoint o)
    (fun tr r =>
       forall error data, r = Normal (error, data) ->
         (error <> None /\ data = VNull)
         \/ (error = None
             /\ Readings.returned_by_the_last_attempt w c endpoint o tr data
             /\ Readings.decoded w c (mergeOptions c o) data)).
Proof.
  apply (request_rule w c endpoint
           (fun o' => with_retries Missing o' = with_retries Missing o)).
  - intros o' k H. exact H.
  - intros o' n tra n1 [err d] Io Ea error data E. injection E as <- <-.
    destruct err as [e|].
    + left. split; [discriminate|].
      destruct (returns_attempt_not_both _ _ _ _ _ _ Ea _ eq_refl) as [H|H];
        [discriminate|exact H].
    + right. split; [reflexivity|]. split.
      * exists [], tra, o', n, n1. split; [exact Io|]. split; [reflexivity|exact Ea].
      * apply (decoded_ignores_retries o o' d Io).
        exact (attempt_success_is_decoded _ _ _ _ _ _ Ea).
  - intros o' n tra n1 e trr r _ _ _ IH error data E.
    destruct (IH error data E)
      as [H|(H1 & (pre & tra' & o2 & m1 & m2 & Ho & -> & Ha) & H3)];
      [left; exact H|right].
    split; [exact H1|]. split; [|exact H3].
    exists (EvAttempt :: tra ++ EvSleep (delay_of c o') :: pre), tra', o2, m1, m2.
    split; [exact Ho|]. split; [|exact Ha]. simpl. rewrite <- app_assoc. reflexivity.
  - intros o' n tra n1 e post n2 [pe|x] _ _ _ _ error data E; [|discriminate].
    injection E as <- <-. left. split; [discriminate|reflexivity].
  - reflexivity.
Qed.

(** C1, amended: every public operation returns or throws, and a tuple it
    returns never has both slots populated.  When the error slot holds an
    error, the data slot is null.  When the error slot is null, the tuple
    is the one the [try] block of the last attempt returned, and its data
    slot holds a decoded body: only when the body decodes to null, as an
    empty body does under [json], are both slots null.  (When an error
    interceptor throws, the operation rejects and returns no tuple.) *)
Theorem outcome_never_has_both_slots_populated (op : Operation) (n : nat) :
  exists tr n' r,
    perform w c op n = Some (tr, n', r)
    /\ forall error data,
         r = Normal (error, data) ->
         (error <> None /\ data = VNull)
         \/ (error = None
             /\ Readings.returned_by_the_last_attempt w c
                  (Configuration.endpoint_of op) (Configuration.handed w op) tr data
             /\ Readings.decoded w c (mergeOptions c (Configuration.handed w op)) data).
Proof.
  rewrite perform_as_handed.
  destruct (pipeline_total w c (Configuration.endpoint_of op) (Configuration.handed w op) n)
    as [[[tr n'] r] E].
  exists tr, n', r. split; [exact E|].
  exact (request_outcome _ _ _ n tr n' r E).
Qed.

End Outcome.

(** ** The error chain *)

Section ErrorChain.

Import ApiClient.

Context (w : World) (c : t).

Lemma stage_event_calm (tr : list Event) :
  Forall stage_event tr -> never is_chain tr /\ existsb is_xhr tr = false.
Proof.
  induction 1 as [|ev tr (Hc & Hx & _) _ [IH1 IH2]]; split; simpl; auto.
  - constructor.
  - constructor; assumption.
  - rewrite Hx, IH2. reflexivity.
Qed.

Lemma interceptor_calls_calm (tr : list Event) :
  Forall (fun ev => is_interceptor_call ev = true) tr ->
  never is_chain tr /\ existsb is_xhr tr = false.
Proof.
  induction 1 as [|ev tr H _ [IH1 IH2]]; split; simpl; auto.
  - constructor.
  - constructor; [destruct ev; simpl in *; congruence|assumption].
  - rewrite IH2. destruct ev; simpl in *; congruence.
Qed.

Lemma over_fetch_emits_stage_events (u : string) (mo : RequestOptions)
    (tok : option CancelToken.t) :
  emits_only stage_event (over_fetch w c u mo tok).
Proof. apply emits_over_fetch; intros; repeat split; reflexivity. Qed.

(** What one attempt leaves behind: either it reached the XMLHttpRequest
    transport and returned its tuple, or it emitted stage events only and
    returned, if it returned, a tuple without error. *)
Lemma attempt_spec (u : string) (mo : RequestOptions) :
  satisfies (attempt w c u mo)
    (fun tr r =>
       (exists ev a, tr = [ev] /\ is_xhr ev = true /\ r = Normal a)
       \/ (Forall stage_event tr /\ forall a, r = Normal a -> fst a = None)).
Proof.
  unfold attempt.
  eapply (sat_bind _ _ (fun tr _ => tr = [])).
  - destruct (read (cancelToken mo)); intros n tr n' r E; injection E as <- _ _; reflexivity.
  - intros tr e ->. right. split; [constructor|discriminate].
  - intros tr [] ->. simpl.
    destruct (takes_xhr_path mo).
    + intros n tr n' r E. injection E as <- _ <-. left. eauto.
    + eapply sat_weaken;
        [apply (sat_and _ _ _ (over_fetch_emits_stage_events u mo _)
                              (returns_over_fetch w c u mo _))|].
      intros tr r [H1 H2]. right. split; assumption.
Qed.

Lemma not_succeeded_as_outcome (r : Completion Thrown) : ~ succeeded (as_outcome r).
Proof. intros [d H]. destruct r; simpl in H; discriminate. Qed.

Lemma chain_discipline_after (pre tr : list Event) (r : Completion ApiResponse) :
  never is_chain pre -> existsb is_xhr pre = false ->
  chain_discipline tr r -> chain_discipline (pre ++ tr) r.
Proof.
  intros Hc Hx. unfold chain_discipline.
  rewrite existsb_app, Hx. simpl.
  destruct (existsb is_xhr tr).
  - intros H. apply Forall_app. split; assumption.
  - intros [H1 H2]. split.
    + intros Hs. apply Forall_app. split; [exact Hc|exact (H1 Hs)].
    + intros Hs. destruct (H2 Hs) as (pre' & e & post & -> & Hpre & Hpost).
      exists (pre ++ pre'), e, post. rewrite app_assoc. split; [reflexivity|].
      split; [apply Forall_app; split; assumption|assumption].
Qed.

Lemma request_chain_discipline (endpoint : string) (bound : nat) (o : RequestOptions) :
  satisfies (request bound w c endpoint o) chain_discipline.
Proof.
  apply (request_rule w c endpoint (fun _ => True)); auto.
  - (* the attempt returned *)
    intros o' n tra n1 a _ Ea.
    destruct (attempt_spec _ _ _ _ _ _ Ea) as [(ev & a' & -> & Hev & _)|[Hst Hn]].
    + unfold chain_discipline. simpl. rewrite Hev. simpl.
      repeat constructor. destruct ev; simpl in *; congruence.
    + destruct (stage_event_calm tra Hst) as [Hc Hx].
      unfold chain_discipline. simpl. rewrite Hx. split.
      * intros _. constructor; [reflexivity|assumption].
      * intros Hns. exfalso. apply Hns. destruct a as [err d].
        specialize (Hn _ eq_refl). simpl in Hn. subst err. exists d. reflexivity.
  - (* the attempt failed and is retried *)
    intros o' n tra n1 e trr r _ Ea _ IH.
    destruct (attempt_spec _ _ _ _ _ _ Ea) as [(ev & a' & _ & _ & Hr)|[Hst _]];
      [discriminate|].
    destruct (stage_event_calm tra Hst) as [Hc Hx].
    replace (EvAttempt :: tra ++ EvSleep (delay_of c o') :: trr)
      with ((EvAttempt :: tra ++ [EvSleep (delay_of c o')]) ++ trr)
      by (simpl; rewrite <- app_assoc; reflexivity).
    apply chain_discipline_after; [| |exact IH].
    + constructor; [reflexivity|]. apply Forall_app. split; [exact Hc|].
      repeat constructor.
    + simpl. rewrite existsb_app, Hx. reflexivity.
  - (* the attempt failed for good *)
    intros o' n tra n1 e post n2 r' _ Ea _ Ec.
    destruct (attempt_spec _ _ _ _ _ _ Ea) as [(ev & a' & _ & _ & Hr)|[Hst _]];
      [discriminate|].
    destruct (stage_event_calm tra Hst) as [Hc Hx].
    pose proof (error_interceptors_only_call w _ _ _ _ _ _ Ec) as Hpost.
    destruct (interceptor_calls_calm post Hpost) as [_ Hpx].
    unfold chain_discipline. simpl. rewrite existsb_app, Hx. simpl. rewrite Hpx.
    split.
    + intros Hs. exfalso. exact (not_succeeded_as_outcome r' Hs).
    + intros _. exists (EvAttempt :: tra), (as_Error e), post.
      split; [reflexivity|]. split; [|exact Hpost].
      constructor; [reflexivity|exact Hc].
Qed.

(** Where the URL is built, every request returns and the catch clause
    keeps this discipline: a run that reached the XMLHttpRequest transport
    never applies the error chain; any other run applies it not at all
    when it succeeds, and once, after the last attempt, when it fails. *)
Lemma catch_clause_applies_the_chain_last
    (endpoint : string) (o : RequestOptions) (n : nat) :
  exists tr n' r,
    pipeline w c endpoint o n = Some (tr, n', r) /\ chain_discipline tr r.
Proof.
  destruct (pipeline_total w c endpoint o n) as [[[tr n'] r] E].
  exists tr, n', r. split; [exact E|].
  exact (request_chain_discipline endpoint _ o n tr n' r E).
Qed.

End ErrorChain.

(** ** Retry classification *)

Section Classification.

Import ApiClient.

Lemma client_error_codes_cover (code : Z) :
  (400 <= code < 500)%Z -> In code client_error_codes.
Proof.
  intros H. unfold client_error_codes. apply in_map_iff.
  exists (Z.to_nat (code - 400)). split; [lia|].
  apply in_seq. lia.
Qed.

Lemma no_client_error_message_reads_as_timeout :
  forallb (fun code =>
             negb (isTimeoutError ("Request failed with status " +:+ String_of code)))
          client_error_codes = true.
Proof. vm_compute. reflexivity. Qed.

Lemma status_failure_is_no_timeout (code : Z) :
  (400 <= code < 500)%Z ->
  isTimeoutError ("Request failed with status " +:+ String_of code) = false.
Proof.
  intros H.
  pose proof (proj1 (forallb_forall _ _) no_client_error_message_reads_as_timeout
                code (client_error_codes_cover code H)) as E.
  apply negb_true_iff in E. exact E.
Qed.

Lemma shouldRetry_client_error (code : Z) (data : Value) (codes : option (list Z)) :
  (400 <= code < 500)%Z ->
  (forall l, codes = Some l -> ~ In code l) ->
  shouldRetry (status_failure code data) codes = false.
Proof.
  intros H Hout. unfold shouldRetry, status_failure. simpl.
  unfold truthy_number.
  destruct (Z.eqb_spec code 0) as [->|_]; [lia|]. simpl.
  assert (Hmem : match codes with
                 | Some l => existsb (Z.eqb code) l
                 | None => false
                 end = false).
  { destruct codes as [l|]; [|reflexivity].
    destruct (existsb (Z.eqb code) l) eqn:E; [|reflexivity].
    apply existsb_exists in E as (x & Hx & Heq).
    apply Z.eqb_eq in Heq. subst x. exfalso. exact (Hout l eq_refl Hx). }
  rewrite Hmem.
  replace ((500 <=? code)%Z) with false by (symmetry; apply Z.leb_gt; lia).
  simpl. rewrite (status_failure_is_no_timeout code H). reflexivity.
Qed.

Lemma shouldRetry_server_error (message : string) (code : Z) (data : Value)
    (codes : option (list Z)) :
  (500 <= code < 600)%Z ->
  shouldRetry (ApiError message (Some code) data) codes = true.
Proof.
  intros H. unfold shouldRetry. simpl. unfold truthy_number.
  destruct (Z.eqb_spec code 0) as [->|_]; [lia|]. simpl.
  replace ((500 <=? code)%Z) with true by (symmetry; apply Z.leb_le; lia).
  replace ((code <? 600)%Z) with true by (symmetry; apply Z.ltb_lt; lia).
  simpl. destruct (match codes with Some _ => _ | None => _ end); reflexivity.
Qed.

Context (w : World) (c : t).

(** One turn of [request] whose attempt fails for good. *)
Lemma request_fails_for_good (endpoint : string) (o : RequestOptions) (bound n : nat)
    (tra : list Event) (n1 : nat) (e : Thrown) :
  attempt w c (url_of w c endpoint o) (mergeOptions c o) n = Some (tra, n1, Throw e) ->
  retried c o e = false ->
  exists post n2 r',
    request (S bound) w c endpoint o n
    = Some (EvAttempt :: tra ++ EvErrorChain (as_Error e) :: post, n2, as_outcome r')
    /\ Forall (fun ev => is_interceptor_call ev = true) post.
Proof.
  intros Ea Er.
  destruct (total_error_interceptors w (errorInterceptors c) (as_Error e) n1)
    as [[[post n2] r'] Ec].
  exists post, n2, r'. split; [|exact (error_interceptors_only_call w _ _ _ _ _ _ Ec)].
  cbn [request]. unfold bind at 1. unfold emit, try_catch.
  fold (url_of w c endpoint o). rewrite Ea.
  fold (budget c o). fold (retried c o e). rewrite Er.
  unfold applyErrorInterceptors, bind, emit, ret. rewrite Ec.
  destruct r'; simpl; rewrite ?app_nil_r; reflexivity.
Qed.

(** C8: a status failure with a 4xx code outside the configured retry
    codes is classified terminal, and the request that meets it goes
    straight to the error chain, with no sleep and no further attempt,
    whatever its budget; a failure with a 5xx code is classified retryable
    whatever the configured codes. *)
Theorem client_error_is_terminal_and_server_error_retryable
    (endpoint : string) (o : RequestOptions) (bound n : nat)
    (tra : list Event) (n1 : nat) (code : Z) (data : Value)
    (message5 : string) (code5 : Z) (data5 : Value) (codes5 : option (list Z)) :
  (400 <= code < 500)%Z ->
  (forall l, read (retryStatusCodes (mergeOptions c o)) = Some l -> ~ In code l) ->
  attempt w c (url_of w c endpoint o) (mergeOptions c o) n
    = Some (tra, n1, Throw (status_failure code data)) ->
  (500 <= code5 < 600)%Z ->
  (shouldRetry (status_failure code data) (read (retryStatusCodes (mergeOptions c o)))
     = false
   /\ exists post n2 r',
        request (S bound) w c endpoint o n
        = Some (EvAttempt :: tra ++ EvErrorChain (status_failure code data) :: post,
                n2, as_outcome r')
        /\ Forall (fun ev => is_interceptor_call ev = true) post)
  /\ shouldRetry (ApiError message5 (Some code5) data5) codes5 = true.
Proof.
  intros H4 Hout Ea H5. split; [split|].
  - apply shouldRetry_client_error; assumption.
  - apply (request_fails_for_good endpoint o bound n tra n1 _ Ea).
    unfold retried. rewrite shouldRetry_client_error by assumption.
    apply andb_false_r.
  - apply shouldRetry_server_error, H5.
Qed.

End Classification.

(** ** What is dispatched *)

Section Dispatch.

Import ApiClient.

Context (w : World) (c : t).
Context (P : Request -> Prop) (X : string -> Prop).

Hypothesis no_request_interceptor : requestInterceptors c = [].
Hypothesis P_with_signal : forall s r, P r -> P (with_signal s r).

Lemma emits_error_interceptors (l : list ErrorInterceptor) :
  forall e, emits_only (dispatches_satisfy P X) (applyErrorInterceptors_from w l e).
Proof.
  induction l as [|i l IH]; intros e; simpl; repeat stage_step; auto. exact I.
Qed.

Lemma fetch_dispatches (mo : RequestOptions) (request : Request) :
  P request ->
  emits_only (dispatches_satisfy P X)
    (if tracks_progress mo
     then fetchWithProgressTracking w request mo
     else fetchWithTimeout w request (read (timeout mo))).
Proof.
  intros HP.
  destruct (tracks_progress mo).
  - unfold fetchWithProgressTracking.
    apply emits_try_catch; [|intros e; apply emits_rethrow].
    apply emits_fetch_call. simpl.
    destruct (truthy_optnum (read (timeout mo))); auto.
  - unfold fetchWithTimeout.
    destruct (negb (truthy_optnum (read (timeout mo)))).
    + apply emits_fetch_call. exact HP.
    + apply emits_try_catch; [|intros e; apply emits_rethrow].
      apply emits_fetch_call. simpl. auto.
Qed.

Lemma attempt_dispatches (u : string) (mo : RequestOptions) :
  P (new_Request u mo) ->
  X (or_string (read (method mo)) "GET") ->
  emits_only (dispatches_satisfy P X) (attempt w c u mo).
Proof.
  intros HP HX. unfold attempt.
  apply emits_bind.
  { destruct (read (cancelToken mo)); [apply emits_lift|apply emits_ret]. }
  intros _. destruct (takes_xhr_path mo).
  - intros n tr n' r E. injection E as <- _ _. repeat constructor. exact HX.
  - unfold over_fetch, applyRequestInterceptors. rewrite no_request_interceptor.
    cbn [applyRequestInterceptors_from].
    apply (emits_bind_returning _ P); [apply emits_lift| |intros r0 H0].
    { apply returns_lift. intros rq Hrq.
      rewrite (construct_Request_returns w u mo rq Hrq). exact HP. }
    apply (emits_bind_returning _ P);
      [apply emits_ret|apply returns_ret; exact H0|intros r1 H1].
    apply (emits_bind_returning _ P).
    { destruct (read (cancelToken mo)); repeat stage_step. exact I. }
    { destruct (read (cancelToken mo)).
      - apply returns_bind. intros _. apply returns_ret. auto.
      - apply returns_ret. exact H1. }
    intros r2 H2.
    apply emits_bind; [apply emits_lift|intros _].
    apply emits_bind; [apply fetch_dispatches, H2|intros resp].
    apply emits_bind;
      [apply emits_response_interceptors; intros; exact I|intros resp2].
    apply emits_bind; [apply emits_check_status|intros _].
    apply emits_bind; [apply emits_process_response|intros d].
    apply emits_ret.
Qed.

Lemma request_dispatches (endpoint : string) (I : RequestOptions -> Prop) :
  (forall o k, I o -> I (with_retries (Has k) o)) ->
  (forall o, I o ->
     P (new_Request (url_of w c endpoint o) (mergeOptions c o))
     /\ X (or_string (read (method (mergeOptions c o))) "GET")) ->
  forall bound o, I o ->
    emits_only (dispatches_satisfy P X) (request bound w c endpoint o).
Proof.
  intros Hk HI.
  apply (request_rule w c endpoint I); auto.
  - intros o n tra n1 a Io Ea. constructor; [exact Logic.I|].
    destruct (HI o Io) as [HP HX].
    exact (attempt_dispatches _ _ HP HX _ _ _ _ Ea).
  - intros o n tra n1 e trr r Io Ea _ IH. constructor; [exact Logic.I|].
    destruct (HI o Io) as [HP HX].
    apply Forall_app. split; [exact (attempt_dispatches _ _ HP HX _ _ _ _ Ea)|].
    constructor; [exact Logic.I|exact IH].
  - intros o n tra n1 e post n2 r' Io Ea _ Ec. constructor; [exact Logic.I|].
    destruct (HI o Io) as [HP HX].
    apply Forall_app. split; [exact (attempt_dispatches _ _ HP HX _ _ _ _ Ea)|].
    constructor; [exact Logic.I|].
    exact (emits_error_interceptors _ _ _ _ _ _ Ec).
Qed.

End Dispatch.

Section Verbs.

Import ApiClient Configuration.

Context (w : World) (c : t).

Lemma merged_method (o : RequestOptions) (m : string) :
  method o = Has m -> method (mergeOptions c o) = Has m.
Proof. intros H. unfold mergeOptions. simpl. rewrite H. reflexivity. Qed.


















End Verbs.

(** ** Back-off, decoding, cancellation and fan-out in general *)

Section General.

Import ApiClient.

Context (w : World) (c : t).

(** When the budget a request started with is the client's default [N],
    the sleep after [k] consumed attempts is the base delay times [2^k]. *)
Lemma adjustedDelay_from_default_budget (delay : Z) (N k : nat) :
  (k <= N)%nat ->
  (adjustedDelay_of delay N (N - k) == inject_Z delay * 2 ^ Z.of_nat k)%Q.
Proof.
  intros H. unfold adjustedDelay_of.
  replace (Z.of_nat N - Z.of_nat (N - k))%Z with (Z.of_nat k) by lia.
  reflexivity.
Qed.

(** With a default budget of 0 the exponent is the negated remaining
    budget. *)
Lemma adjustedDelay_without_default_budget (delay : Z) (retriesLeft : nat) :
  adjustedDelay_of delay 0 retriesLeft
  = (inject_Z delay * Qpower 2 (- Z.of_nat retriesLeft))%Q.
Proof. reflexivity. Qed.

(** The outer [catch] of the decoding step replaces the parse error, and
    with it the raw text. *)
Lemma json_decode_failure_has_no_response_data
    (mo : RequestOptions) (response : Response) (e : Thrown) (n : nat) :
  default json (read (responseType mo)) = json ->
  truthy_string (response_body response) = true ->
  JSON_parse w (response_body response) = Throw e ->
  process_response w mo response n
  = Some ([], n,
          Throw (ApiError
                   ("Failed to process response: "
                    +:+ ("Failed to parse JSON response: " +:+ message_or_String e))
                   (Some (status response)) VUndefined)).
Proof.
  intros Hrt Hbody Hparse. unfold process_response. rewrite Hrt.
  unfold read_body, try_catch, lift, throw. rewrite Hbody, Hparse. reflexivity.
Qed.

Lemma empty_json_body_decodes_to_null
    (mo : RequestOptions) (response : Response) (n : nat) :
  default json (read (responseType mo)) = json ->
  response_body response = "" ->
  process_response w mo response n = Some ([], n, Normal VNull).
Proof.
  intros Hrt Hbody. unfold process_response. rewrite Hrt.
  unfold read_body, try_catch, ret. rewrite Hbody. reflexivity.
Qed.

(** An attempt with a cancelled token stops at the cancellation check. *)
Lemma attempt_with_cancelled_token
    (u : string) (mo : RequestOptions) (tok : CancelToken.t) (r : string) (n : nat) :
  read (cancelToken mo) = Some tok ->
  CancelToken._reason tok = Some r ->
  truthy_string r = true ->
  attempt w c u mo n
  = Some ([], n, Throw (ApiError ("Request canceled: " +:+ r) None (VStr r))).
Proof.
  intros Htok Hr Ht. unfold attempt. rewrite Htok.
  unfold bind, lift, CancelToken.throwIfRequested. rewrite Hr, Ht. reflexivity.
Qed.

(** A cancellation error is retried exactly when its message reads as a
    timeout. *)
Lemma shouldRetry_cancellation (r : string) (codes : option (list Z)) :
  shouldRetry (ApiError ("Request canceled: " +:+ r) None (VStr r)) codes
  = isTimeoutError ("Request canceled: " +:+ r).
Proof.
  unfold shouldRetry. simpl.
  destruct (isTimeoutError _); reflexivity.
Qed.

(** With a token cancelled before the call, no run of [request] reaches a
    transport, and none succeeds. *)
Lemma cancelled_token_never_dispatches
    (endpoint : string) (tok : CancelToken.t) (r : string) (bound : nat)
    (o : RequestOptions) :
  CancelToken._reason tok = Some r ->
  truthy_string r = true ->
  cancelToken o = Has tok ->
  satisfies (request bound w c endpoint o)
            (fun tr res => never is_dispatch tr /\ ~ succeeded res).
Proof.
  intros Hr Ht.
  apply (request_rule w c endpoint (fun o' => cancelToken o' = Has tok)); auto.
  - intros o' n tra n1 a Io Ea.
    rewrite (attempt_with_cancelled_token _ _ tok r) in Ea; auto; [discriminate|].
    unfold mergeOptions. simpl. rewrite Io. reflexivity.
  - intros o' n tra n1 e trr res Io Ea _ [IH1 IH2].
    rewrite (attempt_with_cancelled_token _ _ tok r) in Ea; auto;
      [|unfold mergeOptions; simpl; rewrite Io; reflexivity].
    injection Ea as <- _ _. split; [|exact IH2].
    repeat constructor. exact IH1.
  - intros o' n tra n1 e post n2 r' Io Ea _ Ec.
    rewrite (attempt_with_cancelled_token _ _ tok r) in Ea; auto;
      [|unfold mergeOptions; simpl; rewrite Io; reflexivity].
    injection Ea as <- _ _. split; [|apply not_succeeded_as_outcome].
    repeat constructor.
    pose proof (error_interceptors_only_call w _ _ _ _ _ _ Ec) as Hpost.
    clear -Hpost. induction Hpost as [|ev post H _ IH]; constructor; auto.
    destruct ev; simpl in *; try congruence. reflexivity.
Qed.

(** [all]: without failure the data come back in input order; with one
    failure that error is returned. *)
Lemma collect_without_failure (results : list ApiResponse) :
  Forall (fun r => fst r = None) results ->
  collect results = (None, VArr (map snd results)).
Proof.
  intros H. unfold collect.
  assert (E : errors_of results = []).
  { unfold errors_of. induction H as [|[err d] l Hr _ IH]; [reflexivity|].
    simpl in *. subst err. simpl. exact IH. }
  rewrite E. reflexivity.
Qed.

Lemma collect_single_failure (results : list ApiResponse) (error : Thrown) :
  errors_of results = [error] -> collect results = (Some error, VNull).
Proof. intros E. unfold collect. rewrite E. reflexivity. Qed.

(** The number in the aggregate message is the position among the
    failures. *)
Lemma combinedMessage_of_two (e1 e2 : Thrown) :
  combinedMessage [e1; e2]
  = "Request 0: " +:+ or_string (message_of e1) "Unknown error"
    +:+ ("; " +:+ ("Request 1: " +:+ or_string (message_of e2) "Unknown error")).
Proof. reflexivity. Qed.

End General.

(** ** Runs on concrete platforms *)

Section Runs.

Import ApiClient Scenario.

(** C1, as stated, fails: a successful response with an empty body under
    [json] is returned with both slots null. *)
Lemma empty_json_body_leaves_both_slots_null :
  option_map completion
    (perform (scripted [ok ""] (XhrError 0)) client (Get "/a" Options.empty) 0%nat)
  = Some (Normal (None, VNull))
  /\ ~ exactly_one (None, VNull).
Proof.
  split; [vm_compute; reflexivity|].
  intros [[H _]|[_ H]]; apply H; reflexivity.
Qed.

(** C2: with the constructor's default budget of 0 and a per-call budget of
    3 with base delay 1000, the three back-off sleeps last 125, 250 and 500
    milliseconds, where the claim has 1000, 2000 and 4000. *)
Theorem backoff_counts_from_the_client_default_budget :
  option_map (fun r => map Qred (sleeps (events r)))
    (get (scripted [unreachable; unreachable; unreachable; ok "{}"] (XhrError 0))
         client "/a" (with_budget 3 1000) 0%nat)
  = Some [125; 250; 500]%Q.
Proof. vm_compute. reflexivity. Qed.

(** C3: three invocations of which the second and the third fail; the
    aggregate message numbers the failures 0 and 1, where the claim has the
    indices 1 and 2 of the failing invocations. *)
Theorem aggregate_message_numbers_the_failures :
  all [ret (None, VStr "first"); ret (Some (Error_ "A"), VNull); throw (Error_ "B")]
      0%nat
  = Some ([], 0%nat,
          Normal (Some (ApiError "Multiple requests failed: Request 0: A; Request 1: B"
                                 None VUndefined), VNull)).
Proof. vm_compute. reflexivity. Qed.

(** C5: a 200 response whose body is not JSON; the error returned has no
    response data, the raw text being dropped by the outer [catch]. *)
Theorem malformed_json_error_drops_the_raw_text :
  option_map completion
    (get (scripted [ok "nope"] (XhrError 0)) client "/a" Options.empty 0%nat)
  = Some (Normal
            (Some (ApiError
                     ("Failed to process response: "
                      +:+ "Failed to parse JSON response: Unexpected token in JSON")
                     (Some 200%Z) VUndefined),
             VNull)).
Proof. vm_compute. reflexivity. Qed.

(** C7: a token cancelled with the reason "timeout" and a budget of 2; no
    transport call is made, but the request is retried twice (three
    attempts, two sleeps) before the cancellation error is returned. *)
Theorem cancellation_reading_as_timeout_is_retried :
  let tok := fst (CancelToken.cancel (Some "timeout") CancelToken.create) in
  let result := get (scripted [] (XhrError 0)) client "/a"
                 (with_token tok (with_budget 2 1000)) 0%nat in
  option_map completion result
  = Some (Normal (Some (ApiError "Request canceled: timeout" None (VStr "timeout")),
                  VNull))
  /\ option_map (fun r => count is_dispatch (events r)) result = Some 0%nat
  /\ option_map (fun r => count is_attempt (events r)) result = Some 3%nat
  /\ option_map (fun r => count is_sleep (events r)) result = Some 2%nat.
Proof. vm_compute. repeat split. Qed.

End Runs.

(** ** The general statements at concrete inputs *)

Section Witnesses.

Import ApiClient Scenario.

(** A 404 answer to a call with a budget of 3: no retry; and a 503 failure
    is retryable with no retry codes configured at all. *)
Lemma client_error_witness :
  let w := scripted [failed 404] (XhrError 0) in
  let o := with_budget 3 1000 in
  let tra := [EvFetch (with_signal TimeoutSignal
                         (new_Request (url_of w client "/a" o) (mergeOptions client o)))] in
  (shouldRetry (status_failure 404 (VStr "nope"))
               (read (retryStatusCodes (mergeOptions client o))) = false
   /\ exists post n2 r',
        request 4 w client "/a" o 0%nat
        = Some (EvAttempt :: tra
                ++ EvErrorChain (status_failure 404 (VStr "nope")) :: post,
                n2, as_outcome r')
        /\ Forall (fun ev => is_interceptor_call ev = true) post)
  /\ shouldRetry (ApiError "unavailable" (Some 503%Z) VUndefined) None = true.
Proof.
  intros w o tra.
  apply (client_error_is_terminal_and_server_error_retryable
           w client "/a" o 3%nat 0%nat tra 1%nat 404%Z (VStr "nope")
           "unavailable" 503%Z VUndefined None).
  - lia.
  - intros l Hl. vm_compute in Hl. injection Hl as <-. simpl. lia.
  - vm_compute. reflexivity.
  - lia.
Defined.


End Witnesses.

(** * Further properties of the client

    Numerals below are natural numbers unless marked otherwise. *)

Local Close Scope Z_scope.

(** ** The cancel token over whole histories *)

Section TokenHistories.

Import CancelToken Readings.

(** A token that is either pending or has no callback left. *)
Lemma accounted_step (cs : list Call) :
  forall tok,
    (requested tok = true -> _callbacks tok = []) ->
    map fst (snd (calls cs tok)) ++ _callbacks (fst (calls cs tok))
    = _callbacks tok ++ registered_callbacks cs
    /\ Forall (fun n => exists r, snd n = Some r /\ truthy_string r = true)
              (snd (calls cs tok)).
Proof.
  induction cs as [|c cs IH]; intros tok Hinv.
  - simpl. rewrite app_nil_r. split; [reflexivity|constructor].
  - simpl. destruct c as [r|cb].
    + (* cancel *)
      simpl.
      destruct (IH {| _reason := Some (reason_or_default r); _callbacks := [] |})
        as [E F]; [reflexivity|].
      destruct (calls cs {| _reason := Some (reason_or_default r); _callbacks := [] |})
        as [tok2 ns2]. simpl in *.
      split.
      * rewrite List.map_app, List.map_map. simpl. rewrite List.map_id.
        rewrite <- List.app_assoc. f_equal. exact E.
      * apply Forall_app. split; [|exact F].
        apply Forall_map. apply Forall_forall. intros cb _. simpl.
        exists (reason_or_default r). split; [reflexivity|apply truthy_reason_or_default].
    + (* register *)
      simpl. unfold register.
      pose proof Hinv as Hinv'. revert Hinv'.
      destruct (requested tok) eqn:Hr'; intros Hinv'.
      * pose proof Hr' as Hr. pose proof (Hinv' eq_refl) as Hcb.
        destruct (IH tok (fun _ => Hcb)) as [E F].
        destruct (calls cs tok) as [tok2 ns2]. simpl in *.
        rewrite Hcb in *. simpl in *. split.
        -- rewrite E. reflexivity.
        -- constructor; [|exact F]. simpl.
           unfold requested in Hr. destruct (_reason tok) as [r|]; [|discriminate].
           exists r. split; [reflexivity|exact Hr].
      * destruct (IH {| _reason := _reason tok; _callbacks := _callbacks tok ++ [cb] |})
          as [E F].
        { unfold requested in *. simpl. rewrite Hr'. discriminate. }
        destruct (calls cs {| _reason := _reason tok; _callbacks := _callbacks tok ++ [cb] |})
          as [tok2 ns2]. simpl in *.
        split; [rewrite E, <- List.app_assoc; reflexivity|exact F].
Qed.

(** X1: over any history of [cancel] and [register] calls on a new token
    in which every registered callback returns without calling the token,
    the callbacks called so far followed by the callbacks still stored are
    exactly the registered callbacks in registration order: no
    registration is lost and none is answered twice, whether it came before
    or after a cancellation; and every call carries a non-empty reason. *)
Theorem every_registration_is_answered_once
    (behaviour : Callback -> Observers.Behaviour) (cs : list Call) :
  Forall (fun cb => behaviour cb = Observers.Returns) (registered_callbacks cs) ->
  exists tok ns,
    Observers.calls behaviour cs create = Some (tok, ns)
    /\ map fst ns ++ _callbacks tok = registered_callbacks cs
    /\ Forall (fun n => exists r, snd n = Some r /\ truthy_string r = true) ns.
Proof.
  intros H.
  exists (fst (calls cs create)), (snd (calls cs create)).
  split.
  - rewrite (calls_of_returning_callbacks behaviour cs create); [|constructor|exact H].
    destruct (calls cs create). reflexivity.
  - apply (accounted_step cs create). discriminate.
Qed.

(** Registrations before, between and after two cancellations. *)
Lemma every_registration_witness :
  exists tok ns,
    Observers.calls (fun _ => Observers.Returns)
      [Register 1; Register 2; Cancel (Some "first"); Register 3; Cancel None;
       Register 4]%nat create
    = Some (tok, ns)
    /\ map fst ns ++ _callbacks tok
       = registered_callbacks
           [Register 1; Register 2; Cancel (Some "first"); Register 3; Cancel None;
            Register 4]%nat
    /\ Forall (fun n => exists r, snd n = Some r /\ truthy_string r = true) ns.
Proof.
  apply (every_registration_is_answered_once (fun _ => Observers.Returns)
           [Register 1; Register 2; Cancel (Some "first"); Register 3; Cancel None;
            Register 4]%nat).
  repeat constructor.
Defined.

Lemma calls_without_cancel_keep_reason (cs : list Call) :
  forall tok,
    forallb (fun c => negb (is_cancel c)) cs = true ->
    _reason (fst (calls cs tok)) = _reason tok.
Proof.
  induction cs as [|c cs IH]; intros tok H; [reflexivity|].
  simpl in H. apply andb_true_iff in H as [Hc H].
  rewrite calls_cons_fst, (IH _ H).
  destruct c as [r|cb]; [discriminate|].
  simpl. unfold register. destruct (requested tok); reflexivity.
Qed.

(** X2: a callback registered after the token was cancelled is called at
    once, with the reason of the latest [cancel] (the default reason when
    that call gave none or an empty one), and is not stored. *)
Theorem late_registration_is_answered_at_once
    (before after : list Call) (r : option string) (cb : Callback) :
  forallb (fun c => negb (is_cancel c)) after = true ->
  let tok := fst (calls (before ++ Cancel r :: after) create) in
  _reason tok = Some (reason_or_default r)
  /\ register cb tok = (tok, [(cb, Some (reason_or_default r))]).
Proof.
  intros Hafter tok.
  assert (Hreason : _reason tok = Some (reason_or_default r)).
  { unfold tok. rewrite calls_app. cbn [fst]. rewrite calls_cons_fst.
    rewrite (calls_without_cancel_keep_reason after _ Hafter). reflexivity. }
  split; [exact Hreason|].
  destruct (settled_after_a_cancel before after r create) as [Hr _].
  fold tok in Hr. unfold register. rewrite Hr, Hreason. reflexivity.
Qed.

Lemma late_registration_witness :
  let tok := fst (calls ([Register 1; Cancel (Some "first")] ++ Cancel None
                         :: [Register 2])%nat create) in
  _reason tok = Some (reason_or_default None)
  /\ register 3%nat tok = (tok, [(3%nat, Some (reason_or_default None))]).
Proof.
  apply (late_registration_is_answered_at_once
           [Register 1; Cancel (Some "first")]%nat [Register 2]%nat None 3%nat).
  reflexivity.
Defined.

Lemma cancellation_message_is_recognised (r : string) :
  isCancellationError ("Request canceled: " +:+ r) = true.
Proof. reflexivity. Qed.

(** X3: [throwIfRequested] returns on a token whose history has no
    [cancel], and throws once it has one: an [ApiError] without status
    code, whose response data is the stored reason and whose message
    "Request canceled: <reason>" is recognised by [isCancellationError]. *)
Theorem throwIfRequested_follows_the_history (cs : list Call) :
  let tok := fst (calls cs create) in
  if existsb is_cancel cs
  then exists r,
         _reason tok = Some r
         /\ throwIfRequested tok
            = Throw (ApiError ("Request canceled: " +:+ r) None (VStr r))
         /\ isCancellationError ("Request canceled: " +:+ r) = true
  else throwIfRequested tok = Normal tt.
Proof.
  intros tok. destruct (existsb is_cancel cs) eqn:E.
  - apply existsb_exists in E as (c & Hin & Hc).
    destruct c as [r0|cb]; [|discriminate].
    apply in_split in Hin as (before & after & ->).
    destruct (settled_after_a_cancel before after r0 create) as [Hr _].
    fold tok in Hr. unfold requested in Hr.
    destruct (_reason tok) as [r|] eqn:Er; [|discriminate].
    exists r. split; [reflexivity|]. split; [|apply cancellation_message_is_recognised].
    unfold throwIfRequested. rewrite Er, Hr. reflexivity.
  - assert (H : forallb (fun c => negb (is_cancel c)) cs = true).
    { apply forallb_forall. intros c Hin.
      destruct (is_cancel c) eqn:Ec; [|reflexivity].
      assert (existsb is_cancel cs = true) by (apply existsb_exists; eauto).
      congruence. }
    unfold throwIfRequested, tok.
    rewrite (calls_without_cancel_keep_reason cs create H). reflexivity.
Qed.

End TokenHistories.

(** ** Joining a base URL and an endpoint *)

Section ResolveUrl.

Lemma substring_all (s : string) : String.substring 0 (String.length s) s = s.
Proof. induction s as [|a s IH]; simpl; [reflexivity|]. rewrite IH. reflexivity. Qed.

Lemma substring_last_of_app (b : string) (a : ascii) :
  String.substring (String.length b) 1 (b +:+ String a EmptyString) = String a EmptyString.
Proof. induction b as [|x b IH]; simpl; [reflexivity|exact IH]. Qed.

Lemma length_app_one (b : string) (a : ascii) :
  String.length (b +:+ String a EmptyString) = S (String.length b).
Proof. induction b as [|x b IH]; simpl; [reflexivity|]. rewrite IH. reflexivity. Qed.

Lemma endsWith_app_slash (b : string) : endsWith (b +:+ "/") "/" = true.
Proof.
  unfold endsWith. rewrite length_app_one. simpl String.length.
  replace (S (String.length b) - 1)%nat with (String.length b) by lia.
  rewrite substring_last_of_app. reflexivity.
Qed.

Lemma truthy_app_slash (b : string) : truthy_string (b +:+ "/") = true.
Proof. destruct b; reflexivity. Qed.

Lemma app_string_assoc (a b c : string) : (a +:+ b) +:+ c = a +:+ (b +:+ c).
Proof.
  induction a as [|x a IH]; [reflexivity|].
  change (String x ((a +:+ b) +:+ c) = String x (a +:+ (b +:+ c))).
  rewrite IH. reflexivity.
Qed.

Lemma startsWith_slash (e : string) : startsWith ("/" +:+ e) "/" = true.
Proof. destruct e; reflexivity. Qed.

Lemma drop_leading_slash (e : string) :
  String.substring 1 (String.length ("/" +:+ e) - 1) ("/" +:+ e) = e.
Proof.
  change ("/" +:+ e) with (String "/" e). simpl.
  rewrite Nat.sub_0_r. apply substring_all.
Qed.

Lemma resolveUrl_plain (endpoint baseUrl : string) :
  truthy_string baseUrl = true ->
  endsWith baseUrl "/" = false ->
  startsWith endpoint "/" = false ->
  resolveUrl endpoint baseUrl = baseUrl +:+ "/" +:+ endpoint.
Proof.
  intros Hb He Hs. unfold resolveUrl. rewrite Hb, He, Hs. simpl.
  apply app_string_assoc.
Qed.

(** X4: [resolveUrl] removes at most one slash and adds at most one.  For
    a non-empty base that does not end in a slash and an endpoint that does
    not start with one: the base with or without one trailing slash and the
    endpoint with or without one leading slash all resolve to base, one
    slash, endpoint.  A second slash is kept: an endpoint with two leading
    slashes, or a base with two trailing ones, resolves to base, two
    slashes, endpoint, and both together to three.  With an empty base the
    endpoint is returned as it is. *)
Theorem resolveUrl_puts_one_slash_at_the_seam (endpoint baseUrl : string) :
  truthy_string baseUrl = true ->
  endsWith baseUrl "/" = false ->
  startsWith endpoint "/" = false ->
  resolveUrl endpoint baseUrl = baseUrl +:+ "/" +:+ endpoint
  /\ resolveUrl ("/" +:+ endpoint) baseUrl = baseUrl +:+ "/" +:+ endpoint
  /\ resolveUrl endpoint (baseUrl +:+ "/") = baseUrl +:+ "/" +:+ endpoint
  /\ resolveUrl ("/" +:+ endpoint) (baseUrl +:+ "/") = baseUrl +:+ "/" +:+ endpoint
  /\ resolveUrl ("//" +:+ endpoint) baseUrl = baseUrl +:+ "//" +:+ endpoint
  /\ resolveUrl endpoint (baseUrl +:+ "//") = baseUrl +:+ "//" +:+ endpoint
  /\ resolveUrl ("//" +:+ endpoint) (baseUrl +:+ "//") = baseUrl +:+ "///" +:+ endpoint
  /\ resolveUrl endpoint "" = endpoint
  /\ resolveUrl ("/" +:+ endpoint) "" = "/" +:+ endpoint.
Proof.
  intros Hb He Hs.
  assert (H2 : forall s : string, "//" +:+ s = "/" +:+ ("/" +:+ s)) by reflexivity.
  assert (Hb2 : baseUrl +:+ "//" = (baseUrl +:+ "/") +:+ "/").
  { rewrite app_string_assoc. reflexivity. }
  repeat split.
  - apply resolveUrl_plain; assumption.
  - unfold resolveUrl.
    rewrite Hb, He, startsWith_slash, drop_leading_slash. simpl.
    apply app_string_assoc.
  - unfold resolveUrl. rewrite truthy_app_slash, endsWith_app_slash, Hs. simpl.
    apply app_string_assoc.
  - unfold resolveUrl.
    rewrite truthy_app_slash, endsWith_app_slash, startsWith_slash, drop_leading_slash.
    simpl. apply app_string_assoc.
  - unfold resolveUrl.
    rewrite Hb, He, H2, startsWith_slash, drop_leading_slash. simpl.
    rewrite app_string_assoc. reflexivity.
  - unfold resolveUrl.
    rewrite Hb2, truthy_app_slash, endsWith_app_slash, Hs. simpl.
    rewrite !app_string_assoc. reflexivity.
  - unfold resolveUrl.
    rewrite Hb2, truthy_app_slash, endsWith_app_slash, H2, startsWith_slash,
      drop_leading_slash. simpl.
    rewrite !app_string_assoc. reflexivity.
Qed.

Lemma resolveUrl_witness :
  resolveUrl "users" "https://api.example.com" = "https://api.example.com/users"
  /\ resolveUrl "/users" "https://api.example.com" = "https://api.example.com/users"
  /\ resolveUrl "users" "https://api.example.com/" = "https://api.example.com/users"
  /\ resolveUrl "/users" "https://api.example.com/" = "https://api.example.com/users"
  /\ resolveUrl "//users" "https://api.example.com" = "https://api.example.com//users"
  /\ resolveUrl "users" "https://api.example.com//" = "https://api.example.com//users"
  /\ resolveUrl "//users" "https://api.example.com//" = "https://api.example.com///users"
  /\ resolveUrl "users" "" = "users"
  /\ resolveUrl "/users" "" = "/users".
Proof.
  apply (resolveUrl_puts_one_slash_at_the_seam "users" "https://api.example.com");
    reflexivity.
Defined.

End ResolveUrl.

(** ** Default headers, derived clients and registrations *)

Section ClientConfiguration.

Import ApiClient Configuration Readings.

Lemma merged_headers (c : t) (o : RequestOptions) (u : string) :
  init_headers (new_Request u (mergeOptions c o))
  = spread_headers (headers o) ∪ spread_headers (headers (defaultOptions c)).
Proof. reflexivity. Qed.




Lemma spread_assoc {A} (a b c : OwnProp A) :
  spread a (spread b c) = spread (spread a b) c.
Proof. destruct c; reflexivity. Qed.

(** Object spread is associative. *)
Lemma spreadOptions_assoc (a b c : RequestOptions) :
  spreadOptions a (spreadOptions b c) = spreadOptions (spreadOptions a b) c.
Proof. unfold spreadOptions. simpl. rewrite !spread_assoc. reflexivity. Qed.

(** X6: a client made by [create] from a parent whose defaults include
    the constructor's defaults (as those of every constructed client do)
    has the parent's default options overridden key by key by the options
    of the config, the config's base URL or else the parent's, and none of
    the parent's interceptors: only a new logging error interceptor. *)
Theorem created_client_inherits_defaults_not_interceptors
    (config : Config) (parent : t) :
  spreadOptions constructor_defaults (defaultOptions parent) = defaultOptions parent ->
  let child := create config parent in
  defaultOptions child
  = spreadOptions (defaultOptions parent) (default Options.empty (config_options config))
  /\ baseUrl child = or_string (config_baseUrl config) (baseUrl parent)
  /\ requestInterceptors child = []
  /\ responseInterceptors child = []
  /\ errorInterceptors child = [ConsoleLogger].
Proof.
  intros H child. repeat split.
  unfold child, create, new. cbn [defaultOptions].
  rewrite spreadOptions_assoc, H. reflexivity.
Qed.

Lemma created_client_witness :
  let parent := addRequestInterceptor 7 (setHeader "X-Key" "k" Scenario.client) in
  let config := {| config_baseUrl := None;
                   config_options := Some (Scenario.with_budget 2 500) |} in
  let child := create config parent in
  defaultOptions child
  = spreadOptions (defaultOptions parent) (default Options.empty (config_options config))
  /\ baseUrl child = or_string (config_baseUrl config) (baseUrl parent)
  /\ requestInterceptors child = []
  /\ responseInterceptors child = []
  /\ errorInterceptors child = [ConsoleLogger].
Proof.
  intros parent config.
  apply (created_client_inherits_defaults_not_interceptors config parent).
  reflexivity.
Defined.

Lemma registration_keeps_logger_first (r : Registration) (c : t) (rest : list ErrorInterceptor) :
  is_clear r = false ->
  errorInterceptors c = ConsoleLogger :: rest ->
  exists rest', errorInterceptors (registration r c) = ConsoleLogger :: rest'.
Proof.
  intros Hr Hc. destruct r; simpl; try (exists rest; exact Hc); [| |discriminate].
  - exists (rest ++ [UserErrorInterceptor interceptor]). rewrite Hc. reflexivity.
  - rewrite Hc. rewrite filter_cons_True by discriminate. eauto.
Qed.

Lemma registrations_keep_logger_first (l : list Registration) :
  forall c rest,
    forallb (fun r => negb (is_clear r)) l = true ->
    errorInterceptors c = ConsoleLogger :: rest ->
    exists rest', errorInterceptors (registrations l c) = ConsoleLogger :: rest'.
Proof.
  induction l as [|r l IH]; intros c rest Hl Hc; [exists rest; exact Hc|].
  simpl in Hl. apply andb_true_iff in Hl as [Hr Hl].
  apply negb_true_iff in Hr.
  destruct (registration_keeps_logger_first r c rest Hr Hc) as [rest' Hc'].
  exact (IH (registration r c) rest' Hl Hc').
Qed.

(** X7: the logging error interceptor the constructor registers stays the
    first error interceptor through any registrations and removals made
    with the removal functions; only [clearInterceptors] removes it. *)
Theorem logger_survives_every_removal
    (baseUrl : string) (d : RequestOptions) (l : list Registration) :
  forallb (fun r => negb (is_clear r)) l = true ->
  (exists rest,
     errorInterceptors (registrations l (new baseUrl d)) = ConsoleLogger :: rest)
  /\ errorInterceptors (registrations (l ++ [ClearInterceptors]) (new baseUrl d)) = [].
Proof.
  intros Hl. split.
  - apply (registrations_keep_logger_first l (new baseUrl d) []); [exact Hl|reflexivity].
  - unfold registrations. rewrite fold_left_app. reflexivity.
Qed.

Lemma logger_survives_witness :
  (exists rest,
     errorInterceptors
       (registrations [AddError 1; AddRequest 2; RemoveError 1; RemoveError 9; AddError 3]%nat
                      (new "https://api.example.com" Options.empty))
     = ConsoleLogger :: rest)
  /\ errorInterceptors
       (registrations ([AddError 1; AddRequest 2; RemoveError 1; RemoveError 9; AddError 3]%nat
                       ++ [ClearInterceptors])
                      (new "https://api.example.com" Options.empty)) = [].
Proof.
  apply (logger_survives_every_removal "https://api.example.com" Options.empty
           [AddError 1; AddRequest 2; RemoveError 1; RemoveError 9; AddError 3]%nat).
  reflexivity.
Defined.

Lemma registered_is_the_client_list (l : list Chain.Action) :
  forall c,
    requestInterceptors (registrations (as_registrations l) c)
    = Chain.registered l (requestInterceptors c).
Proof.
  induction l as [|a l IH]; intros c; [reflexivity|].
  unfold Chain.registered in *.
  destruct a as [i|i| | |k]; simpl; apply IH.
Qed.

(** X8: whatever loops of running requests are interleaved with them, the
    array the client's field holds after a sequence of registrations,
    removals and clearings of the request chain is the list these calls
    produce one after the other on a new client. *)
Theorem field_array_is_the_registered_list
    (l : list Chain.Action) (baseUrl : string) (d : RequestOptions) :
  Chain.current (Chain.acts l Chain.new)
  = requestInterceptors (registrations (as_registrations l) (new baseUrl d)).
Proof.
  rewrite registered_is_the_client_list.
  apply (current_acts l Chain.new). simpl. lia.
Qed.

End ClientConfiguration.

(** ** Interceptor chains in order *)

Section ChainOrder.

Import ApiClient Readings.

Context (w : World).

Lemma request_chain_app (l1 l2 : list nat) :
  forall r n,
    applyRequestInterceptors_from w (l1 ++ l2) r n
    = bind (applyRequestInterceptors_from w l1 r)
           (applyRequestInterceptors_from w l2) n.
Proof.
  induction l1 as [|i l1 IH]; intros r n.
  - simpl. unfold bind, ret.
    destruct (applyRequestInterceptors_from w l2 r n) as [[[tr n'] res]|]; reflexivity.
  - simpl. unfold bind, emit, lift.
    destruct (requestInterceptor w i r) as [r'|e]; [|reflexivity].
    rewrite IH. unfold bind.
    destruct (applyRequestInterceptors_from w l1 r' n) as [[[tr1 n1] [a|e]]|];
      [|reflexivity|reflexivity].
    destruct (applyRequestInterceptors_from w l2 a n1) as [[[tr2 n2] res]|]; reflexivity.
Qed.

Lemma request_chain_all_return (f : nat -> Request -> Request) (l : list nat) :
  forall r n,
    (forall i rq, In i l -> requestInterceptor w i rq = Normal (f i rq)) ->
    applyRequestInterceptors_from w l r n
    = Some (request_interceptor_events l, n,
            Normal (fold_left (fun rq i => f i rq) l r)).
Proof.
  induction l as [|i l IH]; intros r n H; [reflexivity|].
  simpl. unfold bind, emit, lift.
  rewrite (H i r (or_introl eq_refl)).
  rewrite (IH (f i r) n) by (intros; apply H; right; assumption).
  reflexivity.
Qed.

(** X9: request interceptors run in registration order, each on the
    request the one before returned.  While they return, the chain
    returns the result of the last one and each has been called once; the
    first one that throws ends the chain with what it threw, and the
    interceptors registered after it are not called. *)
Theorem request_chain_runs_in_order_and_stops_at_a_throw
    (f : nat -> Request -> Request) (l : list nat) (r : Request) (n : nat) :
  (forall i rq, In i l -> requestInterceptor w i rq = Normal (f i rq)) ->
  applyRequestInterceptors_from w l r n
  = Some (request_interceptor_events l, n,
          Normal (fold_left (fun rq i => f i rq) l r))
  /\ forall i later e,
       requestInterceptor w i (fold_left (fun rq i => f i rq) l r) = Throw e ->
       applyRequestInterceptors_from w (l ++ i :: later) r n
       = Some (request_interceptor_events (l ++ [i]), n, Throw e).
Proof.
  intros H. split; [apply request_chain_all_return, H|].
  intros i later e Hi.
  rewrite request_chain_app. unfold bind at 1.
  rewrite (request_chain_all_return f l r n H).
  simpl. unfold bind, emit, lift. rewrite Hi.
  unfold request_interceptor_events. rewrite List.map_app. reflexivity.
Qed.

End ChainOrder.

(** ** The retry loop, with the options of each turn *)

Section RequestRuleWithOptions.

Import ApiClient.

Context (w : World) (c : t) (endpoint : string).
Context (I : RequestOptions -> Prop).
Context (Q : RequestOptions -> list Event -> Completion ApiResponse -> Prop).

Hypothesis I_next :
  forall o, I o -> I (with_retries (Has (budget c o - 1)%nat) o).

Hypothesis turn_returned :
  forall o n tra n1 a,
    I o ->
    attempt w c (url_of w c endpoint o) (mergeOptions c o) n = Some (tra, n1, Normal a) ->
    Q o (EvAttempt :: tra) (Normal a).

Hypothesis turn_retried :
  forall o n tra n1 e trr r,
    I o ->
    attempt w c (url_of w c endpoint o) (mergeOptions c o) n = Some (tra, n1, Throw e) ->
    retried c o e = true ->
    Q (with_retries (Has (budget c o - 1)%nat) o) trr r ->
    Q o (EvAttempt :: tra ++ EvSleep (delay_of c o) :: trr) r.

Hypothesis turn_terminal :
  forall o n tra n1 e post n2 r',
    I o ->
    attempt w c (url_of w c endpoint o) (mergeOptions c o) n = Some (tra, n1, Throw e) ->
    retried c o e = false ->
    applyErrorInterceptors_from w (errorInterceptors c) (as_Error e) n1
      = Some (post, n2, r') ->
    Q o (EvAttempt :: tra ++ EvErrorChain (as_Error e) :: post) (as_outcome r').

Lemma request_rule_with_options :
  forall bound o, I o -> satisfies (request bound w c endpoint o) (Q o).
Proof.
  induction bound as [|b IH]; intros o Io n tr n' r E; [discriminate|].
  cbn [request] in E. unfold bind at 1 in E. unfold emit in E.
  unfold try_catch in E.
  fold (url_of w c endpoint o) in E.
  destruct (attempt w c (url_of w c endpoint o) (mergeOptions c o) n)
    as [[[tra n1] [a|e]]|] eqn:Ea; [| |discriminate].
  - injection E as <- <- <-. simpl. eapply turn_returned; eauto.
  - fold (budget c o) in E. fold (retried c o e) in E.
    destruct (retried c o e) eqn:Er.
    + unfold retryRequest, bind, emit in E.
      fold (budget c o) in E. fold (delay_of c o) in E.
      destruct (request b w c endpoint _ n1) as [[[trr n2] rr]|] eqn:Erec; [|discriminate].
      injection E as <- <- <-. simpl.
      eapply turn_retried; eauto.
      eapply IH; [|exact Erec]. apply I_next, Io.
    + unfold applyErrorInterceptors, bind, emit, ret in E.
      destruct (applyErrorInterceptors_from w (errorInterceptors c) (as_Error e) n1)
        as [[[post n2] [pe|x]]|] eqn:Ec; [| |discriminate].
      * injection E as <- <- <-. simpl. rewrite app_nil_r.
        apply (turn_terminal o n tra n1 e post n2 (Normal pe)); auto.
      * injection E as <- <- <-. simpl.
        apply (turn_terminal o n tra n1 e post n2 (Throw x)); auto.
Qed.

End RequestRuleWithOptions.

(** ** Counting attempts, sleeps and dispatches *)

Section Counting.

Import ApiClient Readings.

Lemma count_app (p : Event -> bool) (a b : list Event) :
  count p (a ++ b) = (count p a + count p b)%nat.
Proof. unfold count. rewrite List.filter_app, length_app. reflexivity. Qed.

Lemma count_cons (p : Event -> bool) (ev : Event) (tr : list Event) :
  count p (ev :: tr) = ((if p ev then 1 else 0) + count p tr)%nat.
Proof. unfold count. simpl. destruct (p ev); reflexivity. Qed.

Lemma count_never (p : Event -> bool) (tr : list Event) :
  never p tr -> count p tr = 0%nat.
Proof.
  induction 1 as [|ev tr H _ IH]; [reflexivity|].
  rewrite count_cons, H, IH. reflexivity.
Qed.

Lemma never_of (p : Event -> bool) (P : Event -> Prop) (tr : list Event) :
  (forall ev, P ev -> p ev = false) -> Forall P tr -> never p tr.
Proof. intros H F. eapply Forall_impl; [exact F|exact H]. Qed.

Context (w : World) (c : t).






Lemma chain_run_counts (l : list ErrorInterceptor) (e : Thrown) (n : nat)
    (post : list Event) (n2 : nat) (r : Completion Thrown) (p : Event -> bool) :
  (forall i, p (EvErrorInterceptor i) = false) ->
  applyErrorInterceptors_from w l e n = Some (post, n2, r) ->
  count p post = 0%nat.
Proof.
  intros Hp E. apply count_never.
  pose proof (error_interceptors_only_call w l e n post n2 r E) as H.
  eapply never_of; [|exact H].
  intros ev Hev. destruct ev; try discriminate. apply Hp.
Qed.



End Counting.

(** ** The back-off delays of a request *)

Section Backoff.

Import ApiClient Readings.

Context (w : World) (c : t).







End Backoff.

(** ** Network failures, timeouts and the error chain that never throws *)

Section Failures.

Import ApiClient Configuration Readings.

Context (w : World) (c : t).

Lemma attempt_on_a_dead_network (message u : string) (mo : RequestOptions) (n : nat) :
  (forall k rq, fetch w k rq = Throw (TypeError message)) ->
  requestInterceptors c = [] ->
  read (cancelToken mo) = None ->
  takes_xhr_path mo = false ->
  construct_Request w u mo = Normal (new_Request u mo) ->
  throttle w u mo = Normal tt ->
  exists rq, attempt w c u mo n = Some ([EvFetch rq], S n, Throw (TypeError message)).
Proof.
  intros Hdead Hnil Htok Hxhr Hrq Hurl.
  unfold attempt. rewrite Htok, Hxhr.
  unfold over_fetch, applyRequestInterceptors. rewrite Hnil, Hrq, Hurl.
  cbn [applyRequestInterceptors_from].
  unfold bind at 1. unfold ret at 1.
  unfold bind at 1. unfold lift at 1.
  unfold bind at 1. unfold ret at 1.
  unfold bind at 1. unfold ret at 1.
  unfold bind at 1. unfold lift at 1.
  unfold bind at 1.
  destruct (tracks_progress mo).
  - unfold fetchWithProgressTracking, try_catch, fetch_call. rewrite Hdead.
    eexists. reflexivity.
  - unfold fetchWithTimeout. destruct (negb _).
    + unfold fetch_call. rewrite Hdead. eexists. reflexivity.
    + unfold try_catch, fetch_call. rewrite Hdead. eexists. reflexivity.
Qed.

(** X12: take a request over [fetch] without request interceptors and
    without cancel token, whose [Request] the platform constructs (the URL
    is one, and there is no body on GET or HEAD) and whose URL, for GET,
    [new URL] accepts.  When the transport fails every dispatch with a
    [TypeError] (no response obtained), the request is retried until its
    budget is used up: it makes exactly budget + 1 transport calls and
    budget sleeps, and then passes that [TypeError] to the error chain. *)
Theorem network_failure_is_retried_until_the_budget_is_used_up
    (message endpoint : string) (o : RequestOptions) (n : nat) :
  (forall k rq, fetch w k rq = Throw (TypeError message)) ->
  requestInterceptors c = [] ->
  read (cancelToken (mergeOptions c o)) = None ->
  takes_xhr_path (mergeOptions c o) = false ->
  Request_refused w (new_Request (url_of w c endpoint o) (mergeOptions c o)) = None ->
  body_on_GET_or_HEAD (mergeOptions c o) = false ->
  throttle w (url_of w c endpoint o) (mergeOptions c o) = Normal tt ->
  exists tr n' r',
    pipeline w c endpoint o n = Some (tr, n', as_outcome r')
    /\ count is_fetch tr = S (budget c o)
    /\ count is_sleep tr = budget c o
    /\ In (EvErrorChain (TypeError message)) tr.
Proof.
  intros Hdead Hnil Htok Hxhr Hreq Hbody Hurl.
  assert (Hrq : construct_Request w (url_of w c endpoint o) (mergeOptions c o)
                = Normal (new_Request (url_of w c endpoint o) (mergeOptions c o))).
  { unfold construct_Request. rewrite Hreq, Hbody. reflexivity. }
  destruct (pipeline_total w c endpoint o n) as [[[tr n'] r] E].
  assert (H : (exists r', r = as_outcome r')
              /\ count is_fetch tr = S (budget c o)
              /\ count is_sleep tr = budget c o
              /\ In (EvErrorChain (TypeError message)) tr).
  { revert n tr n' r E.
    apply (request_rule_with_options w c endpoint
             (fun o => read (cancelToken (mergeOptions c o)) = None
                       /\ takes_xhr_path (mergeOptions c o) = false
                       /\ construct_Request w (url_of w c endpoint o) (mergeOptions c o)
                          = Normal (new_Request (url_of w c endpoint o) (mergeOptions c o))
                       /\ throttle w (url_of w c endpoint o) (mergeOptions c o) = Normal tt)
             (fun o tr r =>
                (exists r', r = as_outcome r')
                /\ count is_fetch tr = S (budget c o)
                /\ count is_sleep tr = budget c o
                /\ In (EvErrorChain (TypeError message)) tr)); auto.
    - intros o' n tra n1 a (H1 & H2 & H3 & H4) Ea.
      destruct (attempt_on_a_dead_network message (url_of w c endpoint o')
                  (mergeOptions c o') n Hdead Hnil H1 H2 H3 H4) as [rq Erq].
      rewrite Erq in Ea. discriminate.
    - intros o' n tra n1 e trr r (H1 & H2 & H3 & H4) Ea Hre (Hr & Hf & Hs & Hin).
      destruct (attempt_on_a_dead_network message (url_of w c endpoint o')
                  (mergeOptions c o') n Hdead Hnil H1 H2 H3 H4) as [rq Erq].
      rewrite Erq in Ea. injection Ea as <- _ <-.
      rewrite budget_with_retries in Hf, Hs.
      unfold retried in Hre. apply andb_true_iff in Hre as [Hb _].
      apply Nat.ltb_lt in Hb.
      split; [exact Hr|].
      rewrite !count_cons, !count_app, !count_cons. simpl.
      split; [lia|]. split; [lia|].
      right. right. right. exact Hin.
    - intros o' n tra n1 e post n2 r' (H1 & H2 & H3 & H4) Ea Hre Ec.
      destruct (attempt_on_a_dead_network message (url_of w c endpoint o')
                  (mergeOptions c o') n Hdead Hnil H1 H2 H3 H4) as [rq Erq].
      rewrite Erq in Ea. injection Ea as <- _ <-.
      unfold retried in Hre. simpl in Hre. rewrite andb_true_r in Hre.
      apply Nat.ltb_ge in Hre.
      split; [eauto|].
      rewrite !count_cons, !count_app, !count_cons. simpl.
      rewrite !(chain_run_counts w _ _ _ _ _ _ _ (fun _ => eq_refl) Ec).
      split; [lia|]. split; [lia|].
      right. right. left. reflexivity. }
  destruct H as ([r' ->] & Hf & Hs & Hin).
  exists tr, n', r'. auto.
Qed.



End Failures.

Section Timeouts.

Import ApiClient.

Context (w : World).

Lemma timeout_message_reads_as_timeout (t : option Z) :
  isTimeoutError ("Request timed out after " +:+ template_number t +:+ "ms") = true.
Proof. unfold isTimeoutError. apply orb_true_iff. right. reflexivity. Qed.

(** X14: [fetchWithTimeout] makes one transport call.  Without a timeout
    (none, or 0) it passes the request on unchanged and its completion is
    the transport's.  With a timeout, an [AbortError] of the transport
    becomes a plain [Error] "Request timed out after <timeout>ms": its
    message reads as a timeout, but, not being an [ApiError],
    [shouldRetry] does not retry it, whatever the retry codes. *)
Theorem fetch_timeout_is_a_plain_error_that_is_not_retried
    (request : Request) (t : Z) (abort_message : string) (n : nat)
    (codes : option (list Z)) :
  t <> 0%Z ->
  fetch w n (with_signal TimeoutSignal request)
    = Throw (DOMException "AbortError" abort_message) ->
  let timed_out := Error_ ("Request timed out after " +:+ String_of t +:+ "ms") in
  fetchWithTimeout w request (Some t) n
    = Some ([EvFetch (with_signal TimeoutSignal request)], S n, Throw timed_out)
  /\ isTimeoutError (message_or_String timed_out) = true
  /\ shouldRetry timed_out codes = false
  /\ fetchWithTimeout w request None n = Some ([EvFetch request], S n, fetch w n request)
  /\ fetchWithTimeout w request (Some 0%Z) n
     = Some ([EvFetch request], S n, fetch w n request).
Proof.
  intros Ht Habort timed_out. repeat split.
  2: exact (timeout_message_reads_as_timeout (Some t)).
  unfold fetchWithTimeout. simpl. unfold truthy_number.
  destruct (Z.eqb_spec t 0) as [->|_]; [contradiction|]. simpl.
  unfold try_catch, fetch_call. rewrite Habort. reflexivity.
Qed.

End Timeouts.

(** ** The XMLHttpRequest path *)

Section XhrPath.

Import ApiClient.

Context (w : World) (c : t).

(** A request that takes the XMLHttpRequest path with a token that is not
    cancelled, when the transport settles: one attempt, one transport call
    with the merged method (GET when there is none), and the tuple the
    transport settled to. *)
Lemma xhr_path_run
    (endpoint : string) (o : RequestOptions) (n : nat) :
  takes_xhr_path (mergeOptions c o) = true ->
  (forall tok, read (cancelToken (mergeOptions c o)) = Some tok ->
               CancelToken.requested tok = false) ->
  pipeline w c endpoint o n
  = Some ([EvAttempt;
           EvXhrSend (url_of w c endpoint o)
                     (or_string (read (method (mergeOptions c o))) "GET")
                     (read (body (mergeOptions c o)))],
          S n,
          Normal (settle w (mergeOptions c o)
                         (xhr w n (url_of w c endpoint o) (mergeOptions c o)))).
Proof.
  intros Hxhr Htok.
  assert (Ea : attempt w c (url_of w c endpoint o) (mergeOptions c o) n
               = Some ([EvXhrSend (url_of w c endpoint o)
                                  (or_string (read (method (mergeOptions c o))) "GET")
                                  (read (body (mergeOptions c o)))],
                       S n,
                       Normal (settle w (mergeOptions c o)
                                 (xhr w n (url_of w c endpoint o) (mergeOptions c o))))).
  { unfold attempt. rewrite Hxhr.
    destruct (read (cancelToken (mergeOptions c o))) as [tok|] eqn:Et.
    - specialize (Htok tok eq_refl).
      unfold CancelToken.throwIfRequested, CancelToken.requested in *.
      destruct (CancelToken._reason tok) as [r|]; [rewrite Htok|]; reflexivity.
    - reflexivity. }
  unfold pipeline. cbn [request]. unfold bind at 1. unfold emit, try_catch.
  fold (url_of w c endpoint o). rewrite Ea. reflexivity.
Qed.

(** C9: the error chain is not applied once per failed request.  A request
    that takes the XMLHttpRequest path ([useXMLHttpRequest] with a progress
    callback), with a token that is not cancelled and no query parameters,
    and whose transport settles to a failure (a network error, a timeout, a
    cancellation, a rejected status or an undecodable body), makes one
    attempt and returns that failure as it is: the run has no application
    of the error chain and no delay, whatever the retry budget and the
    registered error interceptors.  When the failure is the transport's
    timeout, it is one [shouldRetry] would have retried. *)
Theorem xhr_failure_is_returned_without_retry_or_error_chain
    (endpoint : string) (o : RequestOptions) (n : nat)
    (error : Thrown) (data : Value) :
  takes_xhr_path (mergeOptions c o) = true ->
  (forall tok, read (cancelToken (mergeOptions c o)) = Some tok ->
               CancelToken.requested tok = false) ->
  default [] (read (params (mergeOptions c o))) = [] ->
  settle w (mergeOptions c o) (xhr w n (url_of w c endpoint o) (mergeOptions c o))
    = (Some error, data) ->
  let tr := [EvAttempt;
             EvXhrSend (url_of w c endpoint o)
                       (or_string (read (method (mergeOptions c o))) "GET")
                       (read (body (mergeOptions c o)))] in
  pipeline w c endpoint o n = Some (tr, S n, Normal (Some error, data))
  /\ data = VNull
  /\ count is_attempt tr = 1%nat
  /\ never is_sleep tr
  /\ never is_chain tr
  /\ ~ chain_applied_once_at_end tr
  /\ (forall status,
        xhr w n (url_of w c endpoint o) (mergeOptions c o) = XhrTimeout status ->
        shouldRetry error (read (retryStatusCodes (mergeOptions c o))) = true).
Proof.
  intros Hxhr Htok _ Hsettle tr.
  split; [|split; [|split; [|split; [|split; [|split]]]]].
  - unfold tr. rewrite (xhr_path_run endpoint o n Hxhr Htok), Hsettle. reflexivity.
  - revert Hsettle. unfold settle, onload.
    destruct (xhr w n (url_of w c endpoint o) (mergeOptions c o)) as [st txt resp|st|st|rs];
      try (intros H; injection H as _ <-; reflexivity).
    repeat match goal with
           | |- context [match ?x with _ => _ end] => destruct x
           end;
      intros H; try discriminate H; injection H as _ <-; reflexivity.
  - reflexivity.
  - repeat constructor.
  - repeat constructor.
  - intros (pre & e & post & H & _).
    destruct pre as [|ev1 [|ev2 [|ev3 pre]]]; simpl in H; discriminate.
  - intros status Hout. rewrite Hout in Hsettle. unfold settle in Hsettle.
    injection Hsettle as <- _. unfold shouldRetry. cbn [instanceof_TypeError].
    rewrite timeout_message_reads_as_timeout.
    repeat match goal with
           | |- context [if ?x then _ else _] => destruct x
           end; reflexivity.
Qed.

(** X16: a response whose status the predicate rejects and whose body is
    not JSON although its content type says so.  Over [fetch] the status
    is judged first: the failure thrown is the status failure, with the
    status text as response data.  Over XMLHttpRequest the body is decoded
    first: the tuple holds the parser's error and the status is not
    reported. *)
Theorem rejected_status_with_undecodable_body
    (mo : RequestOptions) (response : Response) (contentType : string)
    (valid : Z -> bool) (e : Thrown) (xhr_response : Value) (n : nat) :
  read (validateStatus mo) = Some valid ->
  valid (status response) = false ->
  content_type response = Some contentType ->
  includes contentType "application/json" = true ->
  truthy_string (response_body response) = true ->
  JSON_parse w (response_body response) = Throw e ->
  default json (read (responseType mo)) = json ->
  check_status w c mo response n
  = Some ([], n, Throw (status_failure (status response) (VStr (statusText response))))
  /\ onload w mo (status response) (response_body response) xhr_response
     = (Some (as_Error e), VNull).
Proof.
  intros Hv Hrej Hct Hinc Hbody Hparse Hrt. split.
  - unfold check_status. rewrite Hv, Hrej. simpl.
    unfold errorData_of. rewrite Hct, Hinc, Hparse.
    assert (Ht : truthy_string contentType = true).
    { destruct contentType; [discriminate|reflexivity]. }
    rewrite Ht. reflexivity.
  - unfold onload. rewrite Hrt, Hbody, Hparse. reflexivity.
Qed.

End XhrPath.

(** ** [all] *)

Section FanOut.

Import ApiClient Readings.

Lemma settle_each_spec (requests : list (M ApiResponse)) :
  Forall total requests ->
  forall n,
    exists tr n' results,
      settle_each requests n = Some (tr, n', Normal results)
      /\ Forall2 (fun request result =>
                    exists n1 tr1 n2 r,
                      request n1 = Some (tr1, n2, r) /\ result = settled_as r)
                 requests results.
Proof.
  induction 1 as [|request rest Ht _ IH]; intros n.
  - exists [], n, []. split; [reflexivity|constructor].
  - destruct (Ht n) as [[[tr1 n1] r1] E1].
    destruct (IH n1) as (tr2 & n2 & results & E2 & F).
    exists (tr1 ++ tr2), n2, (settled_as r1 :: results). split.
    + simpl. unfold bind at 1. unfold try_catch. rewrite E1.
      destruct r1 as [a|e]; simpl.
      * unfold bind at 1. rewrite E2. unfold ret. rewrite app_nil_r. reflexivity.
      * unfold ret at 1. unfold bind at 1. rewrite E2. unfold ret.
        rewrite !app_nil_r. reflexivity.
    + constructor; [|exact F]. exists n, tr1, n1, r1. split; [exact E1|reflexivity].
Qed.

Lemma call_each_promises (promises : list (M ApiResponse)) :
  call_each (map ReturnsPromise promises) = (promises, None).
Proof.
  induction promises as [|p l IH]; [reflexivity|]. simpl. rewrite IH. reflexivity.
Qed.

Lemma call_each_up_to_a_throw (promises : list (M ApiResponse)) (e : Thrown)
    (rest : list Invocation) :
  call_each (map ReturnsPromise promises ++ ThrowsWhenCalled e :: rest)
  = (promises, Some e).
Proof.
  induction promises as [|p l IH]; [reflexivity|]. simpl. rewrite IH. reflexivity.
Qed.

Lemma collect_with_failure (results : list ApiResponse) :
  errors_of results <> [] ->
  fst (collect results) <> None /\ snd (collect results) = VNull.
Proof.
  intros H. unfold collect.
  destruct (errors_of results) as [|e1 [|e2 es]]; [contradiction| |];
    simpl; split; congruence.
Qed.

(** X17: [all] of functions that return promises which all settle never
    throws and never stops early: every function is called, in input
    order, and a promise that rejects counts as a failed one.  When none
    failed the tuple holds the data of all of them in input order (the
    empty array for no function at all); when exactly one failed it holds
    that one's own error; whenever one failed it holds an error and no
    data.  When one of the functions throws instead of returning a
    promise, the functions after it are not called: the events are those
    of the promises made before it, and the tuple holds what was thrown,
    as an [Error], and no data. *)
Theorem all_runs_every_invocation_and_collects
    (promises : list (M ApiResponse)) (n : nat) :
  Forall total promises ->
  all_of (map ReturnsPromise promises) = all promises
  /\ (exists tr n' results,
        all promises n = Some (tr, n', Normal (collect results))
        /\ Forall2 (fun promise result =>
                      exists n1 tr1 n2 r,
                        promise n1 = Some (tr1, n2, r) /\ result = settled_as r)
                   promises results
        /\ (Forall (fun result => fst result = None) results ->
            collect results = (None, VArr (map snd results)))
        /\ (forall e, errors_of results = [e] -> collect results = (Some e, VNull))
        /\ (errors_of results <> [] ->
            fst (collect results) <> None /\ snd (collect results) = VNull))
  /\ (forall e rest,
        exists tr n' results,
          settle_each promises n = Some (tr, n', Normal results)
          /\ all_of (map ReturnsPromise promises ++ ThrowsWhenCalled e :: rest) n
             = Some (tr, n', Normal (Some (as_Error e), VNull))).
Proof.
  intros Ht.
  destruct (settle_each_spec promises Ht n) as (tr & n' & results & E & F).
  split; [|split].
  - unfold all_of. rewrite call_each_promises. reflexivity.
  - exists tr, n', results. split; [|split; [exact F|split; [|split]]].
    + unfold all, try_catch, bind. rewrite E. unfold ret. rewrite app_nil_r. reflexivity.
    + apply collect_without_failure.
    + apply collect_single_failure.
    + apply collect_with_failure.
  - intros e rest. exists tr, n', results. split; [exact E|].
    unfold all_of. rewrite call_each_up_to_a_throw.
    unfold try_catch, bind. rewrite E. unfold throw, ret. rewrite !app_nil_r.
    reflexivity.
Qed.

End FanOut.

(** ** The verbs and the two form operations *)

Section VerbsAndForms.

Import ApiClient Configuration.

Context (w : World) (c : t).

Lemma perform_hands (op : Operation) :
  perform w c op = pipeline w c (endpoint_of op) (handed w op).
Proof. destruct op; reflexivity. Qed.

Lemma handed_method (op : Operation) :
  method (options_of op) = Missing -> method (handed w op) = Has (verb_of op).
Proof. intros H. destruct op; simpl in *; rewrite H; reflexivity. Qed.

(** X18: when the options of a call have no [method] and no request
    interceptor replaces the request, every transport call of each of the
    nine operations, on every attempt and on both transports, is made with
    the operation's own verb. *)
Theorem every_operation_dispatches_its_verb (op : Operation) (n : nat) :
  method (options_of op) = Missing ->
  requestInterceptors c = [] ->
  exists tr n' r,
    perform w c op n = Some (tr, n', r)
    /\ Forall (dispatches_satisfy (fun rq => req_method rq = Some (verb_of op))
                                  (fun xm => xm = verb_of op)) tr.
Proof.
  intros Hm Hnil. rewrite perform_hands.
  destruct (pipeline_total w c (endpoint_of op) (handed w op) n) as [[[tr n'] r] E].
  exists tr, n', r. split; [exact E|].
  refine (request_dispatches w c _ _ Hnil _ (endpoint_of op)
            (fun o' => method o' = Has (verb_of op)) _ _ _ _
            (handed_method op Hm) n tr n' r E).
  - intros s rq H. exact H.
  - intros o' k H. exact H.
  - intros o' H. unfold new_Request. cbn [req_method].
    rewrite (merged_method c o' _ H). split; [reflexivity|].
    destruct op; reflexivity.
Qed.

(** X19: the key Content-Type, in this spelling, of the [headers] record
    [postUrlEncoded] hands to [new Request].  With options that have no
    [headers] and no [body], the record holds
    application/x-www-form-urlencoded under it, in place of the client's
    default, and the encoded data is the body.  With options that have
    [headers] without that key, the options' [headers] replace the ones
    [postUrlEncoded] wrote, and the record holds the client's default
    under it, if any. *)
Theorem postUrlEncoded_content_type
    (data : list (string * string)) (u : string)
    (o : RequestOptions) (o' : RequestOptions) (h : gmap string string) :
  headers o = Missing ->
  body o = Missing ->
  headers o' = Has h ->
  h !! "Content-Type" = None ->
  (init_headers (new_Request u (mergeOptions c (postUrlEncoded_options w data o)))
     !! "Content-Type" = Some "application/x-www-form-urlencoded"
   /\ req_body (new_Request u (mergeOptions c (postUrlEncoded_options w data o)))
      = Some (BodyText (URLSearchParams_toString w data)))
  /\ init_headers (new_Request u (mergeOptions c (postUrlEncoded_options w data o')))
       !! "Content-Type"
     = spread_headers (headers (defaultOptions c)) !! "Content-Type".
Proof.
  intros Hh Hb Hh' Hct. split; [split|].
  - rewrite merged_headers, lookup_union.
    unfold postUrlEncoded_options. cbn [headers spreadOptions with_body with_headers].
    rewrite Hh. cbn [spread spread_headers read].
    rewrite lookup_union, lookup_empty, lookup_singleton_eq.
    destruct (spread_headers (headers (defaultOptions c)) !! "Content-Type");
      reflexivity.
  - unfold new_Request, mergeOptions, postUrlEncoded_options.
    cbn [req_body body spreadOptions with_body with_headers]. rewrite Hb. reflexivity.
  - rewrite merged_headers, lookup_union.
    unfold postUrlEncoded_options. cbn [headers spreadOptions with_body with_headers].
    rewrite Hh'. cbn [spread spread_headers read]. rewrite Hct.
    destruct (spread_headers (headers (defaultOptions c)) !! "Content-Type");
      reflexivity.
Qed.

(** X20: [postForm] removes the key Content-Type, in this spelling, from
    the headers given in the options of the call, but the [headers] record
    it hands to [new Request] still holds under that key the client's
    default (application/json for a client made without header options),
    because the defaults are merged afterwards; every key of another
    spelling holds what it holds for any call, and without a [body] in the
    options the form is the body. *)
Theorem postForm_content_type
    (form : list (string * string)) (u : string) (o : RequestOptions) (k : string) :
  init_headers (new_Request u (mergeOptions c (postForm_options form o))) !! "Content-Type"
  = spread_headers (headers (defaultOptions c)) !! "Content-Type"
  /\ (k <> "Content-Type" ->
      init_headers (new_Request u (mergeOptions c (postForm_options form o))) !! k
      = init_headers (new_Request u (mergeOptions c o)) !! k)
  /\ (body o = Missing ->
      req_body (new_Request u (mergeOptions c (postForm_options form o)))
      = Some (BodyForm form)).
Proof.
  split; [|split].
  - rewrite merged_headers, lookup_union.
    unfold postForm_options. cbn [headers spreadOptions with_body with_headers].
    cbn [spread spread_headers read]. rewrite lookup_delete_eq.
    destruct (spread_headers (headers (defaultOptions c)) !! "Content-Type");
      reflexivity.
  - intros Hk. rewrite !merged_headers, !lookup_union.
    unfold postForm_options. cbn [headers spreadOptions with_body with_headers].
    cbn [spread spread_headers read]. rewrite lookup_delete_ne by congruence.
    reflexivity.
  - intros Hb. unfold new_Request, mergeOptions, postForm_options.
    cbn [req_body body spreadOptions with_body with_headers]. rewrite Hb. reflexivity.
Qed.

End VerbsAndForms.

(** ** [downloadFile] *)

Section DownloadFile.

Import ApiClient Download.

Context (w : World) (c : t).

(** X21: with the calls on [window] and [document] taken to succeed,
    [downloadFile] never throws, also when the request does, and never
    returns data.  It triggers the download exactly when it returns no
    error: the request then returned no error and a truthy value, which is
    what is downloaded, under the given file name or "download" when none
    or an empty one is given. *)
Theorem downloadFile_returns_no_data_and_clicks_on_success
    (endpoint : string) (filename : option string) (o : RequestOptions) (n : nat) :
  exists tr n' outcome dom,
    downloadFile w c endpoint filename o n = Some (tr, n', Normal (outcome, dom))
    /\ snd outcome = VNull
    /\ (fst outcome = None ->
        exists content,
          pipeline w c endpoint (download_options o) n
          = Some (tr, n', Normal (None, content))
          /\ truthy_value content = true
          /\ dom = [Click content (or_string filename "download")])
    /\ (fst outcome <> None -> dom = []).
Proof.
  destruct (pipeline_total w c endpoint (download_options o) n) as [[[tr n'] r] E].
  unfold downloadFile, try_catch, bind. rewrite E.
  destruct r as [[[e|] content]|e]; simpl.
  - exists tr, n', (Some e, VNull), []. unfold ret. rewrite app_nil_r.
    repeat split; [discriminate].
  - destruct (truthy_value content) eqn:Ht; simpl; unfold ret; rewrite app_nil_r.
    + exists tr, n', (None, VNull), [Click content (or_string filename "download")].
      repeat split.
      * intros _. exists content. repeat split. exact Ht.
      * intros H. contradiction.
    + exists tr, n', (Some (Error_ "Download failed"), VNull), [].
      repeat split; [discriminate].
  - exists (tr ++ []), n', (Some (as_Error e), VNull), [].
    repeat split; [discriminate].
Qed.

End DownloadFile.

(** ** The abort signal given to [fetch] *)

Section Signals.

Import ApiClient Readings.

Context (w : World) (c : t).

Lemma fetch_carries (mo : RequestOptions) (request : Request) :
  (present (read (cancelToken mo)) = true -> signal request = Some CancelSignal) ->
  emits_only (dispatches_satisfy (carried mo) (fun _ => True))
    (if tracks_progress mo
     then fetchWithProgressTracking w request mo
     else fetchWithTimeout w request (read (timeout mo))).
Proof.
  intros Hk.
  destruct (tracks_progress mo).
  - unfold fetchWithProgressTracking.
    apply emits_try_catch; [|intros e; apply emits_rethrow].
    apply emits_fetch_call. simpl. unfold carried.
    destruct (truthy_optnum (read (timeout mo))); split; auto; discriminate.
  - unfold fetchWithTimeout.
    destruct (truthy_optnum (read (timeout mo))) eqn:Ht; simpl.
    + apply emits_try_catch; [|intros e; apply emits_rethrow].
      apply emits_fetch_call. simpl. unfold carried. rewrite Ht.
      split; auto; discriminate.
    + apply emits_fetch_call. simpl. unfold carried. rewrite Ht.
      split; auto; discriminate.
Qed.

Lemma attempt_carries (u : string) (mo : RequestOptions) :
  emits_only (dispatches_satisfy (carried mo) (fun _ => True)) (attempt w c u mo).
Proof.
  unfold attempt.
  apply emits_bind.
  { destruct (read (cancelToken mo)); [apply emits_lift|apply emits_ret]. }
  intros _. destruct (takes_xhr_path mo).
  - intros n tr n' r E. injection E as <- _ _. repeat constructor.
  - unfold over_fetch, applyRequestInterceptors.
    apply emits_bind; [apply emits_lift|intros r0].
    apply emits_bind;
      [apply emits_request_interceptors; intros; exact I|intros r1].
    apply (emits_bind_returning _
             (fun rq => present (read (cancelToken mo)) = true ->
                        signal rq = Some CancelSignal)).
    { destruct (read (cancelToken mo)); repeat stage_step. exact I. }
    { destruct (read (cancelToken mo)).
      - apply returns_bind. intros _. apply returns_ret. reflexivity.
      - apply returns_ret. discriminate. }
    intros r2 H2.
    apply emits_bind; [apply emits_lift|intros _].
    apply emits_bind; [apply fetch_carries, H2|intros resp].
    apply emits_bind;
      [apply emits_response_interceptors; intros; exact I|intros resp2].
    apply emits_bind; [apply emits_check_status|intros _].
    apply emits_bind; [apply emits_process_response|intros d].
    apply emits_ret.
Qed.

(** X22: whatever the interceptors do, a request whose merged timeout is
    set (not absent and not 0, as with the constructor's default of 10000)
    hands every request it gives to [fetch], on every attempt, with the
    signal of the timeout timer, also when a cancel token is given: the
    signal tied to the token is replaced.  Only with no timeout does a
    request with a cancel token reach [fetch] with the token's signal. *)
Theorem fetch_is_given_the_timer_signal_when_a_timeout_is_set
    (endpoint : string) (o : RequestOptions) (n : nat) :
  exists tr n' r,
    pipeline w c endpoint o n = Some (tr, n', r)
    /\ Forall (dispatches_satisfy (carried (mergeOptions c o)) (fun _ => True)) tr.
Proof.
  destruct (pipeline_total w c endpoint o n) as [[[tr n'] r] E].
  exists tr, n', r. split; [exact E|].
  revert n tr n' r E.
  apply (request_rule w c endpoint
           (fun o' => timeout (mergeOptions c o') = timeout (mergeOptions c o)
                      /\ cancelToken (mergeOptions c o')
                         = cancelToken (mergeOptions c o))).
  - intros o' k H. exact H.
  - intros o' n tra n1 a [Ht Hk] Ea. constructor; [exact I|].
    pose proof (attempt_carries _ _ _ _ _ _ Ea) as H.
    unfold carried in *. rewrite Ht, Hk in H. exact H.
  - intros o' n tra n1 e trr r [Ht Hk] Ea _ IH. constructor; [exact I|].
    apply Forall_app. split.
    + pose proof (attempt_carries _ _ _ _ _ _ Ea) as H.
      unfold carried in *. rewrite Ht, Hk in H. exact H.
    + constructor; [exact I|exact IH].
  - intros o' n tra n1 e post n2 r' [Ht Hk] Ea _ Ec. constructor; [exact I|].
    apply Forall_app. split.
    + pose proof (attempt_carries _ _ _ _ _ _ Ea) as H.
      unfold carried in *. rewrite Ht, Hk in H. exact H.
    + constructor; [exact I|].
      exact (emits_error_interceptors _ _ _ _ _ _ _ _ _ Ec).
  - split; reflexivity.
Qed.

End Signals.

(** ** The header object shared by a client and the clients made from it *)

Section SharedHeaderObject.

Import ApiClient SharedHeaders.

(** For the client itself, writing through the reference is the change
    of [Configuration.setHeader]. *)
Lemma setHeader_at (name value : string) (sc : Client) (h : list (gmap string string)) :
  (forall a, read (headers_ref sc) = Some a -> (a < length h)%nat) ->
  client_at (snd (setHeader name value sc h)) (fst (setHeader name value sc h))
  = Configuration.setHeader name value (client_at h sc).
Proof.
  intros Hin. unfold setHeader, client_at, Configuration.setHeader.
  destruct (headers_ref sc) as [| |a] eqn:Er; simpl.
  - rewrite lookup_app_r, Nat.sub_diag by lia. reflexivity.
  - rewrite lookup_app_r, Nat.sub_diag by lia. reflexivity.
  - rewrite Er. simpl. rewrite list_lookup_alter_eq.
    destruct (lookup_lt_is_Some_2 h a (Hin a eq_refl)) as [x ->]. reflexivity.
Qed.



End SharedHeaderObject.

(** ** The order of the events of an attempt *)

Section AttemptOrder.

Import ApiClient Configuration Readings Scenario.

Ltac open_shape :=
  let f := fresh "f" in
  let H := fresh "H" in
  intros f H; cbv beta in H;
  repeat match goal with
         | H : exists _, _ |- _ => destruct H
         | H : _ /\ _ |- _ => destruct H
         end;
  subst.

Lemma shaped_weaken {A} (F G : list Event -> Prop) (m : M A) :
  shaped F m -> (forall f, F f -> G f) -> shaped G m.
Proof.
  intros H HFG n tr n' r E. destruct (H n tr n' r E) as (f & Hf & Hp & Hn).
  exists f. auto.
Qed.

Lemma shaped_bind {A B} (F1 F2 : list Event -> Prop) (m : M A) (k : A -> M B) :
  shaped F1 m ->
  (forall a, shaped F2 (k a)) ->
  (exists f2, F2 f2) ->
  shaped (fun f => exists f1 f2, F1 f1 /\ F2 f2 /\ f = f1 ++ f2) (bind m k).
Proof.
  intros Hm Hk [f0 Hf0].
  apply (sat_bind m k _ _ Hm).
  - intros tr e (f1 & Hf1 & Hp & _).
    exists (f1 ++ f0). split; [exists f1, f0; auto|].
    split; [apply prefix_app_r, Hp|discriminate].
  - intros tr a (f1 & Hf1 & _ & Hn) n tr2 n' r E.
    destruct (Hk a n tr2 n' r E) as (f2 & Hf2 & Hp2 & Hn2).
    rewrite (Hn a eq_refl).
    exists (f1 ++ f2). split; [exists f1, f2; auto|].
    split; [apply prefix_app, Hp2|].
    intros b Hb. rewrite (Hn2 b Hb). reflexivity.
Qed.

Lemma shaped_silent {A} (m : M A) :
  emits_only (fun _ => False) m -> shaped (fun f => f = []) m.
Proof.
  intros H n tr n' r E. exists []. split; [reflexivity|].
  pose proof (H n tr n' r E) as Hn.
  destruct tr as [|ev tr]; [split; [reflexivity|auto]|].
  inversion Hn as [|? ? Hev _]. contradiction.
Qed.

Lemma shaped_emit (ev : Event) : shaped (fun f => f = [ev]) (emit ev).
Proof.
  intros n tr n' r E. injection E as <- _ _. exists [ev]. auto.
Qed.

Context (w : World) (c : t).

Lemma shaped_request_chain (l : list nat) :
  forall r, shaped (fun f => f = map EvRequestInterceptor l)
                   (applyRequestInterceptors_from w l r).
Proof.
  induction l as [|i l IH]; intros r.
  - apply shaped_silent, emits_ret.
  - cbn [applyRequestInterceptors_from].
    eapply shaped_weaken.
    + apply shaped_bind; [apply shaped_emit| |].
      * intros _. apply shaped_bind; [apply shaped_silent, emits_lift| |].
        -- intros next. apply IH.
        -- eexists; reflexivity.
      * eexists. eexists _, _. split; [reflexivity|]. split; reflexivity.
    + open_shape. reflexivity.
Qed.

Lemma shaped_response_chain (l : list nat) :
  forall r, shaped (fun f => f = map EvResponseInterceptor l)
                   (applyResponseInterceptors_from w l r).
Proof.
  induction l as [|i l IH]; intros r.
  - apply shaped_silent, emits_ret.
  - cbn [applyResponseInterceptors_from].
    eapply shaped_weaken.
    + apply shaped_bind; [apply shaped_emit| |].
      * intros _. apply shaped_bind; [apply shaped_silent, emits_lift| |].
        -- intros next. apply IH.
        -- eexists; reflexivity.
      * eexists. eexists _, _. split; [reflexivity|]. split; reflexivity.
    + open_shape. reflexivity.
Qed.

Lemma shaped_fetch (mo : RequestOptions) (request : Request) :
  shaped (fun f => exists rq, f = [EvFetch rq])
    (if tracks_progress mo
     then fetchWithProgressTracking w request mo
     else fetchWithTimeout w request (read (timeout mo))).
Proof.
  assert (Hcall : forall rq timeout,
            shaped (fun f => exists rq, f = [EvFetch rq])
                   (try_catch (fetch_call w rq) (@rethrow_abort_as_timeout Response timeout))).
  { intros rq timeout n tr n' r E. unfold try_catch, fetch_call in E.
    exists [EvFetch rq]. split; [eauto|].
    destruct (fetch w n rq) as [resp|e].
    - injection E as <- _ _. auto.
    - destruct (rethrow_abort_as_timeout timeout e (S n)) as [[[tr2 n2] r2]|] eqn:E2;
        [|discriminate].
      pose proof (emits_rethrow (fun _ => False) timeout e _ _ _ _ E2) as Hn.
      destruct tr2 as [|ev tr2]; [|inversion Hn; contradiction].
      injection E as <- _ _. auto. }
  destruct (tracks_progress mo).
  - unfold fetchWithProgressTracking. apply Hcall.
  - unfold fetchWithTimeout.
    destruct (negb (truthy_optnum (read (timeout mo)))); [|apply Hcall].
    intros n tr n' r E. injection E as <- _ _. exists [EvFetch request]. eauto.
Qed.

Lemma shaped_after_silent {A B} (F : list Event -> Prop) (m : M A) (k : A -> M B) :
  emits_only (fun _ => False) m ->
  (exists f, F f) ->
  (forall a, shaped F (k a)) ->
  shaped F (bind m k).
Proof.
  intros Hm Hf Hk. eapply shaped_weaken.
  - apply (shaped_bind (fun f => f = []) F); [apply shaped_silent, Hm|exact Hk|exact Hf].
  - open_shape. assumption.
Qed.

Lemma shaped_before_silent {A B} (F : list Event -> Prop) (m : M A) (k : A -> M B) :
  shaped F m ->
  (forall a, emits_only (fun _ => False) (k a)) ->
  shaped F (bind m k).
Proof.
  intros Hm Hk. eapply shaped_weaken.
  - apply (shaped_bind F (fun f => f = [])); [exact Hm| |exists []; reflexivity].
    intros a. apply shaped_silent, Hk.
  - open_shape. rewrite app_nil_r. assumption.
Qed.

Lemma shaped_over_fetch (u : string) (mo : RequestOptions) (tok : option CancelToken.t) :
  shaped (fun f => exists rq,
            f = map EvRequestInterceptor (requestInterceptors c)
                ++ abort_events tok ++ [EvFetch rq]
                ++ map EvResponseInterceptor (responseInterceptors c))
         (over_fetch w c u mo tok).
Proof.
  unfold over_fetch, applyRequestInterceptors, applyResponseInterceptors.
  set (responses := map EvResponseInterceptor (responseInterceptors c)).
  assert (H4 : forall response,
            shaped (fun f => f = responses)
              (do response <- applyResponseInterceptors_from w (responseInterceptors c)
                                response;
               run check_status w c mo response;
               do responseData <- process_response w mo response;
               ret (@None Thrown, responseData))).
  { intros response. apply shaped_before_silent; [apply shaped_response_chain|].
    intros response2. apply emits_bind; [apply emits_check_status|intros _].
    apply emits_bind; [apply emits_process_response|intros d]. apply emits_ret. }
  assert (H3 : forall request,
            shaped (fun f => exists rq, f = [EvFetch rq] ++ responses)
              (do response <- (if tracks_progress mo
                               then fetchWithProgressTracking w request mo
                               else fetchWithTimeout w request (read (timeout mo)));
               do response <- applyResponseInterceptors_from w (responseInterceptors c)
                                response;
               run check_status w c mo response;
               do responseData <- process_response w mo response;
               ret (@None Thrown, responseData))).
  { intros request. eapply shaped_weaken.
    - apply shaped_bind; [apply shaped_fetch|exact H4|eexists; reflexivity].
    - open_shape. eexists. reflexivity. }
  assert (Hsome : exists f, exists rq, f = [EvFetch rq] ++ responses).
  { eexists. exists (new_Request u mo). reflexivity. }
  eapply shaped_weaken.
  - apply shaped_after_silent; [apply emits_lift| |intros r0].
    2: { apply shaped_bind; [apply shaped_request_chain| |].
         - intros request.
           apply (shaped_bind (fun f => f = abort_events tok)).
           + destruct tok as [tok|]; unfold abort_events; simpl.
             * apply shaped_before_silent; [apply shaped_emit|].
               intros _. apply emits_ret.
             * apply shaped_silent, emits_ret.
           + intros request2.
             apply shaped_after_silent; [apply emits_lift|exact Hsome|].
             intros _. apply H3.
           + exact Hsome.
         - destruct Hsome as (f & rq & ->).
           eexists. eexists _, _. split; [reflexivity|]. split; [|reflexivity].
           exists rq. reflexivity. }
    destruct Hsome as (f & rq & ->).
    eexists. eexists _, _. split; [reflexivity|]. split; [|reflexivity].
    eexists _, _. split; [reflexivity|]. split; [|reflexivity].
    exists rq. reflexivity.
  - open_shape. eexists. reflexivity.
Qed.

(** X24: the events of an attempt over [fetch] come in one order: the
    request interceptors in registration order, the registration of the
    abort callback when a token is given, the transport call, the response
    interceptors in registration order.  An attempt that returns has
    emitted them all; one that throws has emitted a prefix of them, so no
    request interceptor is called after the transport call and no response
    interceptor before it. *)
Theorem attempt_events_are_in_order (u : string) (mo : RequestOptions) (n : nat) :
  takes_xhr_path mo = false ->
  exists tr n' r rq,
    attempt w c u mo n = Some (tr, n', r)
    /\ tr `prefix_of` full_attempt c mo rq
    /\ forall a, r = Normal a -> tr = full_attempt c mo rq.
Proof.
  intros Hx.
  destruct (total_attempt w c u mo n) as [[[tr n'] r] E].
  exists tr, n', r.
  assert (H : shaped (fun f => exists rq, f = full_attempt c mo rq) (attempt w c u mo)).
  { unfold attempt. rewrite Hx.
    eapply shaped_weaken.
    - apply (shaped_bind (fun f => f = [])).
      + apply shaped_silent.
        destruct (read (cancelToken mo)); [apply emits_lift|apply emits_ret].
      + intros _. apply shaped_over_fetch.
      + eexists. exists (new_Request u mo). reflexivity.
    - open_shape. eexists. reflexivity. }
  destruct (H n tr n' r E) as (f & [rq ->] & Hp & Hn).
  exists rq. auto.
Qed.

End AttemptOrder.

Section AttemptOrderRun.

Import ApiClient Configuration Readings Scenario.

(** Two request interceptors and a response interceptor around a call
    that is answered. *)
Lemma attempt_order_witness :
  let w := scripted [ok "{}"] (XhrError 0) in
  let c := registrations [AddRequest 1; AddRequest 2; AddResponse 3]%nat client in
  let mo := mergeOptions c Options.empty in
  exists tr n' r rq,
    attempt w c "https://api.example.com/a" mo 0%nat = Some (tr, n', r)
    /\ tr `prefix_of` full_attempt c mo rq
    /\ forall a, r = Normal a -> tr = full_attempt c mo rq.
Proof.
  intros w c mo.
  apply (attempt_events_are_in_order w c "https://api.example.com/a" mo 0%nat).
  reflexivity.
Defined.

End AttemptOrderRun.

(** ** Concrete runs of the properties above *)

Section MoreWitnesses.

Import ApiClient Configuration Download Readings Scenario.

(** Two request interceptors that return what they are given. *)
Lemma request_chain_witness :
  let w := scripted [] (XhrError 0) in
  let f := fun (_ : nat) (rq : Request) => rq in
  let l := [1; 2]%nat in
  let r := new_Request "https://api.example.com/a" (mergeOptions client Options.empty) in
  applyRequestInterceptors_from w l r 0%nat
  = Some (request_interceptor_events l, 0%nat,
          Normal (fold_left (fun rq i => f i rq) l r))
  /\ forall i later e,
       requestInterceptor w i (fold_left (fun rq i => f i rq) l r) = Throw e ->
       applyRequestInterceptors_from w (l ++ i :: later) r 0%nat
       = Some (request_interceptor_events (l ++ [i]), 0%nat, Throw e).
Proof.
  intros w f l r.
  apply (request_chain_runs_in_order_and_stops_at_a_throw w f l r 0%nat).
  intros i rq _. reflexivity.
Defined.

(** A dead network and a budget of two. *)
Lemma network_failure_witness :
  let w := scripted [] (XhrError 0) in
  let o := with_budget 2 1000 in
  exists tr n' r',
    pipeline w client "/a" o 0%nat = Some (tr, n', as_outcome r')
    /\ count is_fetch tr = S (budget client o)
    /\ count is_sleep tr = budget client o
    /\ In (EvErrorChain (TypeError "Failed to fetch")) tr.
Proof.
  intros w o.
  apply (network_failure_is_retried_until_the_budget_is_used_up
           w client "Failed to fetch" "/a" o 0%nat).
  - intros k rq. reflexivity.
  - reflexivity.
  - reflexivity.
  - reflexivity.
  - reflexivity.
  - reflexivity.
  - reflexivity.
Defined.



(** A transport that answers the abort of the ten-second timer. *)
Lemma fetch_timeout_witness :
  let w := scripted [Throw (DOMException "AbortError" "The operation was aborted.")]
                    (XhrError 0) in
  let request :=
    new_Request "https://api.example.com/a" (mergeOptions client Options.empty) in
  let timed_out := Error_ ("Request timed out after " +:+ String_of 10000 +:+ "ms") in
  fetchWithTimeout w request (Some 10000%Z) 0%nat
    = Some ([EvFetch (with_signal TimeoutSignal request)], 1%nat, Throw timed_out)
  /\ isTimeoutError (message_or_String timed_out) = true
  /\ shouldRetry timed_out None = false
  /\ fetchWithTimeout w request None 0%nat
     = Some ([EvFetch request], 1%nat, fetch w 0%nat request)
  /\ fetchWithTimeout w request (Some 0%Z) 0%nat
     = Some ([EvFetch request], 1%nat, fetch w 0%nat request).
Proof.
  intros w request.
  apply (fetch_timeout_is_a_plain_error_that_is_not_retried
           w request 10000%Z "The operation was aborted." 0%nat None).
  - lia.
  - reflexivity.
Defined.

(** A GET with an upload callback, a budget of three retries and a
    registered error interceptor, on a transport that times out. *)
Lemma xhr_failure_witness :
  let w := scripted [] (XhrTimeout 0) in
  let c := addErrorInterceptor 1 client in
  let o := over_xhr (with_budget 3 1000) in
  let error := ApiError "Request timed out after 10000ms" (Some 0%Z) VUndefined in
  pipeline w c "/a" o 0%nat
  = Some ([EvAttempt; EvXhrSend "https://api.example.com/a" "GET" None], 1%nat,
          Normal (Some error, VNull))
  /\ shouldRetry error (read (retryStatusCodes (mergeOptions c o))) = true
  /\ budget c o = 3%nat.
Proof.
  intros w c o error.
  assert (Htok : forall tok, read (cancelToken (mergeOptions c o)) = Some tok ->
                             CancelToken.requested tok = false).
  { intros tok H. vm_compute in H. discriminate H. }
  pose proof (xhr_failure_is_returned_without_retry_or_error_chain
                w c "/a" o 0%nat error VNull eq_refl Htok eq_refl eq_refl) as H.
  split; [exact (proj1 H)|]. split; [|reflexivity].
  exact (proj2 (proj2 (proj2 (proj2 (proj2 (proj2 H))))) 0%Z eq_refl).
Defined.

(** A 404 answer announced as JSON whose body is not JSON. *)
Lemma rejected_status_witness :
  let w := scripted [] (XhrError 0) in
  let mo := mergeOptions client Options.empty in
  let response :=
    {| status := 404; statusText := "Not Found";
       content_type := Some "application/json"; response_body := "nope" |} in
  check_status w client mo response 0%nat
  = Some ([], 0%nat, Throw (status_failure 404 (VStr "Not Found")))
  /\ onload w mo 404 "nope" VNull
     = (Some (as_Error (SyntaxError "Unexpected token in JSON")), VNull).
Proof.
  intros w mo response.
  apply (rejected_status_with_undecodable_body
           w client mo response "application/json" default_validateStatus
           (SyntaxError "Unexpected token in JSON") VNull 0%nat);
    reflexivity.
Defined.

(** Two requests and a promise that rejects; and the same followed by a
    function that throws when it is called. *)
Lemma all_witness :
  let w := scripted [ok "{}"; failed 404] (XhrError 0) in
  let promises :=
    [get w client "/a" Options.empty; get w client "/b" Options.empty;
     throw (Error_ "rejected")] in
  (exists tr n' results,
     all promises 0%nat = Some (tr, n', Normal (collect results))
     /\ Forall2 (fun promise result =>
                   exists n1 tr1 n2 r,
                     promise n1 = Some (tr1, n2, r) /\ result = settled_as r)
                promises results
     /\ (Forall (fun result => fst result = None) results ->
         collect results = (None, VArr (map snd results)))
     /\ (forall e, errors_of results = [e] -> collect results = (Some e, VNull))
     /\ (errors_of results <> [] ->
         fst (collect results) <> None /\ snd (collect results) = VNull))
  /\ (exists tr n' results,
        settle_each promises 0%nat = Some (tr, n', Normal results)
        /\ all_of (map ReturnsPromise promises
                   ++ [ThrowsWhenCalled (Raw "no function");
                       ReturnsPromise (get w client "/c" Options.empty)]) 0%nat
           = Some (tr, n', Normal (Some (Error_ "no function"), VNull))).
Proof.
  intros w promises.
  assert (Ht : Forall total promises).
  { repeat constructor.
    - apply pipeline_total.
    - apply pipeline_total.
    - intros n. eexists. reflexivity. }
  split.
  - exact (proj1 (proj2 (all_runs_every_invocation_and_collects promises 0%nat Ht))).
  - exact (proj2 (proj2 (all_runs_every_invocation_and_collects promises 0%nat Ht))
             (Raw "no function")
             [ReturnsPromise (get w client "/c" Options.empty)]).
Defined.

(** [put] without a method in its options. *)
Lemma operation_verb_witness :
  let w := scripted [ok "{}"] (XhrError 0) in
  let op := Put "/a" (VStr "x") (with_budget 1 1000) in
  exists tr n' r,
    perform w client op 0%nat = Some (tr, n', r)
    /\ Forall (dispatches_satisfy (fun rq => req_method rq = Some "PUT")
                                  (fun xm => xm = "PUT")) tr.
Proof.
  intros w op.
  apply (every_operation_dispatches_its_verb w client op 0%nat); reflexivity.
Defined.

(** Options without headers, and options with a header that is not the
    content type. *)
Lemma postUrlEncoded_witness :
  let w := scripted [] (XhrError 0) in
  let data := [("a", "1")] in
  let u := "https://api.example.com/a" in
  let o := Options.empty in
  let h : gmap string string := {[ "X-Trace" := "1" ]} in
  let o' := with_headers (Has h) Options.empty in
  (init_headers (new_Request u (mergeOptions client (postUrlEncoded_options w data o)))
     !! "Content-Type" = Some "application/x-www-form-urlencoded"
   /\ req_body (new_Request u (mergeOptions client (postUrlEncoded_options w data o)))
      = Some (BodyText (URLSearchParams_toString w data)))
  /\ init_headers (new_Request u (mergeOptions client (postUrlEncoded_options w data o')))
       !! "Content-Type"
     = spread_headers (headers (defaultOptions client)) !! "Content-Type".
Proof.
  intros w data u o h o'.
  apply (postUrlEncoded_content_type w client data u o o' h); reflexivity.
Defined.

End MoreWitnesses.
